(** * unplugin-electron-ipc: the build-time IPC transform

    A shallow embedding of [packages/unplugin-electron-ipc/src/index.ts]
    and of the library calls it relies on (JavaScript strings, node's
    [crypto] and [path], the TypeScript syntax tree, magic-string), followed
    by the properties of the transform.

    Conventions.  A JavaScript string is a [string]; one character stands
    for one UTF-16 code unit below 256.  Offsets are [nat].  A call that can
    throw returns an [option]. *)

From Stdlib Require Import Strings.String Strings.Ascii.
From Stdlib Require Import Lists.List.
From Stdlib Require Import NArith.NArith Arith.PeanoNat Arith.Arith.
From Stdlib Require Import Bool.Bool.
From Stdlib Require Import micromega.Lia.
Import ListNotations.

Local Open Scope list_scope.
Local Open Scope string_scope.

(* ================================================================== *)
(** * Part I: the model *)
(* ================================================================== *)

(** ** JavaScript string primitives *)

Module JsString.

(** The double quote, as a one-character string. *)
Definition dq : string := String (ascii_of_nat 34) EmptyString.

Fixpoint take (n : nat) (s : string) : string :=
  match n, s with
  | S n', String c s' => String c (take n' s')
  | _, _ => EmptyString
  end.

Fixpoint drop (n : nat) (s : string) : string :=
  match n, s with
  | S n', String _ s' => drop n' s'
  | _, _ => s
  end.

(** [s.slice(from, to)] for non-negative arguments: both are clamped to
    the length, and an empty string results when [to <= from]. *)
Definition slice (from to : nat) (s : string) : string :=
  take (to - from) (drop from s).

(** [s.startsWith(p)]. *)
Fixpoint startsWith (p s : string) : bool :=
  match p, s with
  | EmptyString, _ => true
  | String a p', String b s' => Ascii.eqb a b && startsWith p' s'
  | String _ _, EmptyString => false
  end.

(** [s.endsWith(p)], the meaning of a pattern anchored with [$]. *)
Definition endsWith (p s : string) : bool :=
  String.eqb (drop (String.length s - String.length p) s) p
  && Nat.leb (String.length p) (String.length s).

(** [s.indexOf(p)]: the least offset where [p] occurs. *)
Fixpoint indexOf (p s : string) : option nat :=
  if startsWith p s then Some 0
  else match s with
       | EmptyString => None
       | String _ s' => option_map S (indexOf p s')
       end.

(** The class [\s] of a regular expression, which is also what [trim]
    strips: TAB, LF, VT, FF, CR, SP and NBSP among the code units below
    256. *)
Definition isSpace (c : ascii) : bool :=
  let n := nat_of_ascii c in
  (Nat.leb 9 n && Nat.leb n 13) || Nat.eqb n 32 || Nat.eqb n 160.

(** The class [\w]: letters, digits and the underscore. *)
Definition isWord (c : ascii) : bool :=
  let n := nat_of_ascii c in
  (Nat.leb 48 n && Nat.leb n 57) || (Nat.leb 65 n && Nat.leb n 90)
  || (Nat.leb 97 n && Nat.leb n 122) || Nat.eqb n 95.

Fixpoint trimStart (s : string) : string :=
  match s with
  | String c s' => if isSpace c then trimStart s' else s
  | EmptyString => EmptyString
  end.

Fixpoint trimEnd (s : string) : string :=
  match s with
  | EmptyString => EmptyString
  | String c s' =>
      match trimEnd s' with
      | EmptyString => if isSpace c then EmptyString else String c EmptyString
      | t => String c t
      end
  end.

Definition trim (s : string) : string := trimEnd (trimStart s).

(** [s.split(sep)] for a one-character separator. *)
Fixpoint split (sep : ascii) (s : string) : list string :=
  match s with
  | EmptyString => [EmptyString]
  | String c s' =>
      if Ascii.eqb c sep then EmptyString :: split sep s'
      else match split sep s' with
           | [] => [String c EmptyString]
           | w :: ws => String c w :: ws
           end
  end.

(** [xs.join(sep)]. *)
Fixpoint join (sep : string) (xs : list string) : string :=
  match xs with
  | [] => EmptyString
  | [x] => x
  | x :: rest => x ++ sep ++ join sep rest
  end.

(** [Boolean(s)] for a string: the empty string is the only falsy one. *)
Definition truthy (s : string) : bool :=
  match s with EmptyString => false | _ => true end.

(** Every character of [s] satisfies [p]. *)
Fixpoint allChars (p : ascii -> bool) (s : string) : bool :=
  match s with
  | EmptyString => true
  | String c s' => p c && allChars p s'
  end.

(** A lower-case hexadecimal digit. *)
Definition isHexDigit (c : ascii) : bool :=
  let n := nat_of_ascii c in
  (Nat.leb 48 n && Nat.leb n 57) || (Nat.leb 97 n && Nat.leb n 102).

(** [xs.includes(x)] on an array of strings. *)
Definition includes (x : string) (xs : list string) : bool :=
  existsb (String.eqb x) xs.

End JsString.

(** ** [crypto.createHash("sha256")] *)

Module Sha256.
Local Open Scope N_scope.

Definition mask32 : N := 4294967295.
Definition w32 (x : N) : N := N.land x mask32.
Definition add32 (x y : N) : N := w32 (x + y).
Definition rotr (n x : N) : N :=
  N.lor (N.shiftr x n) (w32 (N.shiftl x (32 - n))).
Definition shr (n x : N) : N := N.shiftr x n.
Definition not32 (x : N) : N := N.lxor x mask32.

Definition Ch (x y z : N) : N :=
  N.lxor (N.land x y) (N.land (not32 x) z).
Definition Maj (x y z : N) : N :=
  N.lxor (N.lxor (N.land x y) (N.land x z)) (N.land y z).
Definition Sigma0 (x : N) : N :=
  N.lxor (N.lxor (rotr 2 x) (rotr 13 x)) (rotr 22 x).
Definition Sigma1 (x : N) : N :=
  N.lxor (N.lxor (rotr 6 x) (rotr 11 x)) (rotr 25 x).
Definition sigma0 (x : N) : N :=
  N.lxor (N.lxor (rotr 7 x) (rotr 18 x)) (shr 3 x).
Definition sigma1 (x : N) : N :=
  N.lxor (N.lxor (rotr 17 x) (rotr 19 x)) (shr 10 x).

(** The standard gives its constants through the primes: the first 32
    bits of the fractional part of the cube root of each of the first
    sixty-four primes for the rounds, and of the square root of each of
    the first eight for the initial chaining value. *)
Definition isPrime (n : nat) : bool :=
  forallb (fun d => negb (Nat.eqb (n mod d) 0)) (seq 2 (n - 2)).

Definition primes (count bound : nat) : list N :=
  map N.of_nat (firstn count (filter isPrime (seq 2 bound))).

(** The integer cube root, one bit at a time from the top. *)
Fixpoint cbrtBits (bits : nat) (n r : N) : N :=
  match bits with
  | O => r
  | S b =>
      let c := r + 2 ^ N.of_nat b in
      cbrtBits b n (if c * c * c <=? n then c else r)
  end.

Definition fractionalCbrt32 (p : N) : N :=
  w32 (cbrtBits 36 (p * 2 ^ 96) 0).

Definition fractionalSqrt32 (p : N) : N := w32 (N.sqrt (p * 2 ^ 64)).

Definition K : list N :=
  Eval vm_compute in map fractionalCbrt32 (primes 64 312).

(** The eight working variables, and the chaining value. *)
Record State : Type := mkState {
  ha : N; hb : N; hc : N; hd : N; he : N; hf : N; hg : N; hh : N }.

Definition H0 : State :=
  Eval vm_compute in
    match map fractionalSqrt32 (primes 8 20) with
    | [a; b; c; d; e; f; g; h] => mkState a b c d e f g h
    | _ => mkState 0 0 0 0 0 0 0 0
    end.

(** The UTF-8 bytes of a string of code units below 256. *)
Fixpoint utf8 (s : string) : list N :=
  match s with
  | EmptyString => []
  | String c s' =>
      let n := N_of_ascii c in
      if n <? 128 then n :: utf8 s'
      else N.lor 192 (N.shiftr n 6) :: N.lor 128 (N.land n 63) :: utf8 s'
  end.

(** Big-endian bytes of [x], [n] of them. *)
Fixpoint be_bytes (n : nat) (x : N) : list N :=
  match n with
  | O => []
  | S n' => N.land (N.shiftr x (8 * N.of_nat n')) 255 :: be_bytes n' x
  end.

(** Padding: a one bit, zeros up to 56 modulo 64, the bit length on 64
    bits. *)
Definition pad (msg : list N) : list N :=
  let len := List.length msg in
  let zeros := ((64 - ((len + 9) mod 64)) mod 64)%nat in
  (msg ++ [128] ++ repeat 0 zeros ++ be_bytes 8 (8 * N.of_nat len))%list.

Fixpoint words (n : nat) (bs : list N) : list N :=
  match n, bs with
  | S n', b0 :: b1 :: b2 :: b3 :: rest =>
      (N.shiftl b0 24 + N.shiftl b1 16 + N.shiftl b2 8 + b3)
        :: words n' rest
  | _, _ => []
  end.

(** The message schedule, grown from the sixteen words of a block; the
    list is kept with the latest word first. *)
Fixpoint schedule (n : nat) (rev_w : list N) : list N :=
  match n with
  | O => rev_w
  | S n' =>
      let w := add32 (add32 (sigma1 (nth 1 rev_w 0)) (nth 6 rev_w 0))
                     (add32 (sigma0 (nth 14 rev_w 0)) (nth 15 rev_w 0)) in
      schedule n' (w :: rev_w)
  end.

Definition round (s : State) (kw : N * N) : State :=
  let (k, w) := kw in
  let t1 := add32 (add32 (add32 (hh s) (Sigma1 (he s)))
                         (add32 (Ch (he s) (hf s) (hg s)) k)) w in
  let t2 := add32 (Sigma0 (ha s)) (Maj (ha s) (hb s) (hc s)) in
  mkState (add32 t1 t2) (ha s) (hb s) (hc s)
          (add32 (hd s) t1) (he s) (hf s) (hg s).

Definition compress (h : State) (block : list N) : State :=
  let w := rev (schedule 48 (rev (words 16 block))) in
  let s := fold_left round (combine K w) h in
  mkState (add32 (ha h) (ha s)) (add32 (hb h) (hb s))
          (add32 (hc h) (hc s)) (add32 (hd h) (hd s))
          (add32 (he h) (he s)) (add32 (hf h) (hf s))
          (add32 (hg h) (hg s)) (add32 (hh h) (hh s)).

Fixpoint blocks (n : nat) (h : State) (bs : list N) : State :=
  match n with
  | O => h
  | S n' => blocks n' (compress h (firstn 64 bs)) (skipn 64 bs)
  end.

Definition hash (msg : list N) : State :=
  let p := pad msg in
  blocks (List.length p / 64)%nat H0 p.

Definition hexDigit (d : N) : ascii :=
  if d <? 10 then ascii_of_N (48 + d) else ascii_of_N (87 + d).

(** [n] lower-case hexadecimal digits of [x], most significant first. *)
Fixpoint hexN (n : nat) (x : N) : string :=
  match n with
  | O => EmptyString
  | S n' =>
      String (hexDigit (N.land (N.shiftr x (4 * N.of_nat n')) 15))
             (hexN n' x)
  end.

(** [createHash("sha256").update(text).digest("hex")]. *)
Definition digestHex (text : string) : string :=
  let s := hash (utf8 text) in
  (hexN 8 (ha s) ++ hexN 8 (hb s) ++ hexN 8 (hc s) ++ hexN 8 (hd s) ++
   hexN 8 (he s) ++ hexN 8 (hf s) ++ hexN 8 (hg s) ++ hexN 8 (hh s))%string.

End Sha256.

(** ** [path.basename] (POSIX) *)

Module Path.
Import JsString.

(** The last non-empty component of a path; trailing separators are
    ignored and a path without any component gives the empty string. *)
Definition basename (p : string) : string :=
  fold_left (fun acc seg => if truthy seg then seg else acc)
            (split "/" p) EmptyString.

End Path.

(** ** The part of the TypeScript syntax tree the plugin consults

    [ts.createSourceFile] is the compiler's parser; the tree it returns for
    a source text is an argument of the transform.  A node carries [pos]
    (where its leading trivia start), [end], its modifiers and the
    children [ts.forEachChild] walks. *)

Module Ts.

Inductive SyntaxKind : Type :=
| ExportKeyword | DefaultKeyword | AsyncKeyword | DeclareKeyword.

Definition SyntaxKind_eqb (a b : SyntaxKind) : bool :=
  match a, b with
  | ExportKeyword, ExportKeyword | DefaultKeyword, DefaultKeyword
  | AsyncKeyword, AsyncKeyword | DeclareKeyword, DeclareKeyword => true
  | _, _ => false
  end.

(** [modifiers?.some((m) => m.kind === k)]; an absent modifier array is
    the empty list. *)
Definition hasModifier (k : SyntaxKind) (modifiers : list SyntaxKind) : bool :=
  existsb (SyntaxKind_eqb k) modifiers.

Inductive ExpressionKind : Type :=
| ArrowFunction | FunctionExpression | OtherExpression.

Record Initializer : Type := mkInitializer {
  init_kind : ExpressionKind;
  init_pos : nat;
  init_end : nat;
  init_modifiers : list SyntaxKind }.

Inductive BindingName : Type :=
| Identifier (text : string)
| BindingPattern.

Record VariableDeclaration : Type := mkVariableDeclaration {
  decl_name : BindingName;
  decl_initializer : option Initializer }.

(** An import declaration: the text of its module specifier, quotes
    included, and the local names of its named bindings when it has a
    [{ ... }] clause. *)
Record ImportInfo : Type := mkImportInfo {
  moduleSpecifierText : string;
  namedImports : option (list string) }.

#[warnings="-register-all"]
Inductive Node : Type :=
| FunctionDeclaration (pos end_ : nat) (modifiers : list SyntaxKind)
                      (name : option string) (children : list Node)
| VariableStatement (pos end_ : nat) (modifiers : list SyntaxKind)
                    (declarations : list VariableDeclaration)
                    (children : list Node)
| ImportDeclaration (pos start end_ : nat) (info : ImportInfo)
| OtherNode (pos end_ : nat) (modifiers : list SyntaxKind)
            (children : list Node).

Record SourceFile : Type := mkSourceFile { statements : list Node }.

(** Induction through the children of a node. *)
Section NodeInduction.
Variable P : Node -> Prop.
Hypothesis P_function :
  forall pos end_ modifiers name children,
    Forall P children ->
    P (FunctionDeclaration pos end_ modifiers name children).
Hypothesis P_variable :
  forall pos end_ modifiers declarations children,
    Forall P children ->
    P (VariableStatement pos end_ modifiers declarations children).
Hypothesis P_import :
  forall pos start end_ info, P (ImportDeclaration pos start end_ info).
Hypothesis P_other :
  forall pos end_ modifiers children,
    Forall P children -> P (OtherNode pos end_ modifiers children).

Fixpoint Node_children_ind (n : Node) : P n :=
  let all :=
    fix all (l : list Node) : Forall P l :=
      match l with
      | [] => Forall_nil P
      | x :: r => Forall_cons x (Node_children_ind x) (all r)
      end in
  match n with
  | FunctionDeclaration pos end_ modifiers name children =>
      P_function pos end_ modifiers name children (all children)
  | VariableStatement pos end_ modifiers declarations children =>
      P_variable pos end_ modifiers declarations children (all children)
  | ImportDeclaration pos start end_ info => P_import pos start end_ info
  | OtherNode pos end_ modifiers children =>
      P_other pos end_ modifiers children (all children)
  end.
End NodeInduction.

End Ts.

(** ** The two import patterns, and [String.prototype.replace]

    Each pattern is matched the way a backtracking matcher does: at every
    offset from the left, the first offset that matches wins.  In both
    patterns every greedy repetition is followed by something its class
    excludes (or, for the blanks before the group of the first pattern, by
    a class that ends at the same place), so the first match found at an
    offset is the one below. *)

Module Regex.
Import JsString.

Definition isQuote (c : ascii) : bool :=
  Ascii.eqb c "'"%char || Ascii.eqb c (ascii_of_nat 34).

Definition isDigit (c : ascii) : bool :=
  Nat.leb 48 (nat_of_ascii c) && Nat.leb (nat_of_ascii c) 57.

(** The longest prefix whose characters satisfy [p], and the rest. *)
Fixpoint spanWhile (p : ascii -> bool) (s : string) : string * string :=
  match s with
  | EmptyString => (EmptyString, EmptyString)
  | String c s' =>
      if p c then let (a, b) := spanWhile p s' in (String c a, b)
      else (EmptyString, s)
  end.

(** [\s+], then the continuation. *)
Definition spaces1 {A} (s : string) (k : string -> option A) : option A :=
  match s with
  | String c s' => if isSpace c then k (trimStart s') else None
  | EmptyString => None
  end.

(** [['"]electron['"]]; what follows the match is returned. *)
Definition quotedElectron (s : string) : option string :=
  match s with
  | String q s' =>
      if isQuote q && startsWith "electron" s' then
        match drop 8 s' with
        | String q' rest => if isQuote q' then Some rest else None
        | EmptyString => None
        end
      else None
  | EmptyString => None
  end.

(** The pattern of line 371, [import], blanks, an opening brace, blanks,
    a group of characters other than the closing brace, the closing
    brace, blanks, [from], blanks and the quoted module name, at the
    start of [s]: the captured group and what follows the match. *)
Definition namedImportAt (s : string) : option (string * string) :=
  if startsWith "import" s then
    match trimStart (drop 6 s) with
    | String "{"%char s2 =>
        let (group, s3) :=
          spanWhile (fun c => negb (Ascii.eqb c "}"%char)) (trimStart s2) in
        match s3 with
        | String _ s4 =>
            let s5 := trimStart s4 in
            if startsWith "from" s5 then
              option_map (pair group) (quotedElectron (trimStart (drop 4 s5)))
            else None
        | EmptyString => None
        end
    | _ => None
    end
  else None.

(** The pattern of lines 395 and 397, [import], one blank or more, a
    group of word characters, one blank or more, [from], one blank or
    more and the quoted module name, at the start of [s]. *)
Definition defaultImportAt (s : string) : option (string * string) :=
  if startsWith "import" s then
    spaces1 (drop 6 s) (fun s1 =>
      let (group, s2) := spanWhile isWord s1 in
      if truthy group then
        spaces1 s2 (fun s3 =>
          if startsWith "from" s3 then
            spaces1 (drop 4 s3) (fun s4 =>
              option_map (pair group) (quotedElectron s4))
          else None)
      else None)
  else None.

(** A match: its offset, the matched text and the captured group. *)
Record Match : Type := mkMatch {
  m_index : nat; m_text : string; m_group : string }.

(** The leftmost match of a pattern given by its anchored matcher. *)
Fixpoint search (at_ : string -> option (string * string)) (s : string)
  : option Match :=
  match at_ s with
  | Some (group, rest) =>
      Some (mkMatch 0 (take (String.length s - String.length rest) s) group)
  | None =>
      match s with
      | EmptyString => None
      | String _ s' =>
          option_map (fun m => mkMatch (S (m_index m)) (m_text m) (m_group m))
                     (search at_ s')
      end
  end.

(** [re.test(s)]. *)
Definition test (at_ : string -> option (string * string)) (s : string)
  : bool :=
  match search at_ s with Some _ => true | None => false end.

Definition digitValue (c : ascii) : nat := nat_of_ascii c - 48.

(** The replacement patterns of [replace]: [$$], [$&], [$`], [$'], and
    [$n], [$nn] for a group that exists; any other [$] stands for
    itself. *)
Fixpoint expand (matched before after : string) (groups : list string)
         (template : string) : string :=
  match template with
  | EmptyString => EmptyString
  | String c rest =>
      if Ascii.eqb c "$"%char then
        match rest with
        | EmptyString => "$"
        | String d r =>
            if Ascii.eqb d "$"%char then
              "$" ++ expand matched before after groups r
            else if Ascii.eqb d "&"%char then
              matched ++ expand matched before after groups r
            else if Ascii.eqb d "`"%char then
              before ++ expand matched before after groups r
            else if Ascii.eqb d "'"%char then
              after ++ expand matched before after groups r
            else if isDigit d then
              let one :=
                if Nat.leb 1 (digitValue d)
                   && Nat.leb (digitValue d) (List.length groups)
                then nth (digitValue d - 1) groups EmptyString
                       ++ expand matched before after groups r
                else "$" ++ expand matched before after groups rest in
              match r with
              | String d2 r2 =>
                  let nn := 10 * digitValue d + digitValue d2 in
                  if isDigit d2 && Nat.leb 1 nn
                     && Nat.leb nn (List.length groups)
                  then nth (nn - 1) groups EmptyString
                         ++ expand matched before after groups r2
                  else one
              | EmptyString => one
              end
            else "$" ++ expand matched before after groups rest
        end
      else String c (expand matched before after groups rest)
  end.

(** [s.replace(pattern, replacement)] for a string pattern: the first
    occurrence only, without groups. *)
Definition replaceString (pattern replacement s : string) : string :=
  match indexOf pattern s with
  | None => s
  | Some i =>
      let before := take i s in
      let after := drop (i + String.length pattern) s in
      before ++ expand pattern before after [] replacement ++ after
  end.

(** [s.replace(re, replacement)] for a pattern without the [g] flag. *)
Definition replaceRegex (at_ : string -> option (string * string))
           (replacement s : string) : string :=
  match search at_ s with
  | None => s
  | Some m =>
      let before := take (m_index m) s in
      let after := drop (m_index m + String.length (m_text m)) s in
      before ++ expand (m_text m) before after [m_group m] replacement
             ++ after
  end.

End Regex.

(** ** magic-string

    The string under edit is a sequence of chunks that tile the original
    text; an edit splits chunks at its end points and rewrites the chunks
    in between.  [None] stands for a thrown error. *)

Module MagicString.
Import JsString.

Record Chunk : Type := mkChunk {
  c_start : nat;
  c_end : nat;
  c_original : string;
  c_intro : string;
  c_content : string;
  c_outro : string;
  c_edited : bool }.

Record t : Type := mk {
  original : string;
  intro : string;
  outro : string;
  chunks : list Chunk }.

(** [new MagicString(source)]: one chunk holding the whole text. *)
Definition create (source : string) : t :=
  mk source EmptyString EmptyString
     [mkChunk 0 (String.length source) source
              EmptyString source EmptyString false].

(** [chunk.contains(index)]. *)
Definition contains (c : Chunk) (index : nat) : bool :=
  Nat.ltb (c_start c) index && Nat.ltb index (c_end c).

(** [chunk.edit(content, storeName, contentOnly)] with [contentOnly]
    false, which is how [overwrite] calls it. *)
Definition edit (content : string) (c : Chunk) : Chunk :=
  mkChunk (c_start c) (c_end c) (c_original c)
          EmptyString content EmptyString true.

(** [chunk.split(index)]: the two halves.  The outro moves to the second
    half; the halves of an edited chunk are edited and empty. *)
Definition splitChunk (c : Chunk) (index : nat) : Chunk * Chunk :=
  let sliceIndex := index - c_start c in
  let originalBefore := slice 0 sliceIndex (c_original c) in
  let originalAfter := drop sliceIndex (c_original c) in
  if c_edited c then
    (mkChunk (c_start c) index originalBefore (c_intro c)
             EmptyString EmptyString true,
     mkChunk index (c_end c) originalAfter EmptyString
             EmptyString EmptyString true)
  else
    (mkChunk (c_start c) index originalBefore (c_intro c)
             originalBefore EmptyString false,
     mkChunk index (c_end c) originalAfter EmptyString
             originalAfter (c_outro c) false).

(** [_split(index)]: nothing happens when [index] is already a chunk
    boundary; the chunk that contains it is split, which throws when that
    chunk is edited and not empty. *)
Fixpoint splitAt (index : nat) (cs : list Chunk) : option (list Chunk) :=
  match cs with
  | [] => Some []
  | c :: rest =>
      if contains c index then
        if c_edited c && truthy (c_content c) then None
        else let (c1, c2) := splitChunk c index in Some (c1 :: c2 :: rest)
      else option_map (cons c) (splitAt index rest)
  end.

(** The loop of [update]: the chunk that starts at [start] receives the
    content, the chunks after it up to [end_] are emptied. *)
Definition editRange (start end_ : nat) (content : string)
           (cs : list Chunk) : list Chunk :=
  map (fun c =>
         if Nat.eqb (c_start c) start then edit content c
         else if Nat.ltb start (c_start c) && Nat.leb (c_end c) end_
              then edit EmptyString c
              else c) cs.

(** [s.overwrite(start, end, content)].  The library throws when [end]
    lies past the text and when the range is empty; a syntax node has
    [pos <= end], and a range that runs backwards is taken to throw
    like the empty one. *)
Definition overwrite (start end_ : nat) (content : string) (s : t)
  : option t :=
  if Nat.ltb (String.length (original s)) end_ then None
  else if Nat.leb end_ start then None
  else
    match splitAt start (chunks s) with
    | None => None
    | Some cs1 =>
        match splitAt end_ cs1 with
        | None => None
        | Some cs2 =>
            Some (mk (original s) (intro s) (outro s)
                     (editRange start end_ content cs2))
        end
    end.

(** [s.append(content)]. *)
Definition append (content : string) (s : t) : t :=
  mk (original s) (intro s) (outro s ++ content) (chunks s).

(** [s.prepend(content)]. *)
Definition prepend (content : string) (s : t) : t :=
  mk (original s) (content ++ intro s) (outro s) (chunks s).

(** [chunk.appendLeft(content)] on the chunk that ends at [index]. *)
Fixpoint appendLeftChunk (index : nat) (content : string)
         (cs : list Chunk) : option (list Chunk) :=
  match cs with
  | [] => None
  | c :: rest =>
      if Nat.eqb (c_end c) index then
        Some (mkChunk (c_start c) (c_end c) (c_original c) (c_intro c)
                      (c_content c) (c_outro c ++ content) (c_edited c)
                :: rest)
      else option_map (cons c) (appendLeftChunk index content rest)
  end.

(** [s.appendLeft(index, content)]: the content goes to the intro of the
    whole string when no chunk ends at [index]. *)
Definition appendLeft (index : nat) (content : string) (s : t)
  : option t :=
  match splitAt index (chunks s) with
  | None => None
  | Some cs =>
      match appendLeftChunk index content cs with
      | Some cs' => Some (mk (original s) (intro s) (outro s) cs')
      | None => Some (mk (original s) (intro s ++ content) (outro s) cs)
      end
  end.

Definition chunkToString (c : Chunk) : string :=
  c_intro c ++ c_content c ++ c_outro c.

Definition chunksToString (cs : list Chunk) : string :=
  fold_right (fun c acc => chunkToString c ++ acc) EmptyString cs.

(** [s.toString()]. *)
Definition toString (s : t) : string :=
  intro s ++ chunksToString (chunks s) ++ outro s.

End MagicString.

(** ** The plugin: [unpluginFactory] *)

Module Plugin.
Import JsString.

(** [Options.context]. *)
Inductive Context : Type := Main | Renderer.

Definition Context_eqb (a b : Context) : bool :=
  match a, b with
  | Main, Main | Renderer, Renderer => true
  | _, _ => false
  end.

Record ExportedFunction : Type := mkExportedFunction {
  name : string;
  start : nat;
  end_ : nat;
  isAsync : bool;
  originalBodyCode : string;
  isDefault : bool }.

(** The outcome of [transform]: [null], the rewritten code, or an error
    thrown on the way. *)
Inductive TransformResult : Type :=
| Null
| Code (code : string)
| Throws.

Definition nl : string := String (ascii_of_nat 10) EmptyString.

(** [createHashForText], lines 12-14. *)
Definition createHashForText (text : string) : string :=
  slice 0 12 (Sha256.digestHex text).

(** The three file-name patterns, each anchored at the end. *)
Definition isIpcFile (id : string) : bool :=
  endsWith ".ipc.ts" id || endsWith ".ipc.js" id.
Definition isMainIpcFile (id : string) : bool :=
  endsWith ".main.ipc.ts" id || endsWith ".main.ipc.js" id.
Definition isRendererIpcFile (id : string) : bool :=
  endsWith ".renderer.ipc.ts" id || endsWith ".renderer.ipc.js" id.

(** [transformInclude], lines 35-57. *)
Definition transformInclude (context : Context) (id : string) : bool :=
  if negb (isIpcFile id) then false
  else
    let shouldTransform :=
      (Context_eqb context Main
       && (isMainIpcFile id || isRendererIpcFile id))
      || (Context_eqb context Renderer
          && (isMainIpcFile id || isRendererIpcFile id)) in
    if negb shouldTransform then false else true.

(** The entries one declaration of an exported variable statement
    pushes, lines 121-142. *)
Definition visitDeclaration (source : string) (modifiers : list Ts.SyntaxKind)
           (decl : Ts.VariableDeclaration) : list ExportedFunction :=
  match Ts.decl_name decl, Ts.decl_initializer decl with
  | Ts.Identifier varName, Some init =>
      match Ts.init_kind init with
      | Ts.ArrowFunction | Ts.FunctionExpression =>
          [mkExportedFunction
             varName (Ts.init_pos init) (Ts.init_end init)
             (Ts.hasModifier Ts.AsyncKeyword (Ts.init_modifiers init))
             (slice (Ts.init_pos init) (Ts.init_end init) source)
             (Ts.hasModifier Ts.DefaultKeyword modifiers)]
      | Ts.OtherExpression => []
      end
  | _, _ => []
  end.

(** [visit], lines 75-147: the entries pushed for the node, then those
    of its children. *)
Fixpoint visit (source : string) (node : Ts.Node) : list ExportedFunction :=
  match node with
  | Ts.FunctionDeclaration pos end_ modifiers name children =>
      ((if Ts.hasModifier Ts.ExportKeyword modifiers then
          match name with
          | Some text =>
              [mkExportedFunction
                 text pos end_
                 (Ts.hasModifier Ts.AsyncKeyword modifiers)
                 (slice pos end_ source)
                 (Ts.hasModifier Ts.DefaultKeyword modifiers)]
          | None =>
              [mkExportedFunction
                 "_defaultExport" pos end_
                 (Ts.hasModifier Ts.AsyncKeyword modifiers)
                 (slice pos end_ source)
                 true]
          end
        else [])
       ++ flat_map (visit source) children)%list
  | Ts.VariableStatement pos end_ modifiers declarations children =>
      ((if Ts.hasModifier Ts.ExportKeyword modifiers then
          flat_map (visitDeclaration source modifiers) declarations
        else [])
       ++ flat_map (visit source) children)%list
  | Ts.ImportDeclaration _ _ _ _ => []
  | Ts.OtherNode _ _ _ children => flat_map (visit source) children
  end.

(** [visit(sourceFile)]. *)
Definition extract (source : string) (sourceFile : Ts.SourceFile)
  : list ExportedFunction :=
  flat_map (visit source) (Ts.statements sourceFile).

(** The channel of a function, lines 172-174. *)
Definition channelOf (id : string) (fn : ExportedFunction) : string :=
  let hashed := createHashForText (originalBodyCode fn) in
  let baseFileName := Path.basename id in
  baseFileName ++ ":" ++ (if isDefault fn then "default" else name fn)
               ++ ":" ++ hashed.

(** index.ts lines 183-195. *)
Definition mainAsyncHandler (name channel : string) : string :=
  "
    try {
      ipcMain.handle(" ++ dq ++ channel ++ dq ++ ", async (event, ...args) => {
        try {
          return await " ++ name ++ "(...args);
        } catch (err) {
          console.error(" ++ dq ++ "Error in IPC handler for channel: " ++ channel ++ ":" ++ dq ++ ", err);
          throw err;
        }
      });
    } catch (e) {
      console.error(" ++ dq ++ "Failed to register ipcMain handle for channel: " ++ channel ++ dq ++ ", e);
    }".

(** index.ts lines 198-211. *)
Definition mainSyncHandler (name channel : string) : string :=
  "
    try {
      ipcMain.on(" ++ dq ++ channel ++ dq ++ ", (event, ...args) => {
        try {
          event.returnValue = " ++ name ++ "(...args);
        } catch (err) {
          console.error(" ++ dq ++ "Error in IPC on for channel: " ++ channel ++ ":" ++ dq ++ ", err);
          // Return an error object, or handle gracefully
          event.returnValue = { error: err?.message };
        }
      });
    } catch (e) {
      console.error(" ++ dq ++ "Failed to register ipcMain on for channel: " ++ channel ++ dq ++ ", e);
    }".

(** index.ts lines 223-244. *)
Definition asyncBroadcasterStub (name channel : string) : string :=
  "
    export async function " ++ name ++ "(...args) {
      const all = webContents.getAllWebContents();
      return new Promise((resolve, reject) => {
        let resolved = false;
        for (const wc of all) {
          // Listen for just the first successful reply from any webContents
          wc.once(" ++ dq ++ channel ++ "-reply" ++ dq ++ ", (event, resultOrError) => {
            if (!resolved) {
              resolved = true;
              if (resultOrError && resultOrError.__ipcError) {
                reject(new Error(resultOrError.__ipcError));
              } else {
                resolve(resultOrError);
              }
            }
          });
          wc.send(" ++ dq ++ channel ++ dq ++ ", ...args);
        }
        // If all windows are closed, this could hang, so you might want a timeout or check
      });
    }".

(** index.ts lines 250-256. *)
Definition syncBroadcasterStub (name channel : string) : string :=
  "
    export function " ++ name ++ "(...args) {
      const all = webContents.getAllWebContents();
      for (const wc of all) {
        wc.send(" ++ dq ++ channel ++ dq ++ ", ...args);
      }
    }".

(** index.ts lines 266-279. *)
Definition rendererAsyncListener (name channel : string) : string :=
  "
    try {
      ipcRenderer.on(" ++ dq ++ channel ++ dq ++ ", async (event, ...args) => {
        try {
          const result = await " ++ name ++ "(...args);
          event.sender.send(" ++ dq ++ channel ++ "-reply" ++ dq ++ ", result);
        } catch (err) {
          console.error(" ++ dq ++ "Error in renderer IPC function '" ++ channel ++ "':" ++ dq ++ ", err);
          event.sender.send(" ++ dq ++ channel ++ "-reply" ++ dq ++ ", { __ipcError: err?.message });
        }
      });
    } catch (e) {
      console.error(" ++ dq ++ "Failed to register ipcRenderer.on for channel: " ++ channel ++ dq ++ ", e);
    }".

(** index.ts lines 281-294. *)
Definition rendererSyncListener (name channel : string) : string :=
  "
    try {
      ipcRenderer.on(" ++ dq ++ channel ++ dq ++ ", (event, ...args) => {
        try {
          const result = " ++ name ++ "(...args);
          event.sender.send(" ++ dq ++ channel ++ "-reply" ++ dq ++ ", result);
        } catch (err) {
          console.error(" ++ dq ++ "Error in renderer IPC function '" ++ channel ++ "':" ++ dq ++ ", err);
          event.sender.send(" ++ dq ++ channel ++ "-reply" ++ dq ++ ", { __ipcError: err?.message });
        }
      });
    } catch (e) {
      console.error(" ++ dq ++ "Failed to register ipcRenderer.on for channel: " ++ channel ++ dq ++ ", e);
    }".

(** index.ts lines 303-311. *)
Definition asyncInvokerStub (name channel : string) : string :=
  "
    export async function " ++ name ++ "(...args) {
      try {
        return await ipcRenderer.invoke(" ++ dq ++ channel ++ dq ++ ", ...args);
      } catch (err) {
        console.error(" ++ dq ++ "IPC invoke error on channel: " ++ channel ++ ":" ++ dq ++ ", err);
        throw err;
      }
    }".

(** index.ts lines 317-325. *)
Definition syncInvokerStub (name channel : string) : string :=
  "
    export function " ++ name ++ "(...args) {
      try {
        return ipcRenderer.sendSync(" ++ dq ++ channel ++ dq ++ ", ...args);
      } catch (err) {
        console.error(" ++ dq ++ "IPC sendSync error on channel: " ++ channel ++ ":" ++ dq ++ ", err);
        return { error: err?.message };
      }
    }".


(** [set.add(x)] on a [Set] of strings, which iterates in insertion
    order. *)
Definition setAdd (x : string) (set : list string) : list string :=
  if includes x set then set else (set ++ [x])%list.

(** The body of the loop over the exported functions, lines 167-330,
    on the string under edit and the set of electron symbols needed. *)
Definition transformFunction (context : Context) (id : string)
           (st : MagicString.t * list string) (fn : ExportedFunction)
  : option (MagicString.t * list string) :=
  let (magicStr, electronImportsNeeded) := st in
  let channel := channelOf id fn in
  match context with
  | Main =>
      if isMainIpcFile id then
        let needed := setAdd "ipcMain" electronImportsNeeded in
        if isAsync fn then
          Some (MagicString.append (mainAsyncHandler (name fn) channel)
                                   magicStr, needed)
        else
          Some (MagicString.append (mainSyncHandler (name fn) channel)
                                   magicStr, needed)
      else
        let needed := setAdd "webContents" electronImportsNeeded in
        if isAsync fn then
          option_map (fun m => (m, needed))
            (MagicString.overwrite (start fn) (end_ fn)
               (asyncBroadcasterStub (name fn) channel) magicStr)
        else
          option_map (fun m => (m, needed))
            (MagicString.overwrite (start fn) (end_ fn)
               (syncBroadcasterStub (name fn) channel) magicStr)
  | Renderer =>
      if isRendererIpcFile id then
        let needed := setAdd "ipcRenderer" electronImportsNeeded in
        if isAsync fn then
          Some (MagicString.append (rendererAsyncListener (name fn) channel)
                                   magicStr, needed)
        else
          Some (MagicString.append (rendererSyncListener (name fn) channel)
                                   magicStr, needed)
      else
        let needed := setAdd "ipcRenderer" electronImportsNeeded in
        if isAsync fn then
          option_map (fun m => (m, needed))
            (MagicString.overwrite (start fn) (end_ fn)
               (asyncInvokerStub (name fn) channel) magicStr)
        else
          option_map (fun m => (m, needed))
            (MagicString.overwrite (start fn) (end_ fn)
               (syncInvokerStub (name fn) channel) magicStr)
  end.

(** The loop itself. *)
Fixpoint transformFunctions (context : Context) (id : string)
         (st : MagicString.t * list string) (fns : list ExportedFunction)
  : option (MagicString.t * list string) :=
  match fns with
  | [] => Some st
  | fn :: rest =>
      match transformFunction context id st fn with
      | None => None
      | Some st' => transformFunctions context id st' rest
      end
  end.

(** An import declaration from ['electron'] among the top-level
    statements, lines 339-347: its [getStart()] and [getEnd()]. *)
Definition electronImport (stmt : Ts.Node) : option (nat * nat) :=
  match stmt with
  | Ts.ImportDeclaration _ start end_ info =>
      let moduleSpec :=
        string_of_list_ascii
          (filter (fun c => negb (Regex.isQuote c))
                  (list_ascii_of_string (Ts.moduleSpecifierText info))) in
      if String.eqb moduleSpec "electron" then Some (start, end_) else None
  | _ => None
  end.

(** The set [existingElectronImports] of lines 351-361: the local names
    of the named bindings of every electron import.  The code fills it
    and never reads it; the merge below works on the text of the first
    import alone. *)
Definition existingElectronImports (sourceFile : Ts.SourceFile)
  : list string :=
  flat_map (fun stmt =>
              match stmt with
              | Ts.ImportDeclaration _ _ _ info =>
                  match electronImport stmt, Ts.namedImports info with
                  | Some _, Some names => names
                  | _, _ => []
                  end
              | _ => []
              end) (Ts.statements sourceFile).

Definition importNodes (sourceFile : Ts.SourceFile) : list (nat * nat) :=
  flat_map (fun stmt => match electronImport stmt with
                        | Some n => [n]
                        | None => []
                        end) (Ts.statements sourceFile).

(** What the merge does to the text of the first electron import,
    lines 367-405: the statement is rewritten, or a new statement is
    injected after it. *)
Inductive ImportEdit : Type :=
| Rewrite (importText : string)
| Inject (injection : string).

(** Lines 381-385. *)
Definition addMissing (needed existingNames : list string) : list string :=
  fold_left (fun names n => if includes n names then names
                            else (names ++ [n])%list)
            needed existingNames.

Definition mergeImportText (electronImportsNeeded : list string)
           (importText : string) : ImportEdit :=
  match Regex.search Regex.namedImportAt importText with
  | Some curlyMatch =>
      let existingNames :=
        filter truthy (map trim (split "," (Regex.m_group curlyMatch))) in
      let existingNames := addMissing electronImportsNeeded existingNames in
      let newImport :=
        "import { " ++ join ", " existingNames ++ " } from 'electron'" in
      Rewrite (Regex.replaceString (Regex.m_text curlyMatch) newImport
                                   importText)
  | None =>
      let namedList := join ", " electronImportsNeeded in
      if Regex.test Regex.defaultImportAt importText then
        Rewrite (Regex.replaceRegex Regex.defaultImportAt
                   ("import $1, { " ++ namedList ++ " } from 'electron'")
                   importText)
      else
        Inject (nl ++ "import { " ++ namedList ++ " } from 'electron';")
  end.

(** Step 4, lines 333-413. *)
Definition mergeImports (source : string) (sourceFile : Ts.SourceFile)
           (electronImportsNeeded : list string) (magicStr : MagicString.t)
  : option MagicString.t :=
  match importNodes sourceFile with
  | (startPos, endPos) :: _ =>
      match mergeImportText electronImportsNeeded
                            (slice startPos endPos source) with
      | Rewrite importText =>
          MagicString.overwrite startPos endPos importText magicStr
      | Inject injection =>
          MagicString.appendLeft endPos injection magicStr
      end
  | [] =>
      let needed := join ", " electronImportsNeeded in
      if truthy needed then
        Some (MagicString.prepend
                ("import { " ++ needed ++ " } from 'electron';" ++ nl)
                magicStr)
      else Some magicStr
  end.

(** [transform], lines 58-423, for the tree [sourceFile] the parser
    returns on [source].  The source map returned next to the code is
    left out. *)
Definition transform (context : Context) (source id : string)
           (sourceFile : Ts.SourceFile) : TransformResult :=
  let magicStr := MagicString.create source in
  let exportedFns := extract source sourceFile in
  match exportedFns with
  | [] => Null
  | _ :: _ =>
      match transformFunctions context id (magicStr, []) exportedFns with
      | None => Throws
      | Some (magicStr, electronImportsNeeded) =>
          match mergeImports source sourceFile electronImportsNeeded
                             magicStr with
          | None => Throws
          | Some magicStr => Code (MagicString.toString magicStr)
          end
      end
  end.

End Plugin.

(** ** What the generated code does when it runs

    Each definition follows the JavaScript of one template of [Plugin],
    over the values and the host calls that code touches: the outcome of
    calling the original function, of [ipcRenderer.invoke] and
    [ipcRenderer.sendSync], the messages sent, [event.returnValue], and
    what leaves the callback as an exception.  The host calls that send
    or subscribe ([send], [on], [once], [handle]) are taken to return
    normally. *)

Module Runtime.
Import JsString.

(** The values the generated code meets, as far as the statements
    need them: [JsNumber n] is the number the integer [n] denotes,
    [JsError] a fresh [Error] with that message, [JsObject] a plain
    object with these properties of its own, none of them
    callable. *)
#[warnings="-register-all"]
Inductive JsValue : Type :=
| JsUndefined
| JsNull
| JsBoolean (b : bool)
| JsNumber (n : nat)
| JsText (s : string)
| JsError (message : string)
| JsObject (fields : list (string * JsValue)).

(** Truthiness. *)
Definition toBoolean (v : JsValue) : bool :=
  match v with
  | JsUndefined | JsNull => false
  | JsBoolean b => b
  | JsNumber n => negb (Nat.eqb n 0)
  | JsText s => truthy s
  | JsError _ | JsObject _ => true
  end.

Fixpoint lookup (key : string) (fields : list (string * JsValue))
  : option JsValue :=
  match fields with
  | [] => None
  | (k, v) :: rest => if String.eqb k key then Some v else lookup key rest
  end.

(** [v.key] for a value that is neither [undefined] nor [null]. *)
Definition getProperty (v : JsValue) (key : string) : JsValue :=
  match v with
  | JsObject fields =>
      match lookup key fields with Some x => x | None => JsUndefined end
  | JsError message =>
      if String.eqb key "message" then JsText message else JsUndefined
  | _ => JsUndefined
  end.

(** [err?.message]. *)
Definition optionalMessage (err : JsValue) : JsValue :=
  match err with
  | JsUndefined | JsNull => JsUndefined
  | _ => getProperty err "message"
  end.

(** The decimal digits of [n] in front of [acc]. *)
Fixpoint decimalDigits (fuel n : nat) (acc : string) : string :=
  match fuel with
  | O => acc
  | S fuel' =>
      let acc' := String (ascii_of_nat (48 + n mod 10)) acc in
      if Nat.eqb (n / 10) 0 then acc' else decimalDigits fuel' (n / 10) acc'
  end.

(** How a call ends. *)
Inductive Completion : Type :=
| Returns (value : JsValue)
| ThrowsValue (err : JsValue).

(** The state of a promise. *)
Inductive Settlement : Type :=
| Pending
| Fulfilled (value : JsValue)
| Rejected (reason : JsValue).





(** The handler of [mainAsyncHandler], lines 185-192: the promise it
    returns to [ipcMain.handle], and what it logs. *)
Definition mainAsyncHandlerRun (channel : string) (call : Settlement)
  : Settlement * list (string * JsValue) :=
  match call with
  | Rejected err =>
      (Rejected err,
       [("Error in IPC handler for channel: " ++ channel ++ ":", err)])
  | _ => (call, [])
  end.

(** [asyncInvokerStub], lines 304-311, when [ipcRenderer.invoke] settles
    as [invoked]: the promise the stub returns, and what it logs. *)
Definition asyncInvokerCall (channel : string) (invoked : Settlement)
  : Settlement * list (string * JsValue) :=
  match invoked with
  | Rejected err =>
      (Rejected err,
       [("IPC invoke error on channel: " ++ channel ++ ":", err)])
  | _ => (invoked, [])
  end.

(** [syncInvokerStub], lines 318-325, when [ipcRenderer.sendSync] ends
    with [sent]. *)
Definition syncInvokerCall (channel : string) (sent : Completion)
  : Completion * list (string * JsValue) :=
  match sent with
  | Returns value => (Returns value, [])
  | ThrowsValue err =>
      (Returns (JsObject [("error", optionalMessage err)]),
       [("IPC sendSync error on channel: " ++ channel ++ ":", err)])
  end.

(** A message on a channel of one webContents, named by a number. *)
Record Message : Type := mkMessage {
  msg_target : nat;
  msg_channel : string;
  msg_args : list JsValue }.



(** [asyncBroadcasterStub], lines 224-244: the state the call leaves,
    with the [once] listeners still registered, the flag [resolved] and
    the promise returned. *)
Record Broadcast : Type := mkBroadcast {
  b_sent : list Message;
  b_listeners : list (nat * string);
  b_resolved : bool;
  b_promise : Settlement }.

Definition asyncBroadcasterCall (channel : string) (all : list nat)
           (args : list JsValue) : Broadcast :=
  mkBroadcast (map (fun wc => mkMessage wc channel args) all)
              (map (fun wc => (wc, channel ++ "-reply")) all)
              false Pending.

Definition listener_eqb (a b : nat * string) : bool :=
  Nat.eqb (fst a) (fst b) && String.eqb (snd a) (snd b).

(** [removeListener]: the first listener registered under [key]
    goes. *)
Fixpoint removeFirst (key : nat * string) (listeners : list (nat * string))
  : list (nat * string) :=
  match listeners with
  | [] => []
  | l :: rest =>
      if listener_eqb key l then rest else l :: removeFirst key rest
  end.

Section Host.
(** [Number::toString] of the engine is a parameter: the generated
    code hands numbers on as they are, and the text of one matters
    only where [new Error] is given a number. *)
Variable numberToString : nat -> string.

(** [ToString(v)], which [new Error(v)] applies to a [v] other than
    [undefined].  [None] stands for the [TypeError] thrown for an
    object that has a [toString] property of its own: no value here
    is callable, so neither that property nor [valueOf] yields a
    primitive.  An object without one inherits
    [Object.prototype.toString]. *)
Definition toText (v : JsValue) : option string :=
  match v with
  | JsUndefined => Some "undefined"
  | JsNull => Some "null"
  | JsBoolean true => Some "true"
  | JsBoolean false => Some "false"
  | JsNumber n => Some (numberToString n)
  | JsText s => Some s
  | JsError message =>
      Some (if truthy message then "Error: " ++ message else "Error")
  | JsObject fields =>
      match lookup "toString" fields with
      | Some _ => None
      | None => Some "[object Object]"
      end
  end.

(** The callback of lines 230-239 run on [resultOrError] with the
    flag down: what it settles the promise to.  [None]: [new Error]
    threw, so that neither [reject] nor [resolve] was called and the
    exception leaves the callback, after the flag went up. *)
Definition settle (resultOrError : JsValue) : option Settlement :=
  if toBoolean resultOrError
     && toBoolean (getProperty resultOrError "__ipcError")
  then option_map (fun message => Rejected (JsError message))
                  (toText (getProperty resultOrError "__ipcError"))
  else Some (Fulfilled resultOrError).

(** One webContents emits [event].  The [once] listeners registered
    for that webContents and channel run on the first argument in
    the order of registration, each removed before it runs.  With
    the flag down, the first raises it and settles the promise as
    [settle] says; every other run finds the flag up and does
    nothing.  When the first throws, the emit ends there and the
    listeners after it stay registered. *)
Definition deliver (b : Broadcast) (event : Message) : Broadcast :=
  let key := (msg_target event, msg_channel event) in
  if existsb (listener_eqb key) (b_listeners b) then
    let resultOrError := nth 0 (msg_args event) JsUndefined in
    let others :=
      filter (fun l => negb (listener_eqb key l)) (b_listeners b) in
    if b_resolved b then
      mkBroadcast (b_sent b) others true (b_promise b)
    else
      match settle resultOrError with
      | Some settled => mkBroadcast (b_sent b) others true settled
      | None =>
          mkBroadcast (b_sent b) (removeFirst key (b_listeners b))
                      true (b_promise b)
      end
  else b.

Definition deliverAll (b : Broadcast) (events : list Message)
  : Broadcast :=
  fold_left deliver events b.
End Host.

End Runtime.

(** ** Vocabulary of the statements below *)

Module Spec.
Import JsString Plugin.

(** The body text of an entry is the slice of the source at its span. *)
Definition recorded (source : string) (fn : ExportedFunction) : Prop :=
  originalBodyCode fn = slice (start fn) (end_ fn) source.

(** [p] occurs in [s]. *)
Definition occursIn (p s : string) : Prop :=
  exists before after, s = before ++ p ++ after.

(** A call of [callee] whose first argument is the string literal
    [channel], as the templates write it. *)
Definition callOn (callee channel : string) : string :=
  callee ++ "(" ++ dq ++ channel ++ dq.

(** How an output relates to the original text: a sequence of pieces,
    each a run of original characters kept as they are, a run of
    original characters replaced by new text, or generated text put
    between two original characters. *)
Inductive Piece : Type :=
| Kept (text : string)
| Changed (old new : string)
| Inserted (text : string).

Fixpoint originalOf (pieces : list Piece) : string :=
  match pieces with
  | [] => EmptyString
  | Kept text :: rest => text ++ originalOf rest
  | Changed old _ :: rest => old ++ originalOf rest
  | Inserted _ :: rest => originalOf rest
  end.

Fixpoint outputOf (pieces : list Piece) : string :=
  match pieces with
  | [] => EmptyString
  | Kept text :: rest => text ++ outputOf rest
  | Changed _ new :: rest => new ++ outputOf rest
  | Inserted text :: rest => text ++ outputOf rest
  end.

(** The range [from, to) lies in one of the spans. *)
Definition inSpans (spans : list (nat * nat)) (from to : nat) : Prop :=
  exists sp, In sp spans /\ fst sp <= from /\ to <= snd sp.

(** The pieces, laid out from offset [p] of the original text, change
    characters only inside [spans] and insert text only at [points]. *)
Fixpoint framed (spans : list (nat * nat)) (points : list nat) (p : nat)
         (pieces : list Piece) : Prop :=
  match pieces with
  | [] => True
  | Kept text :: rest =>
      framed spans points (p + String.length text) rest
  | Changed old _ :: rest =>
      inSpans spans p (p + String.length old)
      /\ framed spans points (p + String.length old) rest
  | Inserted _ :: rest =>
      In p points /\ framed spans points p rest
  end.

(** The spans the transform may rewrite: those of the extracted
    functions and that of the first import from electron. *)
Definition editableSpans (source : string) (sourceFile : Ts.SourceFile)
  : list (nat * nat) :=
  (map (fun fn => (start fn, end_ fn)) (extract source sourceFile)
   ++ firstn 1 (importNodes sourceFile))%list.

(** The end of the first import from electron. *)
Definition injectionPoints (sourceFile : Ts.SourceFile) : list nat :=
  map snd (firstn 1 (importNodes sourceFile)).

(** The chunks tile the text from offset [p] on. *)
Fixpoint tiles (source : string) (p : nat) (cs : list MagicString.Chunk)
  : Prop :=
  match cs with
  | [] => String.length source <= p
  | c :: rest =>
      MagicString.c_start c = p
      /\ p <= MagicString.c_end c
      /\ MagicString.c_end c <= String.length source
      /\ MagicString.c_original c = slice p (MagicString.c_end c) source
      /\ tiles source (MagicString.c_end c) rest
  end.

(** A chunk that was never edited still shows its original text, with
    text attached after it only at an injection point; an edited chunk
    lies in a span. *)
Definition chunkFramed (spans : list (nat * nat)) (points : list nat)
           (c : MagicString.Chunk) : Prop :=
  if MagicString.c_edited c then
    inSpans spans (MagicString.c_start c) (MagicString.c_end c)
  else
    MagicString.c_content c = MagicString.c_original c
    /\ MagicString.c_intro c = EmptyString
    /\ (MagicString.c_outro c = EmptyString
        \/ In (MagicString.c_end c) points).

(** The piece, or the two pieces, of a chunk. *)
Definition piecesOf (c : MagicString.Chunk) : list Piece :=
  if MagicString.c_edited c then
    [Changed (MagicString.c_original c) (MagicString.chunkToString c)]
  else
    match MagicString.c_outro c with
    | EmptyString => [Kept (MagicString.c_original c)]
    | outro => [Kept (MagicString.c_original c); Inserted outro]
    end.

(** The cells that keep the function and register it. *)
Definition registersLocally (context : Context) (id : string) : bool :=
  match context with
  | Main => isMainIpcFile id
  | Renderer => isRendererIpcFile id
  end.

(** The electron symbol the code generated in a cell refers to. *)
Definition symbolOf (context : Context) (id : string) : string :=
  match context with
  | Main => if isMainIpcFile id then "ipcMain" else "webContents"
  | Renderer => "ipcRenderer"
  end.

(** The registration appended for a function in a registering cell. *)
Definition registrationOf (context : Context) (id : string)
           (fn : ExportedFunction) : string :=
  match context, isAsync fn with
  | Main, true => mainAsyncHandler (name fn) (channelOf id fn)
  | Main, false => mainSyncHandler (name fn) (channelOf id fn)
  | Renderer, true => rendererAsyncListener (name fn) (channelOf id fn)
  | Renderer, false => rendererSyncListener (name fn) (channelOf id fn)
  end.

(** The stub that replaces a function in the other cells. *)
Definition stubOf (context : Context) (id : string)
           (fn : ExportedFunction) : string :=
  match context, isAsync fn with
  | Main, true => asyncBroadcasterStub (name fn) (channelOf id fn)
  | Main, false => syncBroadcasterStub (name fn) (channelOf id fn)
  | Renderer, true => asyncInvokerStub (name fn) (channelOf id fn)
  | Renderer, false => syncInvokerStub (name fn) (channelOf id fn)
  end.

Definition registrationsOf (context : Context) (id : string)
           (fns : list ExportedFunction) : string :=
  fold_right (fun fn acc => registrationOf context id fn ++ acc)
             EmptyString fns.

(** The text that stands for the first electron import after the
    merge. *)
Definition mergedImport (needed : list string) (importText : string)
  : string :=
  match mergeImportText needed importText with
  | Rewrite text => text
  | Inject injection => importText ++ injection
  end.

(** The sentinel an asynchronous failure travels in. *)
Definition ipcErrorSentinel (message : string) : Runtime.JsValue :=
  Runtime.JsObject [("__ipcError", Runtime.JsText message)].


(** The event reaches a listener the broadcast registered. *)
Definition hits (b : Runtime.Broadcast) (event : Runtime.Message) : bool :=
  existsb (Runtime.listener_eqb
             (Runtime.msg_target event, Runtime.msg_channel event))
          (Runtime.b_listeners b).


(** A name as the merge lists it: not empty, without blanks around it,
    and free of the comma, the closing brace and the dollar sign. *)
Definition plainChar (c : ascii) : bool :=
  negb (Ascii.eqb c ","%char) && negb (Ascii.eqb c "}"%char)
  && negb (Ascii.eqb c "$"%char).

Definition notComma (c : ascii) : bool := negb (Ascii.eqb c ","%char).
Definition notBrace (c : ascii) : bool := negb (Ascii.eqb c "}"%char).
Definition notDollar (c : ascii) : bool := negb (Ascii.eqb c "$"%char).

Definition cleanName (n : string) : Prop :=
  n <> EmptyString /\ trimStart n = n /\ trimEnd n = n
  /\ allChars plainChar n = true.

(** The names of a named-import group, lines 375-378. *)
Definition namesOf (group : string) : list string :=
  filter truthy (map trim (split "," group)).

(** [suffix] is what is left of [s] after some prefix. *)
Definition suffixOf (suffix s : string) : Prop :=
  exists prefix, s = prefix ++ suffix.

(** An edit: a span of the original text and the text put in its
    place. *)
Definition Edit : Type := (nat * nat * string)%type.

(** The stub of a function, as an edit of its span. *)
Definition stubEdit (context : Context) (id : string)
           (fn : ExportedFunction) : Edit :=
  (start fn, end_ fn, stubOf context id fn).

(** The original text from offset [p] on, with the edits applied; the
    edits come in the order of their spans. *)
Fixpoint splice (source : string) (p : nat) (edits : list Edit) : string :=
  match edits with
  | [] => drop p source
  | (s, e, text) :: rest =>
      slice p s source ++ text ++ splice source e rest
  end.

(** The spans are not empty, lie between [p] and [len], and follow one
    another without overlap. *)
Fixpoint laidOut (len p : nat) (edits : list Edit) : Prop :=
  match edits with
  | [] => p <= len
  | (s, e, _) :: rest => p <= s /\ s < e /\ e <= len /\ laidOut len e rest
  end.

(** Puts an edit at its place among edits in span order. *)
Fixpoint insertEdit (x : Edit) (edits : list Edit) : list Edit :=
  match edits with
  | [] => [x]
  | y :: rest =>
      if Nat.leb (snd (fst x)) (fst (fst y)) then x :: y :: rest
      else y :: insertEdit x rest
  end.

(** The chunk of a run of text no edit touched, and of a rewritten
    span. *)
Definition pristine (source : string) (a b : nat) : MagicString.Chunk :=
  MagicString.mkChunk a b (slice a b source) EmptyString
                      (slice a b source) EmptyString false.

Definition rewritten (source : string) (a b : nat) (text : string)
  : MagicString.Chunk :=
  MagicString.mkChunk a b (slice a b source) EmptyString
                      text EmptyString true.

(** The chunks that stand for the text from [p] on after the edits. *)
Fixpoint chunksOf (source : string) (p : nat) (edits : list Edit)
  : list MagicString.Chunk :=
  match edits with
  | [] =>
      if Nat.ltb p (String.length source)
      then [pristine source p (String.length source)] else []
  | (s, e, text) :: rest =>
      ((if Nat.ltb p s then [pristine source p s] else [])
       ++ rewritten source s e text :: chunksOf source e rest)%list
  end.

(** Chunks that are not empty and start at [q] or after. *)
Definition beyond (q : nat) (cs : list MagicString.Chunk) : Prop :=
  Forall (fun c => q <= MagicString.c_start c
                   /\ MagicString.c_start c < MagicString.c_end c) cs.

(** The two splits and the rewriting of [overwrite], on the chunks. *)
Definition overwriteChunks (s e : nat) (text : string)
           (cs : list MagicString.Chunk) : option (list MagicString.Chunk) :=
  match MagicString.splitAt s cs with
  | None => None
  | Some cs1 =>
      match MagicString.splitAt e cs1 with
      | None => None
      | Some cs2 => Some (MagicString.editRange s e text cs2)
      end
  end.

(** The name segment of a channel. *)
Definition nameSegment (fn : ExportedFunction) : string :=
  if isDefault fn then "default" else name fn.

(** A node and the nodes below it, in the order [visit] reaches
    them. *)
Fixpoint subnodes (node : Ts.Node) : list Ts.Node :=
  node ::
  match node with
  | Ts.FunctionDeclaration _ _ _ _ children
  | Ts.VariableStatement _ _ _ _ children
  | Ts.OtherNode _ _ _ children => flat_map subnodes children
  | Ts.ImportDeclaration _ _ _ _ => []
  end.

Definition nodesOf (sourceFile : Ts.SourceFile) : list Ts.Node :=
  flat_map subnodes (Ts.statements sourceFile).

(** A declaration that binds an identifier to an arrow function or a
    function expression, the test of lines 122-125. *)
Definition functionLike (decl : Ts.VariableDeclaration) : bool :=
  match Ts.decl_name decl, Ts.decl_initializer decl with
  | Ts.Identifier _, Some init =>
      match Ts.init_kind init with
      | Ts.ArrowFunction | Ts.FunctionExpression => true
      | Ts.OtherExpression => false
      end
  | _, _ => false
  end.

(** The node is one [visit] pushes an entry for: an exported function
    declaration, or an exported variable statement with a declaration
    that binds a function. *)
Definition qualifies (node : Ts.Node) : bool :=
  match node with
  | Ts.FunctionDeclaration _ _ modifiers _ _ =>
      Ts.hasModifier Ts.ExportKeyword modifiers
  | Ts.VariableStatement _ _ modifiers declarations _ =>
      Ts.hasModifier Ts.ExportKeyword modifiers
      && existsb functionLike declarations
  | _ => false
  end.

(** The three places where [visit] pushes an entry, lines 94, 108 and
    132: the entry a node gives rise to. *)
Inductive pushed (source : string) : Ts.Node -> ExportedFunction -> Prop :=
| pushed_named pos end_ modifiers text children :
    Ts.hasModifier Ts.ExportKeyword modifiers = true ->
    pushed source
           (Ts.FunctionDeclaration pos end_ modifiers (Some text) children)
           (mkExportedFunction
              text pos end_ (Ts.hasModifier Ts.AsyncKeyword modifiers)
              (slice pos end_ source)
              (Ts.hasModifier Ts.DefaultKeyword modifiers))
| pushed_anonymous pos end_ modifiers children :
    Ts.hasModifier Ts.ExportKeyword modifiers = true ->
    pushed source
           (Ts.FunctionDeclaration pos end_ modifiers None children)
           (mkExportedFunction
              "_defaultExport" pos end_
              (Ts.hasModifier Ts.AsyncKeyword modifiers)
              (slice pos end_ source) true)
| pushed_variable pos end_ modifiers declarations children
                  decl varName init :
    Ts.hasModifier Ts.ExportKeyword modifiers = true ->
    In decl declarations ->
    Ts.decl_name decl = Ts.Identifier varName ->
    Ts.decl_initializer decl = Some init ->
    Ts.init_kind init <> Ts.OtherExpression ->
    pushed source
           (Ts.VariableStatement pos end_ modifiers declarations children)
           (mkExportedFunction
              varName (Ts.init_pos init) (Ts.init_end init)
              (Ts.hasModifier Ts.AsyncKeyword (Ts.init_modifiers init))
              (slice (Ts.init_pos init) (Ts.init_end init) source)
              (Ts.hasModifier Ts.DefaultKeyword modifiers)).

(** What the parser guarantees of the top-level statements, as far as
    the transform depends on it.  A statement is flat when no node
    below it is one [visit] pushes an entry for: exports stand at the
    top level. *)
Definition childrenOf (node : Ts.Node) : list Ts.Node :=
  match node with
  | Ts.FunctionDeclaration _ _ _ _ children
  | Ts.VariableStatement _ _ _ _ children
  | Ts.OtherNode _ _ _ children => children
  | Ts.ImportDeclaration _ _ _ _ => []
  end.

Definition flat (stmt : Ts.Node) : bool :=
  negb (existsb qualifies (flat_map subnodes (childrenOf stmt))).

Definition endOf (stmt : Ts.Node) : nat :=
  match stmt with
  | Ts.FunctionDeclaration _ end_ _ _ _
  | Ts.VariableStatement _ end_ _ _ _
  | Ts.ImportDeclaration _ _ end_ _
  | Ts.OtherNode _ end_ _ _ => end_
  end.

(** The initializers of the declarations of a statement are not empty
    and follow one another, from [p] up to [limit]. *)
Fixpoint initializersFrom (limit p : nat)
         (declarations : list Ts.VariableDeclaration) : Prop :=
  match declarations with
  | [] => p <= limit
  | decl :: rest =>
      match Ts.decl_initializer decl with
      | Some init =>
          p <= Ts.init_pos init /\ Ts.init_pos init < Ts.init_end init
          /\ initializersFrom limit (Ts.init_end init) rest
      | None => initializersFrom limit p rest
      end
  end.

(** A statement lies at [p] or after and within the text; a function
    declaration is not empty, an import starts within its span, and
    the initializers of a variable statement lie within it. *)
Definition placed (len p : nat) (stmt : Ts.Node) : Prop :=
  match stmt with
  | Ts.FunctionDeclaration pos end_ _ _ _ =>
      p <= pos /\ pos < end_ /\ end_ <= len
  | Ts.VariableStatement pos end_ _ declarations _ =>
      p <= pos /\ end_ <= len /\ initializersFrom end_ pos declarations
  | Ts.ImportDeclaration pos start end_ _ =>
      p <= pos /\ pos <= start /\ start < end_ /\ end_ <= len
  | Ts.OtherNode pos end_ _ _ => p <= pos /\ pos <= end_ /\ end_ <= len
  end.

(** The statements follow one another in the text. *)
Fixpoint inSequence (len p : nat) (stmts : list Ts.Node) : Prop :=
  match stmts with
  | [] => p <= len
  | stmt :: rest => placed len p stmt /\ inSequence len (endOf stmt) rest
  end.

Definition notColon (c : ascii) : bool := negb (Ascii.eqb c ":"%char).
Definition notSlash (c : ascii) : bool := negb (Ascii.eqb c "/"%char).

End Spec.

(** ** Sample files *)

Module Samples.
Import Plugin.

(** [export async function bar(x){return x+1}], the scenario file
    [foo.main.ipc.ts]. *)
Definition barSource : string := "export async function bar(x){return x+1}".
Definition barFile : Ts.SourceFile :=
  Ts.mkSourceFile
    [Ts.FunctionDeclaration 0 40 [Ts.ExportKeyword; Ts.AsyncKeyword]
                            (Some "bar") []].
Definition barFn : ExportedFunction :=
  mkExportedFunction "bar" 0 40 true barSource false.

(** The same function after an unrelated constant, in another
    directory. *)
Definition barSource2 : string :=
  "const k = 1;export async function bar(x){return x+1}".
Definition barFile2 : Ts.SourceFile :=
  Ts.mkSourceFile
    [Ts.OtherNode 0 12 [] [];
     Ts.FunctionDeclaration 12 52 [Ts.ExportKeyword; Ts.AsyncKeyword]
                            (Some "bar") []].
Definition barFn2 : ExportedFunction :=
  mkExportedFunction "bar" 12 52 true barSource false.

(** A file that exports no function. *)
Definition constSource : string := "export const limit = 3".
Definition constFile : Ts.SourceFile :=
  Ts.mkSourceFile
    [Ts.VariableStatement 0 22 [Ts.ExportKeyword]
       [Ts.mkVariableDeclaration
          (Ts.Identifier "limit")
          (Some (Ts.mkInitializer Ts.OtherExpression 20 22 []))]
       []].

(** A renderer-role file with an import from electron and two functions,
    the second bound to a constant. *)
Definition panelSource : string :=
  "import { shell } from 'electron'
export function ping(){ return 1 }
export const pong = async (n) => n".
Definition panelFile : Ts.SourceFile :=
  Ts.mkSourceFile
    [Ts.ImportDeclaration 0 0 32 (Ts.mkImportInfo "'electron'"
                                                    (Some ["shell"]));
     Ts.FunctionDeclaration 32 67 [Ts.ExportKeyword] (Some "ping") [];
     Ts.VariableStatement 67 102 [Ts.ExportKeyword]
       [Ts.mkVariableDeclaration
          (Ts.Identifier "pong")
          (Some (Ts.mkInitializer Ts.ArrowFunction 87 102
                                  [Ts.AsyncKeyword]))]
       []].

(** A default export and a function bound to a constant, in main-role
    files. *)
Definition defaultSource : string :=
  "export default async function bar(x){return x+1}".
Definition defaultFile : Ts.SourceFile :=
  Ts.mkSourceFile
    [Ts.FunctionDeclaration
       0 48 [Ts.ExportKeyword; Ts.DefaultKeyword; Ts.AsyncKeyword]
       (Some "bar") []].

Definition anonymousSource : string :=
  "export default function(x){return x+1}".
Definition anonymousFile : Ts.SourceFile :=
  Ts.mkSourceFile
    [Ts.FunctionDeclaration
       0 38 [Ts.ExportKeyword; Ts.DefaultKeyword] None []].

Definition pongSource : string := "export const pong = async (n) => n".
Definition pongFile : Ts.SourceFile :=
  Ts.mkSourceFile
    [Ts.VariableStatement 0 34 [Ts.ExportKeyword]
       [Ts.mkVariableDeclaration
          (Ts.Identifier "pong")
          (Some (Ts.mkInitializer Ts.ArrowFunction 19 34
                                  [Ts.AsyncKeyword]))]
       []].

(** Two imports from electron, the second of which already brings the
    symbol the main context needs. *)
Definition twoImportsSource : string :=
  "import {app} from 'electron'
import {ipcMain} from 'electron'
export function f(){}".
Definition twoImportsFile : Ts.SourceFile :=
  Ts.mkSourceFile
    [Ts.ImportDeclaration 0 0 28 (Ts.mkImportInfo "'electron'"
                                                    (Some ["app"]));
     Ts.ImportDeclaration 28 29 61 (Ts.mkImportInfo "'electron'"
                                                      (Some ["ipcMain"]));
     Ts.FunctionDeclaration 61 83 [Ts.ExportKeyword] (Some "f") []].

(** A main-role file whose electron import has neither a named clause
    nor the default form. *)
Definition traySource : string :=
  "import * as electron from 'electron'
export function quit(){ return 1 }".
Definition trayFile : Ts.SourceFile :=
  Ts.mkSourceFile
    [Ts.ImportDeclaration 0 0 36 (Ts.mkImportInfo "'electron'" None);
     Ts.FunctionDeclaration 36 71 [Ts.ExportKeyword] (Some "quit") []].

(** A host function for the examples: numbers written in decimal
    digits. *)
Definition decimal (n : nat) : string :=
  Runtime.decimalDigits (S n) n EmptyString.

(** A main-role file that imports the default export of electron and
    [ipcMain] in one statement. *)
Definition bothFormsSource : string :=
  "import electron, { ipcMain } from 'electron'
export function f(){}".
Definition bothFormsFile : Ts.SourceFile :=
  Ts.mkSourceFile
    [Ts.ImportDeclaration 0 0 44 (Ts.mkImportInfo "'electron'"
                                                    (Some ["ipcMain"]));
     Ts.FunctionDeclaration 44 66 [Ts.ExportKeyword] (Some "f") []].

End Samples.

(* ================================================================== *)
(** * Part II: properties *)
(* ================================================================== *)

(** ** Strings *)

Section StringFacts.
Import JsString.

Lemma append_nil_r (s : string) : s ++ "" = s.
Proof. induction s as [|c s IH]; simpl; [reflexivity | now rewrite IH]. Qed.

Lemma append_assoc (a b c : string) : (a ++ b) ++ c = a ++ (b ++ c).
Proof. induction a as [|x a IH]; simpl; [reflexivity | now rewrite IH]. Qed.

Lemma length_append (a b : string) :
  String.length (a ++ b) = String.length a + String.length b.
Proof. induction a as [|x a IH]; simpl; [reflexivity | now rewrite IH]. Qed.

Lemma take_0 (s : string) : take 0 s = "".
Proof. now destruct s. Qed.

Lemma drop_0 (s : string) : drop 0 s = s.
Proof. now destruct s. Qed.

Lemma length_take (n : nat) (s : string) :
  String.length (take n s) = Nat.min n (String.length s).
Proof.
  revert s; induction n as [|n IH]; intros [|c s]; simpl; auto.
Qed.

Lemma length_drop (n : nat) (s : string) :
  String.length (drop n s) = String.length s - n.
Proof.
  revert s; induction n as [|n IH]; intros [|c s]; simpl; auto.
Qed.

Lemma take_drop (n : nat) (s : string) : take n s ++ drop n s = s.
Proof.
  revert s; induction n as [|n IH]; intros [|c s]; simpl; auto.
  now rewrite IH.
Qed.

Lemma take_all (n : nat) (s : string) :
  String.length s <= n -> take n s = s.
Proof.
  revert s; induction n as [|n IH]; intros [|c s]; simpl; auto; try lia.
  intros H; rewrite IH; [reflexivity | lia].
Qed.

Lemma drop_all (n : nat) (s : string) :
  String.length s <= n -> drop n s = "".
Proof.
  revert s; induction n as [|n IH]; intros [|c s]; simpl; auto; try lia.
  intros H; apply IH; lia.
Qed.

Lemma take_append (a b : string) : take (String.length a) (a ++ b) = a.
Proof. induction a as [|x a IH]; simpl; [reflexivity | now rewrite IH]. Qed.

Lemma drop_append (a b : string) : drop (String.length a) (a ++ b) = b.
Proof. induction a as [|x a IH]; simpl; [reflexivity | exact IH]. Qed.

Lemma drop_drop (n m : nat) (s : string) :
  drop n (drop m s) = drop (m + n) s.
Proof.
  revert s; induction m as [|m IH]; intros s; simpl.
  - now rewrite ?drop_0.
  - destruct s as [|c s]; simpl; [now destruct n | apply IH].
Qed.

Lemma take_take (n m : nat) (s : string) :
  n <= m -> take n (take m s) = take n s.
Proof.
  revert m s; induction n as [|n IH]; intros m s H.
  - now rewrite ?take_0.
  - destruct m as [|m]; [lia|]. destruct s as [|c s]; simpl; auto.
    rewrite IH; [reflexivity | lia].
Qed.

Lemma drop_take (n m : nat) (s : string) :
  drop n (take m s) = take (m - n) (drop n s).
Proof.
  revert m s; induction n as [|n IH]; intros m s.
  - now rewrite ?drop_0, ?Nat.sub_0_r.
  - destruct m as [|m]; destruct s as [|c s]; simpl; auto.
    now destruct (m - n).
Qed.

(** Two adjacent slices make one. *)
Lemma slice_slice (a b c : nat) (s : string) :
  a <= b -> b <= c -> slice a b s ++ slice b c s = slice a c s.
Proof.
  intros Hab Hbc. unfold slice.
  replace (drop b s) with (drop (b - a) (drop a s))
    by (rewrite drop_drop; f_equal; lia).
  generalize (drop a s) as t; intro t.
  replace (c - a) with ((b - a) + (c - b)) by lia.
  generalize (b - a) as n, (c - b) as m. clear.
  intros n; revert t; induction n as [|n IH]; intros t m; simpl.
  - now rewrite ?drop_0.
  - destruct t as [|x t]; simpl; [now destruct m | now rewrite IH].
Qed.

Lemma slice_full (s : string) : slice 0 (String.length s) s = s.
Proof. unfold slice. rewrite drop_0, Nat.sub_0_r. now apply take_all. Qed.

Lemma length_slice (a b : nat) (s : string) :
  b <= String.length s -> String.length (slice a b s) = b - a.
Proof. intros H. unfold slice. rewrite length_take, length_drop. lia. Qed.

Lemma startsWith_append (p s : string) : startsWith p (p ++ s) = true.
Proof.
  induction p as [|c p IH]; simpl; [reflexivity|].
  now rewrite Ascii.eqb_refl, IH.
Qed.

Lemma indexOf_prefix (p s : string) : indexOf p (p ++ s) = Some 0.
Proof.
  destruct p as [|c p]; destruct s as [|d s]; simpl; try reflexivity;
    now rewrite ?Ascii.eqb_refl, ?startsWith_append.
Qed.

Lemma allChars_append (p : ascii -> bool) (a b : string) :
  allChars p (a ++ b) = allChars p a && allChars p b.
Proof.
  induction a as [|x a IH]; simpl; [reflexivity|].
  now rewrite IH, andb_assoc.
Qed.

Lemma allChars_take (p : ascii -> bool) (n : nat) (s : string) :
  allChars p s = true -> allChars p (take n s) = true.
Proof.
  revert s; induction n as [|n IH]; intros [|c s]; simpl; auto.
  intros H. apply andb_true_iff in H as [-> H]. now apply IH.
Qed.

End StringFacts.

Create Rewrite HintDb jsstring.
#[local] Hint Rewrite append_nil_r append_assoc length_append length_take
  length_drop take_0 drop_0 : jsstring.

(** ** Extraction *)

Section Extraction.
Import JsString Plugin.
Variable source : string.

Let recorded := Spec.recorded source.

Lemma visitDeclaration_recorded modifiers decl fn :
  In fn (visitDeclaration source modifiers decl) -> recorded fn.
Proof.
  unfold visitDeclaration.
  destruct (Ts.decl_name decl); [|simpl; intros []].
  destruct (Ts.decl_initializer decl) as [init|]; [|simpl; intros []].
  destruct (Ts.init_kind init); simpl;
    try (intros [<-|[]]; reflexivity); intros [].
Qed.

Lemma in_flat_map_Forall {A B} (f : A -> list B) (Q : B -> Prop) l y :
  Forall (fun x => forall y, In y (f x) -> Q y) l ->
  In y (flat_map f l) -> Q y.
Proof.
  intros HF Hin. apply in_flat_map in Hin as (x & Hx & Hy).
  rewrite Forall_forall in HF. eauto.
Qed.

Lemma visit_recorded node :
  forall fn, In fn (visit source node) -> recorded fn.
Proof.
  induction node
    as [pos e mods nm children IH | pos e mods decls children IH
        | pos st e info | pos e mods children IH]
    using Ts.Node_children_ind; intros fn; simpl.
  - rewrite in_app_iff. intros [Hin|Hin].
    + destruct (Ts.hasModifier Ts.ExportKeyword mods); [|destruct Hin].
      destruct nm as [text|]; destruct Hin as [<-|[]]; reflexivity.
    + eapply in_flat_map_Forall; eauto.
  - rewrite in_app_iff. intros [Hin|Hin].
    + destruct (Ts.hasModifier Ts.ExportKeyword mods); [|destruct Hin].
      apply in_flat_map in Hin as (d & _ & Hd).
      eapply visitDeclaration_recorded; eauto.
    + eapply in_flat_map_Forall; eauto.
  - intros [].
  - intros Hin. eapply in_flat_map_Forall; eauto.
Qed.

Lemma extract_recorded sourceFile fn :
  In fn (extract source sourceFile) -> recorded fn.
Proof.
  unfold extract. intros Hin.
  apply in_flat_map in Hin as (node & _ & Hfn).
  eapply visit_recorded; eauto.
Qed.
End Extraction.

(** ** The hash *)

Section HashFacts.
Import JsString Sha256.
Local Open Scope N_scope.

Lemma hexDigit_isHexDigit (d : N) :
  d < 16 -> isHexDigit (hexDigit d) = true.
Proof.
  intros H.
  assert (Hc : d = 0 \/ d = 1 \/ d = 2 \/ d = 3 \/ d = 4 \/ d = 5 \/ d = 6
               \/ d = 7 \/ d = 8 \/ d = 9 \/ d = 10 \/ d = 11 \/ d = 12
               \/ d = 13 \/ d = 14 \/ d = 15) by lia.
  repeat (destruct Hc as [->|Hc]; [reflexivity|]). now subst.
Qed.

Lemma land_15_lt (x : N) : N.land x 15 < 16.
Proof.
  change 15 with (N.ones 4). rewrite N.land_ones.
  apply N.mod_lt. discriminate.
Qed.

Lemma length_hexN (n : nat) (x : N) : String.length (hexN n x) = n.
Proof. induction n as [|n IH]; simpl; [reflexivity | now rewrite IH]. Qed.

Lemma hexN_isHex (n : nat) (x : N) : allChars isHexDigit (hexN n x) = true.
Proof.
  induction n as [|n IH]; simpl; [reflexivity|].
  rewrite hexDigit_isHexDigit by apply land_15_lt. exact IH.
Qed.

Lemma length_digestHex (text : string) :
  String.length (digestHex text) = 64%nat.
Proof. unfold digestHex. now rewrite !length_append, !length_hexN. Qed.

Lemma digestHex_isHex (text : string) :
  allChars isHexDigit (digestHex text) = true.
Proof. unfold digestHex. now rewrite !allChars_append, !hexN_isHex. Qed.

Lemma length_createHashForText (text : string) :
  String.length (Plugin.createHashForText text) = 12%nat.
Proof.
  unfold Plugin.createHashForText.
  rewrite length_slice by (rewrite length_digestHex; lia). reflexivity.
Qed.

Lemma createHashForText_isHex (text : string) :
  allChars isHexDigit (Plugin.createHashForText text) = true.
Proof.
  unfold Plugin.createHashForText, slice.
  apply allChars_take. apply digestHex_isHex.
Qed.
End HashFacts.

(** ** File names and the include predicate *)

Section Include.
Import JsString Plugin.

(** C3.  A file whose name matches neither the main-role nor the
    renderer-role suffix is refused by the include predicate in both
    contexts; and a file from which the extractor collects no function
    makes the transform return [null]: no edit is applied and no import
    is touched. *)
Theorem non_matching_or_empty_is_untouched :
  forall context source id sourceFile,
    (isMainIpcFile id = false -> isRendererIpcFile id = false ->
     transformInclude context id = false)
    /\ (extract source sourceFile = [] ->
        transform context source id sourceFile = Null).
Proof.
  intros context source id sourceFile. split.
  - intros Hm Hr. unfold transformInclude. rewrite Hm, Hr. simpl.
    rewrite !andb_false_r. simpl. now destruct (negb (isIpcFile id)).
  - intros He. unfold transform. now rewrite He.
Qed.

Lemma non_matching_or_empty_is_untouched_witness :
  transformInclude Main "src/helpers.ts" = false
  /\ transformInclude Renderer "src/window.ipc.ts" = false
  /\ transform Main Samples.constSource "limits.main.ipc.ts"
               Samples.constFile = Null.
Proof.
  split; [|split].
  - apply (non_matching_or_empty_is_untouched
             Main "" "src/helpers.ts" (Ts.mkSourceFile [])); reflexivity.
  - apply (non_matching_or_empty_is_untouched
             Renderer "" "src/window.ipc.ts" (Ts.mkSourceFile []));
      reflexivity.
  - apply (non_matching_or_empty_is_untouched
             Main Samples.constSource "limits.main.ipc.ts"
             Samples.constFile); reflexivity.
Defined.

(** The include predicate accepts exactly the files of one of the two
    roles, whatever the context. *)
Lemma transformInclude_spec context id :
  transformInclude context id
  = isIpcFile id && (isMainIpcFile id || isRendererIpcFile id).
Proof.
  unfold transformInclude.
  destruct context, (isIpcFile id), (isMainIpcFile id),
    (isRendererIpcFile id); reflexivity.
Qed.
End Include.

(** ** Channels *)

Section Channels.
Import JsString Plugin.

(** C2.  The channel of an extracted function is the base name of the
    file, the name segment (the literal [default] for a default export,
    the declared identifier otherwise) and the first twelve hexadecimal
    digits of the SHA-256 digest of the slice of the source at the
    function's span, joined by colons; two extractions that agree on the
    base name, the name segment and the body slice get the same channel,
    whatever else their files contain. *)
Theorem channel_format_and_determinism :
  forall source sourceFile id fn,
    In fn (extract source sourceFile) ->
    let hash12 :=
      take 12 (Sha256.digestHex (slice (start fn) (end_ fn) source)) in
    channelOf id fn
    = Path.basename id ++ ":" ++ Spec.nameSegment fn ++ ":" ++ hash12
    /\ String.length hash12 = 12
    /\ allChars isHexDigit hash12 = true
    /\ forall source' sourceFile' id' fn',
        In fn' (extract source' sourceFile') ->
        Path.basename id' = Path.basename id ->
        Spec.nameSegment fn' = Spec.nameSegment fn ->
        slice (start fn') (end_ fn') source'
        = slice (start fn) (end_ fn) source ->
        channelOf id' fn' = channelOf id fn.
Proof.
  intros source sourceFile id fn Hin hash12.
  pose proof (extract_recorded _ _ _ Hin) as Hbody.
  unfold Spec.recorded in Hbody.
  assert (Hhash : createHashForText (originalBodyCode fn) = hash12).
  { unfold createHashForText, slice at 1, hash12.
    now rewrite Hbody. }
  split; [|split; [|split]].
  - unfold channelOf, Spec.nameSegment. now rewrite Hhash.
  - rewrite <- Hhash. apply length_createHashForText.
  - rewrite <- Hhash. apply createHashForText_isHex.
  - intros source' sourceFile' id' fn' Hin' Hbase Hseg Hslice.
    pose proof (extract_recorded _ _ _ Hin') as Hbody'.
    unfold Spec.recorded in Hbody'.
    unfold channelOf. unfold Spec.nameSegment in Hseg.
    now rewrite Hbase, Hseg, Hbody, Hbody', Hslice.
Qed.

Lemma channel_format_and_determinism_witness :
  channelOf "/app/src/foo.main.ipc.ts" Samples.barFn
  = "foo.main.ipc.ts:bar:7cebadae8464"
  /\ channelOf "/other/dir/foo.main.ipc.ts" Samples.barFn2
     = channelOf "/app/src/foo.main.ipc.ts" Samples.barFn.
Proof.
  assert (Hin : In Samples.barFn (extract Samples.barSource Samples.barFile))
    by (left; reflexivity).
  assert (Hin2 : In Samples.barFn2
                    (extract Samples.barSource2 Samples.barFile2))
    by (left; reflexivity).
  destruct (channel_format_and_determinism
              Samples.barSource Samples.barFile
              "/app/src/foo.main.ipc.ts" Samples.barFn Hin)
    as (Hfmt & _ & _ & Hdet).
  split.
  - rewrite Hfmt. vm_compute. reflexivity.
  - apply (Hdet Samples.barSource2 Samples.barFile2
                "/other/dir/foo.main.ipc.ts" Samples.barFn2 Hin2);
      reflexivity.
Defined.
End Channels.

(** ** The two roles exclude each other *)

Section Roles.
Import JsString Plugin.

Lemma drop_append_ge (k : nat) (a b : string) :
  drop (String.length a + k) (a ++ b) = drop k b.
Proof. induction a as [|x a IH]; simpl; [reflexivity | exact IH]. Qed.

Lemma endsWith_split (p s : string) :
  endsWith p s = true -> exists before, s = before ++ p.
Proof.
  unfold endsWith. intros H. apply andb_true_iff in H as [H _].
  apply String.eqb_eq in H.
  set (k := String.length s - String.length p) in *.
  exists (take k s). rewrite <- H. symmetry. apply take_drop.
Qed.

Lemma endsWith_append (q before p : string) :
  String.length q <= String.length p ->
  endsWith q (before ++ p) = endsWith q p.
Proof.
  intros Hle. unfold endsWith. rewrite length_append.
  replace (String.length before + String.length p - String.length q)
    with (String.length before + (String.length p - String.length q))
    by lia.
  rewrite drop_append_ge. f_equal.
  transitivity true; [apply Nat.leb_le; lia | symmetry; apply Nat.leb_le; lia].
Qed.

Lemma renderer_role_not_main (id : string) :
  isRendererIpcFile id = true -> isMainIpcFile id = false.
Proof.
  unfold isRendererIpcFile, isMainIpcFile. intros H.
  apply orb_true_iff in H as [H|H]; apply endsWith_split in H as [b ->];
    rewrite !endsWith_append by (simpl; lia); reflexivity.
Qed.

Lemma main_role_not_renderer (id : string) :
  isMainIpcFile id = true -> isRendererIpcFile id = false.
Proof.
  intros H. destruct (isRendererIpcFile id) eqn:E; [|reflexivity].
  apply renderer_role_not_main in E. congruence.
Qed.

Lemma included_role (context : Context) (id : string) :
  transformInclude context id = true ->
  (isMainIpcFile id = true /\ isRendererIpcFile id = false)
  \/ (isMainIpcFile id = false /\ isRendererIpcFile id = true).
Proof.
  rewrite transformInclude_spec. intros H.
  apply andb_true_iff in H as [_ H].
  destruct (isMainIpcFile id) eqn:Em.
  - left. split; [reflexivity | now apply main_role_not_renderer].
  - right. split; [reflexivity | exact H].
Qed.
End Roles.

(** ** The frame kept by the string under edit *)

Section Frame.
Import JsString MagicString.
Variable source : string.
Variable spans : list (nat * nat).
Variable points : list nat.

Let framedChunks (cs : list Chunk) : Prop :=
  Spec.tiles source 0 cs /\ Forall (Spec.chunkFramed spans points) cs.

Lemma slice_prefix (a b k : nat) (s : string) :
  a + k <= b -> slice 0 k (slice a b s) = slice a (a + k) s.
Proof.
  intros H. unfold slice. rewrite Nat.sub_0_r.
  change (drop 0 ?x) with x.
  rewrite take_take by lia. f_equal. lia.
Qed.

Lemma drop_slice (a b k : nat) (s : string) :
  drop k (slice a b s) = slice (a + k) b s.
Proof.
  unfold slice. rewrite drop_take, drop_drop. f_equal. lia.
Qed.

Lemma tiles_start p cs :
  Spec.tiles source p cs -> Forall (fun c => p <= c_start c) cs.
Proof.
  revert p; induction cs as [|c cs IH]; intros p H; constructor.
  - destruct H as (-> & _). lia.
  - destruct H as (Hs & Hle & _ & _ & Ht).
    eapply Forall_impl; [|apply IH; exact Ht]. simpl. intros; lia.
Qed.

(** Splitting keeps the tiling. *)
Lemma splitAt_tiles index cs cs' p :
  splitAt index cs = Some cs' ->
  Spec.tiles source p cs -> Spec.tiles source p cs'.
Proof.
  revert p cs'; induction cs as [|c cs IH]; intros p cs' Hsplit Ht;
    simpl in Hsplit.
  - now inversion Hsplit; subst.
  - destruct Ht as (Hs & Hle & Hlen & Ho & Ht).
    destruct (contains c index) eqn:Hc.
    + unfold contains in Hc. apply andb_true_iff in Hc as [H1 H2].
      apply Nat.ltb_lt in H1, H2.
      destruct (c_edited c && truthy (c_content c)); [discriminate|].
      unfold splitChunk in Hsplit.
      assert (Hb : slice 0 (index - c_start c) (c_original c)
                   = slice p index source).
      { rewrite Ho, slice_prefix by lia. f_equal. lia. }
      assert (Ha : drop (index - c_start c) (c_original c)
                   = slice index (c_end c) source).
      { rewrite Ho, drop_slice. f_equal. lia. }
      destruct (c_edited c); inversion Hsplit; subst cs'; simpl;
        repeat split; auto; lia.
    + destruct (splitAt index cs) as [cs1|] eqn:E; [|discriminate].
      inversion Hsplit; subst cs'. simpl. repeat split; auto.
Qed.

Lemma inSpans_shrink a b a' b' :
  Spec.inSpans spans a b -> a <= a' -> b' <= b -> Spec.inSpans spans a' b'.
Proof.
  intros (sp & Hin & H1 & H2) Ha Hb. exists sp. repeat split; auto; lia.
Qed.

(** Splitting keeps every chunk framed. *)
Lemma splitAt_framed index cs cs' :
  splitAt index cs = Some cs' ->
  Forall (Spec.chunkFramed spans points) cs ->
  Forall (Spec.chunkFramed spans points) cs'.
Proof.
  revert cs'; induction cs as [|c cs IH]; intros cs' Hsplit HF;
    simpl in Hsplit.
  - now inversion Hsplit; subst.
  - inversion HF as [|? ? Hc HF']; subst.
    destruct (contains c index) eqn:Hin.
    + unfold contains in Hin. apply andb_true_iff in Hin as [H1 H2].
      apply Nat.ltb_lt in H1, H2.
      destruct (c_edited c && truthy (c_content c)); [discriminate|].
      unfold splitChunk in Hsplit. unfold Spec.chunkFramed in Hc.
      destruct (c_edited c); inversion Hsplit; subst cs';
        (constructor; [|constructor; [|exact HF']]);
        unfold Spec.chunkFramed; simpl;
        try (eapply inSpans_shrink; [exact Hc | lia | lia]);
        tauto.
    + destruct (splitAt index cs) as [cs1|] eqn:E; [|discriminate].
      inversion Hsplit; subst cs'. constructor; auto.
Qed.

(** After a split at [index] no chunk has [index] strictly inside. *)
Lemma splitAt_boundary index cs cs' p :
  splitAt index cs = Some cs' ->
  Spec.tiles source p cs ->
  Forall (fun c => contains c index = false) cs'.
Proof.
  revert p cs'; induction cs as [|c cs IH]; intros p cs' Hsplit Ht;
    simpl in Hsplit.
  - inversion Hsplit; subst. constructor.
  - destruct Ht as (Hs & Hle & Hlen & Ho & Ht).
    destruct (contains c index) eqn:Hc.
    + unfold contains in Hc. apply andb_true_iff in Hc as [H1 H2].
      apply Nat.ltb_lt in H1, H2.
      destruct (c_edited c && truthy (c_content c)); [discriminate|].
      unfold splitChunk in Hsplit.
      apply tiles_start in Ht.
      assert (Hrest : Forall (fun c0 => contains c0 index = false) cs).
      { eapply Forall_impl; [|exact Ht]. simpl. intros c0 H0.
        unfold contains. apply andb_false_iff. left.
        apply Nat.ltb_ge. lia. }
      destruct (c_edited c); inversion Hsplit; subst cs';
        (constructor; [|constructor; [|exact Hrest]]);
        unfold contains; simpl;
        rewrite Nat.ltb_irrefl; auto using andb_false_r.
    + destruct (splitAt index cs) as [cs1|] eqn:E; [|discriminate].
      inversion Hsplit; subst cs'. constructor; eauto.
Qed.

Lemma editRange_tiles start end_ content cs p :
  Spec.tiles source p cs ->
  Spec.tiles source p (editRange start end_ content cs).
Proof.
  revert p; induction cs as [|c cs IH]; intros p Ht; simpl; auto.
  destruct Ht as (Hs & Hle & Hlen & Ho & Ht).
  assert (Hr := IH _ Ht).
  destruct (Nat.eqb (c_start c) start);
    [|destruct (Nat.ltb start (c_start c) && Nat.leb (c_end c) end_)];
    simpl; auto.
Qed.

(** Overwriting a span frames the chunks it edits. *)
Lemma editRange_framed start end_ content cs :
  In (start, end_) spans ->
  start < end_ ->
  Forall (fun c => contains c end_ = false) cs ->
  Forall (fun c => c_start c <= c_end c) cs ->
  Forall (Spec.chunkFramed spans points) cs ->
  Forall (Spec.chunkFramed spans points) (editRange start end_ content cs).
Proof.
  intros Hin Hlt Hb Hw HF. unfold editRange.
  rewrite Forall_forall in *. intros c' Hc'.
  apply in_map_iff in Hc' as (c & <- & Hc).
  specialize (Hb _ Hc). specialize (HF _ Hc). specialize (Hw _ Hc).
  simpl in Hw.
  destruct (Nat.eqb (c_start c) start) eqn:E1.
  - apply Nat.eqb_eq in E1. unfold Spec.chunkFramed; simpl.
    exists (start, end_). simpl. repeat split; auto; try lia.
    unfold contains in Hb. apply andb_false_iff in Hb.
    rewrite !Nat.ltb_ge in Hb. lia.
  - destruct (Nat.ltb start (c_start c) && Nat.leb (c_end c) end_) eqn:E2;
      [|exact HF].
    apply andb_true_iff in E2 as [E2 E3].
    apply Nat.ltb_lt in E2. apply Nat.leb_le in E3.
    unfold Spec.chunkFramed; simpl.
    exists (start, end_). simpl. repeat split; auto; lia.
Qed.

Lemma tiles_ordered p cs :
  Spec.tiles source p cs -> Forall (fun c => c_start c <= c_end c) cs.
Proof.
  revert p; induction cs as [|c cs IH]; intros p H; constructor.
  - destruct H as (-> & H & _). exact H.
  - destruct H as (_ & _ & _ & _ & Ht). eauto.
Qed.

(** [overwrite] keeps the frame when its span is one of the spans. *)
Lemma overwrite_framed start end_ content s s' :
  In (start, end_) spans ->
  overwrite start end_ content s = Some s' ->
  framedChunks (chunks s) ->
  framedChunks (chunks s') /\ original s' = original s
  /\ intro s' = intro s /\ outro s' = outro s.
Proof.
  intros Hin Ho [Ht HF]. unfold overwrite in Ho.
  destruct (Nat.ltb (String.length (original s)) end_); [discriminate|].
  destruct (Nat.leb end_ start) eqn:Hle; [discriminate|].
  apply Nat.leb_gt in Hle.
  destruct (splitAt start (chunks s)) as [cs1|] eqn:E1; [|discriminate].
  destruct (splitAt end_ cs1) as [cs2|] eqn:E2; [|discriminate].
  inversion Ho; subst s'; simpl. repeat split; auto.
  - apply editRange_tiles. eapply splitAt_tiles; eauto.
    eapply splitAt_tiles; eauto.
  - apply editRange_framed; auto.
    + eapply splitAt_boundary; eauto. eapply splitAt_tiles; eauto.
    + eapply tiles_ordered. eapply splitAt_tiles; eauto.
      eapply splitAt_tiles; eauto.
    + eapply splitAt_framed; eauto. eapply splitAt_framed; eauto.
Qed.

Lemma appendLeftChunk_tiles index content cs cs' p :
  appendLeftChunk index content cs = Some cs' ->
  Spec.tiles source p cs -> Spec.tiles source p cs'.
Proof.
  revert p cs'; induction cs as [|c cs IH]; intros p cs' Ha Ht;
    simpl in Ha; [discriminate|].
  destruct Ht as (Hs & Hle & Hlen & Ho & Ht).
  destruct (Nat.eqb (c_end c) index).
  - inversion Ha; subst cs'. simpl. repeat split; auto.
  - destruct (appendLeftChunk index content cs) as [cs1|] eqn:E;
      [|discriminate].
    inversion Ha; subst cs'. simpl. repeat split; eauto.
Qed.

Lemma appendLeftChunk_framed index content cs cs' :
  In index points ->
  appendLeftChunk index content cs = Some cs' ->
  Forall (Spec.chunkFramed spans points) cs ->
  Forall (Spec.chunkFramed spans points) cs'.
Proof.
  intros Hp. revert cs'; induction cs as [|c cs IH]; intros cs' Ha HF;
    simpl in Ha; [discriminate|].
  inversion HF as [|? ? Hc HF']; subst.
  destruct (Nat.eqb (c_end c) index) eqn:E.
  - apply Nat.eqb_eq in E. inversion Ha; subst cs'. constructor; auto.
    unfold Spec.chunkFramed in *; simpl.
    destruct (c_edited c); auto.
    destruct Hc as (H1 & H2 & _). repeat split; auto.
    right. now rewrite E.
  - destruct (appendLeftChunk index content cs) as [cs1|] eqn:E';
      [|discriminate].
    inversion Ha; subst cs'. constructor; auto.
Qed.

(** [appendLeft] keeps the frame at an injection point; what it cannot
    attach to a chunk goes in front of the whole text. *)
Lemma appendLeft_framed index content s s' :
  In index points ->
  appendLeft index content s = Some s' ->
  framedChunks (chunks s) ->
  framedChunks (chunks s') /\ original s' = original s.
Proof.
  intros Hp Ha [Ht HF]. unfold appendLeft in Ha.
  destruct (splitAt index (chunks s)) as [cs|] eqn:E; [|discriminate].
  assert (Ht' := splitAt_tiles _ _ _ _ E Ht).
  assert (HF' := splitAt_framed _ _ _ E HF).
  destruct (appendLeftChunk index content cs) as [cs'|] eqn:E';
    inversion Ha; subst s'; simpl; repeat split; auto.
  - eapply appendLeftChunk_tiles; eauto.
  - eapply appendLeftChunk_framed; eauto.
Qed.

Lemma create_framed : framedChunks (chunks (create source)).
Proof.
  split; simpl.
  - repeat split; auto; try lia. now rewrite slice_full.
  - constructor; [|constructor]. unfold Spec.chunkFramed; simpl. auto.
Qed.

(** The original text of tiling chunks. *)
Lemma tiles_original p cs :
  p <= String.length source ->
  Spec.tiles source p cs ->
  Spec.originalOf (flat_map Spec.piecesOf cs) = drop p source.
Proof.
  revert p; induction cs as [|c cs IH]; intros p Hp Ht; simpl.
  - symmetry. now apply drop_all.
  - destruct Ht as (Hs & Hle & Hlen & Ho & Ht).
    assert (Hcat : c_original c ++ drop (c_end c) source = drop p source).
    { rewrite Ho. unfold slice.
      rewrite <- (take_drop (c_end c - p) (drop p source)) at 2.
      f_equal. rewrite drop_drop. f_equal. lia. }
    rewrite <- Hcat, <- (IH _ Hlen Ht).
    unfold Spec.piecesOf.
    destruct (c_edited c); [reflexivity|].
    destruct (c_outro c); reflexivity.
Qed.

Lemma chunks_output cs :
  Forall (Spec.chunkFramed spans points) cs ->
  Spec.outputOf (flat_map Spec.piecesOf cs) = chunksToString cs.
Proof.
  induction 1 as [|c cs Hc HF IH]; simpl; [reflexivity|].
  rewrite <- IH. unfold Spec.piecesOf, Spec.chunkFramed in *.
  unfold chunkToString.
  destruct (c_edited c); simpl.
  - now rewrite !append_assoc.
  - destruct Hc as (-> & -> & _).
    destruct (c_outro c); simpl; now rewrite ?append_nil_r, ?append_assoc.
Qed.

Lemma chunks_framed p cs :
  Spec.tiles source p cs ->
  Forall (Spec.chunkFramed spans points) cs ->
  Spec.framed spans points p (flat_map Spec.piecesOf cs).
Proof.
  revert p; induction cs as [|c cs IH]; intros p Ht HF; simpl; auto.
  destruct Ht as (Hs & Hle & Hlen & Ho & Ht).
  inversion HF as [|? ? Hc HF']; subst.
  assert (Hl : c_start c + String.length (c_original c) = c_end c).
  { rewrite Ho, length_slice by lia. lia. }
  specialize (IH _ Ht HF').
  unfold Spec.piecesOf, Spec.chunkFramed in *.
  destruct (c_edited c); simpl.
  - rewrite Hl. auto.
  - destruct Hc as (_ & _ & Hout).
    destruct (c_outro c) eqn:Eo; simpl; rewrite Hl; auto.
    split; auto. destruct Hout as [Hout|Hout]; [discriminate | exact Hout].
Qed.
End Frame.

(** ** The frame of the transform *)

Section TransformFrame.
Import JsString Plugin.
Variable context : Context.
Variable source id : string.
Variable sourceFile : Ts.SourceFile.

Let spans := Spec.editableSpans source sourceFile.
Let points := Spec.injectionPoints sourceFile.
Let framedChunks (cs : list MagicString.Chunk) : Prop :=
  Spec.tiles source 0 cs /\ Forall (Spec.chunkFramed spans points) cs.

Lemma transformFunction_framed fn ms needed ms' needed' :
  In (start fn, end_ fn) spans ->
  transformFunction context id (ms, needed) fn = Some (ms', needed') ->
  framedChunks (MagicString.chunks ms) ->
  framedChunks (MagicString.chunks ms').
Proof.
  intros Hin Hstep HF. unfold transformFunction in Hstep.
  destruct context;
    [destruct (isMainIpcFile id) | destruct (isRendererIpcFile id)];
    destruct (isAsync fn);
    try (inversion Hstep; subst; exact HF);
    match type of Hstep with
    | option_map _ ?o = _ =>
        destruct o as [m|] eqn:E; [|discriminate];
        inversion Hstep; subst;
        eapply (overwrite_framed source spans points); eauto
    end.
Qed.

Lemma transformFunctions_framed fns : forall st ms' needed',
  Forall (fun fn => In (start fn, end_ fn) spans) fns ->
  transformFunctions context id st fns = Some (ms', needed') ->
  framedChunks (MagicString.chunks (fst st)) ->
  framedChunks (MagicString.chunks ms').
Proof.
  induction fns as [|fn fns IH]; intros [ms needed] ms' needed' Hall Hrun HF;
    cbn [transformFunctions] in Hrun.
  - now inversion Hrun; subst.
  - inversion Hall as [|? ? Hfn Hrest]; subst.
    destruct (transformFunction context id (ms, needed) fn)
      as [[ms1 needed1]|] eqn:E; [|discriminate].
    eapply IH; eauto. simpl.
    eapply transformFunction_framed; eauto.
Qed.

Lemma mergeImports_framed needed ms ms' :
  mergeImports source sourceFile needed ms = Some ms' ->
  framedChunks (MagicString.chunks ms) ->
  framedChunks (MagicString.chunks ms').
Proof.
  unfold mergeImports, framedChunks, spans, points,
    Spec.editableSpans, Spec.injectionPoints.
  destruct (importNodes sourceFile) as [|[startPos endPos] rest];
    intros Hm HF.
  - destruct (truthy _); inversion Hm; subst; exact HF.
  - simpl firstn in *.
    destruct (mergeImportText needed (slice startPos endPos source)).
    + eapply overwrite_framed; eauto.
      apply in_or_app. right. now left.
    + eapply appendLeft_framed; eauto. now left.
Qed.

Lemma extracted_spans :
  Forall (fun fn => In (start fn, end_ fn) spans)
         (extract source sourceFile).
Proof.
  apply Forall_forall. intros fn Hfn. unfold spans, Spec.editableSpans.
  apply in_or_app. left.
  apply in_map_iff. now exists fn.
Qed.

(** C9.  Whatever the context, the code the transform returns is some
    generated text, then the original text, then some generated text,
    where the original text is changed only inside the span of an
    extracted function or of the first import from electron, and has
    text inserted only right after that import; every other original
    character is there, unchanged and in its place. *)
Theorem transform_frame :
  forall code,
    transform context source id sourceFile = Code code ->
    exists prepended pieces appended,
      code = prepended ++ Spec.outputOf pieces ++ appended
      /\ Spec.originalOf pieces = source
      /\ Spec.framed (Spec.editableSpans source sourceFile)
                     (Spec.injectionPoints sourceFile) 0 pieces.
Proof.
  intros code Hrun. unfold transform in Hrun.
  pose proof extracted_spans as Hspans.
  destruct (extract source sourceFile) as [|fn fns] eqn:Efns;
    [discriminate|].
  destruct (transformFunctions context id (MagicString.create source, [])
                               (fn :: fns))
    as [[ms needed]|] eqn:Erun; [|discriminate].
  destruct (mergeImports source sourceFile needed ms) as [ms'|] eqn:Em;
    [|discriminate].
  inversion Hrun; subst code.
  assert (HF : framedChunks (MagicString.chunks ms')).
  { eapply mergeImports_framed; eauto.
    eapply transformFunctions_framed; eauto. simpl.
    exact (create_framed source spans points). }
  destruct HF as [Ht HF].
  exists (MagicString.intro ms'),
    (flat_map Spec.piecesOf (MagicString.chunks ms')),
    (MagicString.outro ms').
  split; [|split].
  - unfold MagicString.toString.
    now rewrite (chunks_output spans points).
  - rewrite (tiles_original source 0) by (auto; lia). reflexivity.
  - apply (chunks_framed source); auto.
Qed.

End TransformFrame.

(** The renderer-role sample compiled for the main context: both spans are
    replaced, the import is rewritten, the rest is kept. *)
Lemma transform_frame_witness :
  exists code prepended pieces appended,
    Plugin.transform Plugin.Main Samples.panelSource "panel.renderer.ipc.ts"
                     Samples.panelFile = Plugin.Code code
    /\ code = prepended ++ Spec.outputOf pieces ++ appended
    /\ Spec.originalOf pieces = Samples.panelSource
    /\ Spec.framed (Spec.editableSpans Samples.panelSource Samples.panelFile)
                   (Spec.injectionPoints Samples.panelFile) 0 pieces.
Proof.
  destruct (Plugin.transform Plugin.Main Samples.panelSource
                             "panel.renderer.ipc.ts" Samples.panelFile)
    as [|code|] eqn:E; try (vm_compute in E; discriminate).
  destruct (transform_frame Plugin.Main Samples.panelSource
                            "panel.renderer.ipc.ts" Samples.panelFile
                            code E)
    as (prepended & pieces & appended & H).
  exists code, prepended, pieces, appended. split; [reflexivity | exact H].
Defined.

(** Settles the comparisons of a goal by arithmetic. *)
Ltac decide_tests :=
  repeat match goal with
    | |- context [Nat.ltb ?x ?y] =>
        first [ rewrite (proj2 (Nat.ltb_lt x y)) by lia
              | rewrite (proj2 (Nat.ltb_ge x y)) by lia ]
    | |- context [Nat.leb ?x ?y] =>
        first [ rewrite (proj2 (Nat.leb_le x y)) by lia
              | rewrite (proj2 (Nat.leb_gt x y)) by lia ]
    | |- context [Nat.eqb ?x ?y] =>
        first [ rewrite (proj2 (Nat.eqb_eq x y)) by lia
              | rewrite (proj2 (Nat.eqb_neq x y)) by lia ]
    end.

(** ** Edits of a string that was only appended to *)

Section FreshEdits.
Import JsString MagicString.
Variable source : string.

(** The string under edit before any span is rewritten. *)
Let fresh (o : string) : t :=
  mk source "" o
     [mkChunk 0 (String.length source) source "" source "" false].


Lemma overwrite_fresh (o content : string) (a b : nat) :
  a < b -> b <= String.length source ->
  exists s',
    overwrite a b content (fresh o) = Some s'
    /\ toString s' = take a source ++ content ++ drop b source ++ o.
Proof.
  intros Hab Hb. unfold overwrite, fresh. simpl original. simpl chunks.
  unfold splitAt, contains, splitChunk, toString, editRange, chunkToString.
  destruct (Nat.eq_dec a 0) as [->|Ha];
    destruct (Nat.eq_dec b (String.length source)) as [->|Hb'];
    repeat (decide_tests; cbn -[Nat.ltb Nat.leb Nat.eqb slice drop take]);
    (eexists; split; [reflexivity|]);
    repeat (decide_tests; cbn -[Nat.ltb Nat.leb Nat.eqb slice drop take]).
  all: rewrite ?Nat.sub_0_r, ?append_nil_r, ?append_assoc.
  - now rewrite drop_all by lia.
  - reflexivity.
  - rewrite drop_all by lia. unfold slice. simpl.
    now rewrite ?Nat.sub_0_r.
  - unfold slice. simpl. rewrite ?Nat.sub_0_r, ?drop_drop.
    replace (a + (b - a)) with b by lia. reflexivity.
Qed.

Lemma appendLeft_fresh (o content : string) (b : nat) :
  0 < b -> b <= String.length source ->
  exists s',
    appendLeft b content (fresh o) = Some s'
    /\ toString s' = take b source ++ content ++ drop b source ++ o.
Proof.
  intros Hb0 Hb. unfold appendLeft, fresh. simpl chunks.
  unfold splitAt, contains, splitChunk, toString, chunkToString,
    appendLeftChunk.
  destruct (Nat.eq_dec b (String.length source)) as [->|Hb'];
    repeat (decide_tests; cbn -[Nat.ltb Nat.leb Nat.eqb slice drop take]);
    (eexists; split; [reflexivity|]);
    repeat (decide_tests; cbn -[Nat.ltb Nat.leb Nat.eqb slice drop take]).
  all: rewrite ?Nat.sub_0_r, ?append_nil_r, ?append_assoc.
  - now rewrite take_all, drop_all by lia.
  - unfold slice. simpl. now rewrite Nat.sub_0_r.
Qed.
End FreshEdits.

(** ** Occurrences in the templates *)

Section Occurrences.
Import JsString.

Lemma occursIn_start (p s after : string) :
  s = p ++ after -> Spec.occursIn p s.
Proof. intros ->. now exists "", after. Qed.

Lemma occursIn_cons (c : ascii) (p s : string) :
  Spec.occursIn p s -> Spec.occursIn p (String c s).
Proof. intros (b & a & ->). now exists (String c b), a. Qed.

Lemma occursIn_append (x p s : string) :
  Spec.occursIn p s -> Spec.occursIn p (x ++ s).
Proof.
  intros (b & a & ->). exists (x ++ b), a. now rewrite append_assoc.
Qed.
End Occurrences.

(** Walks a template from the left until the text sought starts. *)
Ltac find_occurrence :=
  first
    [ solve [ eapply occursIn_start; unfold Spec.callOn, JsString.dq;
              cbn; rewrite ?append_assoc; cbn; reflexivity ]
    | apply occursIn_cons; find_occurrence
    | apply occursIn_append; find_occurrence ].

(** ** The matrix *)

Section Matrix.
Import JsString Plugin.
Variable context : Context.
Variable id : string.

(** In a registering cell a function only adds its registration after
    the text. *)
Lemma transformFunction_registers fn ms needed :
  Spec.registersLocally context id = true ->
  transformFunction context id (ms, needed) fn
  = Some (MagicString.append (Spec.registrationOf context id fn) ms,
          setAdd (Spec.symbolOf context id) needed).
Proof.
  unfold Spec.registersLocally, transformFunction, Spec.registrationOf,
    Spec.symbolOf.
  destruct context; intros ->; destruct (isAsync fn); reflexivity.
Qed.

(** In the other cells it overwrites its span with its stub. *)
Lemma transformFunction_replaces fn ms needed :
  Spec.registersLocally context id = false ->
  transformFunction context id (ms, needed) fn
  = option_map (fun m => (m, setAdd (Spec.symbolOf context id) needed))
      (MagicString.overwrite (start fn) (end_ fn)
                             (Spec.stubOf context id fn) ms).
Proof.
  unfold Spec.registersLocally, transformFunction, Spec.stubOf,
    Spec.symbolOf.
  destruct context; intros ->; destruct (isAsync fn); reflexivity.
Qed.

Lemma transformFunctions_register fns : forall ms needed,
  Spec.registersLocally context id = true ->
  transformFunctions context id (ms, needed) fns
  = Some (MagicString.mk
            (MagicString.original ms) (MagicString.intro ms)
            (MagicString.outro ms ++ Spec.registrationsOf context id fns)
            (MagicString.chunks ms),
          fold_left (fun set _ => setAdd (Spec.symbolOf context id) set)
                    fns needed).
Proof.
  induction fns as [|fn fns IH]; intros ms needed Hcell;
    cbn [transformFunctions].
  - simpl. rewrite append_nil_r. now destruct ms.
  - rewrite transformFunction_registers by assumption.
    rewrite IH by assumption. unfold MagicString.append. simpl.
    now rewrite append_assoc.
Qed.

Lemma needed_after fns :
  fns <> [] ->
  fold_left (fun set (_ : ExportedFunction) =>
               setAdd (Spec.symbolOf context id) set) fns []
  = [Spec.symbolOf context id].
Proof.
  destruct fns as [|fn fns]; [congruence|]. intros _. simpl.
  unfold setAdd at 2. simpl.
  induction fns as [|fn' fns IH]; simpl; [reflexivity|].
  unfold setAdd at 2. unfold includes. simpl.
  now rewrite String.eqb_refl.
Qed.

Lemma take_slice (a b : nat) (s : string) :
  a <= b -> take a s ++ slice a b s = take b s.
Proof.
  intros H. pose proof (slice_slice 0 a b s) as E.
  unfold slice at 1 3 in E. simpl in E.
  rewrite !Nat.sub_0_r in E. apply E; lia.
Qed.

Variable source : string.
Variable sourceFile : Ts.SourceFile.

(** What the transform returns in a registering cell: the original text
    with its first electron import merged (or a new import in front),
    followed by the registrations. *)
Lemma registering_output :
  Spec.registersLocally context id = true ->
  extract source sourceFile <> [] ->
  match importNodes sourceFile with
  | [] =>
      transform context source id sourceFile
      = Code ("import { " ++ Spec.symbolOf context id
                          ++ " } from 'electron';" ++ nl
              ++ source
              ++ Spec.registrationsOf context id
                                      (extract source sourceFile))
  | (a, b) :: _ =>
      a < b -> b <= String.length source ->
      transform context source id sourceFile
      = Code (take a source
              ++ Spec.mergedImport [Spec.symbolOf context id]
                                   (slice a b source)
              ++ drop b source
              ++ Spec.registrationsOf context id
                                      (extract source sourceFile))
  end.
Proof.
  intros Hcell Hfns. unfold transform.
  destruct (extract source sourceFile) as [|fn fns] eqn:E; [congruence|].
  rewrite transformFunctions_register by assumption.
  rewrite needed_after by discriminate.
  unfold mergeImports, MagicString.create.
  cbn [MagicString.original MagicString.intro MagicString.outro
       MagicString.chunks].
  cbn [append].
  destruct (importNodes sourceFile) as [|[a b] rest].
  - assert (Ht : truthy (join ", " [Spec.symbolOf context id]) = true).
    { unfold Spec.symbolOf.
      destruct context; [destruct (isMainIpcFile id)|]; reflexivity. }
    rewrite Ht. unfold MagicString.prepend, MagicString.toString. simpl.
    unfold MagicString.chunkToString. simpl.
    now rewrite ?append_nil_r, ?append_assoc.
  - intros Hab Hb. unfold Spec.mergedImport.
    destruct (mergeImportText [Spec.symbolOf context id]
                              (slice a b source)) as [text|injection].
    + destruct (overwrite_fresh source
                  (Spec.registrationsOf context id (fn :: fns))
                  text a b Hab Hb) as (s' & -> & ->).
      reflexivity.
    + destruct (appendLeft_fresh source
                  (Spec.registrationsOf context id (fn :: fns))
                  injection b ltac:(lia) Hb) as (s' & -> & ->).
      rewrite <- (take_slice a b) by lia.
      now rewrite !append_assoc.
Qed.

End Matrix.

(** ** The generated code at run time *)

(** The same for a text sought that holds the channel more than once. *)
Ltac find_long_occurrence :=
  first
    [ solve [ eapply occursIn_start; unfold Spec.callOn, JsString.dq;
              repeat (progress (cbn; rewrite ?append_assoc));
              reflexivity ]
    | apply occursIn_cons; find_long_occurrence
    | apply occursIn_append; find_long_occurrence ].

Section Broadcaster.
Import JsString Runtime.
Variable numberToString : nat -> string.

Local Abbreviation toText := (Runtime.toText numberToString).
Local Abbreviation settle := (Runtime.settle numberToString).
Local Abbreviation deliver := (Runtime.deliver numberToString).
Local Abbreviation deliverAll := (Runtime.deliverAll numberToString).

(** Once the flag is up no event changes the promise. *)
Lemma deliverAll_resolved events : forall b,
  b_resolved b = true ->
  b_promise (deliverAll b events) = b_promise b
  /\ b_resolved (deliverAll b events) = true.
Proof.
  induction events as [|e events IH]; intros b Hb; simpl; [auto|].
  assert (H : b_resolved (deliver b e) = true
              /\ b_promise (deliver b e) = b_promise b).
  { unfold Runtime.deliver. destruct (existsb _ _); [|auto].
    rewrite Hb. simpl. auto. }
  destruct H as [H1 H2].
  destruct (IH _ H1) as [H3 H4]. rewrite H3, H2. auto.
Qed.

(** An event that reaches no listener changes nothing. *)
Lemma deliver_miss b e : Spec.hits b e = false -> deliver b e = b.
Proof. unfold Spec.hits, Runtime.deliver. now intros ->. Qed.

Lemma deliverAll_miss events : forall b,
  Forall (fun e => Spec.hits b e = false) events ->
  deliverAll b events = b.
Proof.
  induction events as [|e events IH]; intros b HF; simpl; [reflexivity|].
  apply Forall_cons_iff in HF as [He HF'].
  rewrite (deliver_miss b e He). now apply IH.
Qed.

Lemma deliverAll_app b xs ys :
  deliverAll b (xs ++ ys)%list = deliverAll (deliverAll b xs) ys.
Proof. unfold Runtime.deliverAll. apply fold_left_app. Qed.



(** A reply from a webContents the stub sent to reaches the listener
    the stub registered on it. *)
Lemma listener_hit channel all args wc payload :
  In wc all ->
  Spec.hits (asyncBroadcasterCall channel all args)
            (mkMessage wc (channel ++ "-reply") payload) = true.
Proof.
  intros Hin. unfold Spec.hits, asyncBroadcasterCall. simpl.
  apply existsb_exists. exists (wc, channel ++ "-reply").
  split.
  - apply in_map_iff. now exists wc.
  - unfold listener_eqb. simpl.
    now rewrite Nat.eqb_refl, String.eqb_refl.
Qed.

(** The first reply that reaches a listener decides the promise for
    good. *)
Lemma first_reply_settles channel all args before wc payload after :
  let b := asyncBroadcasterCall channel all args in
  In wc all ->
  Forall (fun e => Spec.hits b e = false) before ->
  b_promise (deliverAll b (before
                             ++ mkMessage wc (channel ++ "-reply") payload
                             :: after)%list)
  = match settle (nth 0 payload JsUndefined) with
    | Some settled => settled
    | None => Pending
    end.
Proof.
  intros b Hin Hmiss.
  pose proof (listener_hit channel all args wc payload Hin) as Hhit.
  fold b in Hhit.
  rewrite deliverAll_app, (deliverAll_miss before b Hmiss). simpl.
  set (reply := mkMessage wc (channel ++ "-reply") payload) in *.
  assert (Hd : b_resolved (deliver b reply) = true
               /\ b_promise (deliver b reply)
                  = match settle (nth 0 payload JsUndefined) with
                    | Some settled => settled
                    | None => Pending
                    end).
  { unfold Runtime.deliver. unfold Spec.hits in Hhit. rewrite Hhit.
    cbn [b asyncBroadcasterCall b_resolved b_promise reply msg_args].
    destruct (Runtime.settle _ _); simpl; auto. }
  destruct Hd as [Hr Hp].
  destruct (deliverAll_resolved after _ Hr) as [-> _]. exact Hp.
Qed.


(** C4, as amended.  The async invoker stub returns whatever
    [ipcRenderer.invoke] settles to, a fulfilment or a rejection, and
    looks for no sentinel: its template does not mention one.  The
    async broadcaster stub decides on the first reply that reaches one
    of its listeners: when the reply has a truthy [__ipcError] it
    rejects with a new error whose message is the text of that field,
    or stays pending when the field has no text and building the error
    throws; it fulfils with the reply otherwise.  A sentinel carrying a
    non-empty message makes it reject with an error of that
    message. *)
Theorem async_stubs_settle :
  forall name channel,
    (forall invoked, fst (asyncInvokerCall channel invoked) = invoked)
    /\ indexOf "__ipcError" (Plugin.asyncInvokerStub "" "") = None
    /\ Spec.occursIn
         ("try {
        return await ipcRenderer.invoke(" ++ dq ++ channel ++ dq ++ ", ...args);
      } catch (err) {
        console.error(" ++ dq ++ "IPC invoke error on channel: " ++ channel ++ ":" ++ dq ++ ", err);
        throw err;
      }")
         (Plugin.asyncInvokerStub name channel)
    /\ Spec.occursIn "reject(new Error(resultOrError.__ipcError));"
                     (Plugin.asyncBroadcasterStub name channel)
    /\ Spec.occursIn
         ("wc.once(" ++ dq ++ channel ++ "-reply" ++ dq ++ ", (event, resultOrError) => {
            if (!resolved) {
              resolved = true;
              if (resultOrError && resultOrError.__ipcError) {
                reject(new Error(resultOrError.__ipcError));
              } else {
                resolve(resultOrError);
              }
            }
          });
          wc.send(" ++ dq ++ channel ++ dq ++ ", ...args);
        }
        // If all windows are closed, this could hang, so you might want a timeout or check
      });
    }")
         (Plugin.asyncBroadcasterStub name channel)
    /\ (forall all args before wc payload after,
           let b := asyncBroadcasterCall channel all args in
           let r := nth 0 payload JsUndefined in
           In wc all ->
           Forall (fun e => Spec.hits b e = false) before ->
           b_promise
             (deliverAll b (before
                              ++ mkMessage wc (channel ++ "-reply") payload
                              :: after)%list)
           = if toBoolean r && toBoolean (getProperty r "__ipcError")
             then match toText (getProperty r "__ipcError") with
                  | Some message => Rejected (JsError message)
                  | None => Pending
                  end
             else Fulfilled r)
    /\ (forall message,
           message <> "" ->
           settle (Spec.ipcErrorSentinel message)
           = Some (Rejected (JsError message))).
Proof.
  intros name channel.
  split; [|split; [|split; [|split; [|split; [|split]]]]].
  - now intros [| |].
  - reflexivity.
  - unfold Plugin.asyncInvokerStub, dq; cbn; find_long_occurrence.
  - unfold Plugin.asyncBroadcasterStub, dq; cbn; find_occurrence.
  - unfold Plugin.asyncBroadcasterStub, dq; cbn; find_long_occurrence.
  - intros all args before wc payload after b r Hin Hmiss.
    unfold b. rewrite first_reply_settles by assumption.
    fold r. unfold Runtime.settle.
    destruct (toBoolean r && toBoolean (getProperty r "__ipcError"));
      [|reflexivity].
    now destruct (Runtime.toText _ _).
  - intros message Hne. unfold Runtime.settle, Spec.ipcErrorSentinel.
    simpl. destruct message; [congruence | reflexivity].
Qed.

End Broadcaster.

Section BroadcasterExamples.
Import JsString Runtime.


Lemma async_stubs_settle_witness :
  b_promise
    (deliverAll
       Samples.decimal
       (asyncBroadcasterCall "c" [1] [])
       ([] ++ mkMessage 1 ("c" ++ "-reply") [Spec.ipcErrorSentinel "boom"]
           :: [])%list)
  = Rejected (JsError "boom")
  /\ settle Samples.decimal (Spec.ipcErrorSentinel "boom")
     = Some (Rejected (JsError "boom")).
Proof.
  destruct (async_stubs_settle Samples.decimal "f" "c")
    as (_ & _ & _ & _ & _ & Hb & Hs).
  split.
  - rewrite (Hb [1] [] [] 1 [Spec.ipcErrorSentinel "boom"] []).
    + reflexivity.
    + left. reflexivity.
    + constructor.
  - apply Hs. discriminate.
Defined.

End BroadcasterExamples.

Section RuntimeFacts.
Import JsString Runtime.

(** C4 as stated fails on the invoker: a reply that is a sentinel is
    handed to the caller as the result, not turned into a rejection, and
    the rejections of the stub are those of [ipcRenderer.invoke], which
    come from no sentinel. *)
Lemma async_invoker_keeps_sentinel :
  fst (asyncInvokerCall "c" (Fulfilled (Spec.ipcErrorSentinel "boom")))
  = Fulfilled (Spec.ipcErrorSentinel "boom")
  /\ fst (asyncInvokerCall "c" (Fulfilled (Spec.ipcErrorSentinel "boom")))
     <> Rejected (JsError "boom")
  /\ fst (asyncInvokerCall "c" (Rejected (JsText "main is gone")))
     = Rejected (JsText "main is gone").
Proof. repeat split; try reflexivity. discriminate. Qed.



End RuntimeFacts.

(** ** Trimming, splitting and joining *)

Section TrimSplitJoin.
Import JsString.

Lemma trimStart_suffix (s : string) : Spec.suffixOf (trimStart s) s.
Proof.
  induction s as [|c s [p IH]]; simpl.
  - now exists "".
  - destruct (isSpace c).
    + exists (String c p). simpl. now rewrite <- IH.
    + now exists "".
Qed.

Lemma suffixOf_trans (a b c : string) :
  Spec.suffixOf a b -> Spec.suffixOf b c -> Spec.suffixOf a c.
Proof.
  intros [p ->] [q ->]. exists (q ++ p). now rewrite append_assoc.
Qed.

Lemma suffixOf_drop (n : nat) (s : string) : Spec.suffixOf (drop n s) s.
Proof. exists (take n s). symmetry. apply take_drop. Qed.

Lemma suffixOf_cons (c : ascii) (s : string) : Spec.suffixOf s (String c s).
Proof. now exists (String c ""). Qed.

Lemma suffixOf_take (r s : string) :
  Spec.suffixOf r s ->
  s = take (String.length s - String.length r) s ++ r.
Proof.
  intros [p ->]. rewrite length_append.
  replace (String.length p + String.length r - String.length r)
    with (String.length p) by lia.
  now rewrite take_append.
Qed.

Lemma spanWhile_split (p : ascii -> bool) (s a b : string) :
  Regex.spanWhile p s = (a, b) -> s = a ++ b.
Proof.
  revert a b; induction s as [|c s IH]; intros a b; simpl.
  - now intros [= <- <-].
  - destruct (p c).
    + destruct (Regex.spanWhile p s) as [a' b'].
      intros [= <- <-]. simpl. f_equal. now apply IH.
    + now intros [= <- <-].
Qed.

Lemma spanWhile_all (p : ascii -> bool) (s a b : string) :
  Regex.spanWhile p s = (a, b) -> allChars p a = true.
Proof.
  revert a b; induction s as [|c s IH]; intros a b; simpl.
  - now intros [= <- <-].
  - destruct (p c) eqn:E.
    + destruct (Regex.spanWhile p s) as [a' b'].
      intros [= <- <-]. simpl. rewrite E. simpl. eapply IH; eauto.
    + now intros [= <- <-].
Qed.

(** A span stops at the first character outside the class. *)
Lemma spanWhile_append (p : ascii -> bool) (a : string) (c : ascii)
      (rest : string) :
  allChars p a = true -> p c = false ->
  Regex.spanWhile p (a ++ String c rest) = (a, String c rest).
Proof.
  intros Ha Hc. induction a as [|x a IH]; simpl in *.
  - now rewrite Hc.
  - apply andb_true_iff in Ha as [-> Ha]. now rewrite IH.
Qed.

Lemma allChars_impl (p q : ascii -> bool) (s : string) :
  (forall c, p c = true -> q c = true) ->
  allChars p s = true -> allChars q s = true.
Proof.
  intros H. induction s as [|c s IH]; simpl; [reflexivity|].
  intros Hs. apply andb_true_iff in Hs as [Hc Hs].
  now rewrite (H _ Hc), IH.
Qed.

Lemma allChars_and (p q : ascii -> bool) (s : string) :
  allChars p s = true -> allChars q s = true ->
  allChars (fun c => p c && q c) s = true.
Proof.
  induction s as [|c s IH]; simpl; [reflexivity|].
  intros Hp Hq. apply andb_true_iff in Hp as [-> Hp].
  apply andb_true_iff in Hq as [-> Hq]. simpl. now apply IH.
Qed.

Lemma allChars_trimStart (p : ascii -> bool) (s : string) :
  allChars p s = true -> allChars p (trimStart s) = true.
Proof.
  induction s as [|c s IH]; simpl; [reflexivity|].
  intros H. destruct (isSpace c); [|exact H].
  apply andb_true_iff in H as [_ H]. now apply IH.
Qed.

Lemma allChars_trimEnd (p : ascii -> bool) (s : string) :
  allChars p s = true -> allChars p (trimEnd s) = true.
Proof.
  induction s as [|c s IH]; simpl; [reflexivity|].
  intros H. apply andb_true_iff in H as [Hc H]. specialize (IH H).
  destruct (trimEnd s) as [|d t].
  - destruct (isSpace c); simpl; [reflexivity | now rewrite Hc].
  - simpl in *. now rewrite Hc, IH.
Qed.

Lemma allChars_trim (p : ascii -> bool) (s : string) :
  allChars p s = true -> allChars p (trim s) = true.
Proof. intros H. now apply allChars_trimEnd, allChars_trimStart. Qed.

Lemma trimEnd_idem (s : string) : trimEnd (trimEnd s) = trimEnd s.
Proof.
  induction s as [|c s IH]; simpl; [reflexivity|].
  destruct (trimEnd s) as [|d t] eqn:E.
  - destruct (isSpace c) eqn:Ec; simpl; [reflexivity | now rewrite Ec].
  - simpl in *. now rewrite IH.
Qed.

(** A trimmed string does not start with a blank. *)
Lemma trimStart_head (s : string) :
  match trimStart s with
  | String c _ => isSpace c = false
  | EmptyString => True
  end.
Proof.
  induction s as [|c s IH]; simpl; [exact I|].
  destruct (isSpace c) eqn:E; [exact IH | exact E].
Qed.

Lemma trimEnd_head (c : ascii) (s : string) :
  trimEnd (String c s) = EmptyString
  \/ exists t, trimEnd (String c s) = String c t.
Proof.
  simpl. destruct (trimEnd s).
  - destruct (isSpace c); [now left | right; now eexists].
  - right. now eexists.
Qed.

Lemma trimStart_fixed (c : ascii) (s : string) :
  isSpace c = false -> trimStart (String c s) = String c s.
Proof. intros H. simpl. now rewrite H. Qed.

Lemma trim_trimStart (s : string) : trimStart (trim s) = trim s.
Proof.
  unfold trim. pose proof (trimStart_head s) as H.
  destruct (trimStart s) as [|c t]; [reflexivity|].
  destruct (trimEnd_head c t) as [->|[u ->]]; [reflexivity|].
  now apply trimStart_fixed.
Qed.

Lemma trim_trimEnd (s : string) : trimEnd (trim s) = trim s.
Proof. apply trimEnd_idem. Qed.

Lemma trimEnd_space (s : string) : trimEnd (s ++ " ") = trimEnd s.
Proof.
  induction s as [|c s IH]; simpl; [reflexivity|]. now rewrite IH.
Qed.

(** Splitting never gives an empty array. *)
Lemma split_nonempty (sep : ascii) (s : string) : split sep s <> [].
Proof.
  destruct s as [|c s]; simpl; [discriminate|].
  destruct (Ascii.eqb c sep); [discriminate|].
  destruct (split sep s); discriminate.
Qed.

Let notComma := Spec.notComma.

Lemma split_plain (s : string) :
  allChars notComma s = true -> split "," s = [s].
Proof.
  induction s as [|c s IH]; simpl; [reflexivity|].
  intros H. apply andb_true_iff in H as [Hc H].
  unfold notComma, Spec.notComma in Hc. apply negb_true_iff in Hc. rewrite Hc.
  now rewrite IH.
Qed.

Lemma split_append (a s : string) :
  allChars notComma a = true ->
  split "," (a ++ String "," s) = a :: split "," s.
Proof.
  induction a as [|c a IH]; simpl; [reflexivity|].
  intros H. apply andb_true_iff in H as [Hc H].
  unfold notComma, Spec.notComma in Hc. apply negb_true_iff in Hc. rewrite Hc.
  now rewrite IH.
Qed.

(** The parts of a split hold no comma. *)
Lemma split_parts_plain (p : ascii -> bool) (s : string) :
  allChars p s = true ->
  Forall (fun part => allChars p part = true) (split "," s).
Proof.
  induction s as [|c s IH]; simpl; intros H.
  - repeat constructor.
  - apply andb_true_iff in H as [Hc H]. specialize (IH H).
    destruct (Ascii.eqb c ","); [constructor; auto|].
    destruct (split "," s) as [|w ws]; [repeat constructor; simpl;
                                         now rewrite Hc|].
    inversion IH; subst. constructor; auto. simpl. now rewrite Hc.
Qed.

Lemma split_parts_notComma (s : string) :
  Forall (fun part => allChars notComma part = true) (split "," s).
Proof.
  induction s as [|c s IH]; simpl.
  - repeat constructor.
  - destruct (Ascii.eqb c ",") eqn:E; [constructor; auto|].
    destruct (split "," s) as [|w ws];
      [repeat constructor; simpl; unfold notComma, Spec.notComma;
       now rewrite E|].
    inversion IH; subst. constructor; auto. simpl.
    unfold notComma, Spec.notComma. now rewrite E.
Qed.
End TrimSplitJoin.


(** ** The chunks after edits laid out in order *)

Section Splice.
Import JsString MagicString.
Variable source : string.

Let len := String.length source.
Let pristine := Spec.pristine source.
Let rewritten := Spec.rewritten source.
Let chunksOf := Spec.chunksOf source.
Let laidOut := Spec.laidOut len.

(** A chunk that ends before the span is left alone. *)
Lemma overwriteChunks_skip s e text c cs :
  c_start c < c_end c -> c_end c <= s -> s < e ->
  Spec.overwriteChunks s e text (c :: cs)
  = option_map (cons c) (Spec.overwriteChunks s e text cs).
Proof.
  intros Hc Hs He. unfold Spec.overwriteChunks. cbn [splitAt].
  unfold contains. decide_tests. cbn [andb].
  rewrite ?andb_false_r.
  destruct (splitAt s cs) as [cs1|]; [|reflexivity].
  cbn [option_map splitAt]. unfold contains. decide_tests.
  rewrite ?andb_false_r.
  destruct (splitAt e cs1) as [cs2|]; [|reflexivity].
  cbn [option_map editRange map]. decide_tests. reflexivity.
Qed.

(** Chunks that start after the span are left alone. *)
Let beyond := Spec.beyond.

Lemma splitAt_beyond i q cs :
  i <= q -> beyond q cs -> splitAt i cs = Some cs.
Proof.
  intros Hi. induction 1 as [|c cs [Hc1 Hc2] HF IH]; [reflexivity|].
  cbn [splitAt]. unfold contains. decide_tests. cbn [andb].
  now rewrite IH.
Qed.

Lemma editRange_beyond s e text q cs :
  s < e -> e <= q -> beyond q cs -> editRange s e text cs = cs.
Proof.
  intros Hs He. induction 1 as [|c cs [Hc1 Hc2] HF IH]; [reflexivity|].
  unfold editRange in *. cbn [map]. decide_tests.
  rewrite ?andb_false_r. now rewrite IH.
Qed.

Lemma splitAt_inside i p q tail :
  p < i -> i < q ->
  splitAt i (pristine p q :: tail)
  = Some (pristine p i :: pristine i q :: tail).
Proof.
  intros Hp Hq. unfold pristine, Spec.pristine. cbn [splitAt].
  unfold contains, splitChunk.
  cbn [c_start c_end c_edited c_original c_intro c_outro c_content].
  decide_tests. cbn [andb].
  rewrite slice_prefix by lia. rewrite drop_slice.
  now replace (p + (i - p)) with i by lia.
Qed.

Lemma splitAt_outside i c tail :
  i <= c_start c \/ c_end c <= i ->
  splitAt i (c :: tail) = option_map (cons c) (splitAt i tail).
Proof.
  intros H. cbn [splitAt]. unfold contains.
  destruct H; decide_tests; rewrite ?andb_false_r; reflexivity.
Qed.

Lemma editRange_before s e text c cs :
  c_start c < s ->
  editRange s e text (c :: cs) = c :: editRange s e text cs.
Proof.
  intros H. unfold editRange. cbn [map]. decide_tests. reflexivity.
Qed.

Lemma editRange_at s e text q cs :
  s < e ->
  editRange s e text (pristine s q :: cs)
  = rewritten s q text :: editRange s e text cs.
Proof.
  intros H. unfold editRange, pristine, Spec.pristine. cbn [map c_start].
  rewrite Nat.eqb_refl. reflexivity.
Qed.

Lemma beyond_cons q c cs :
  q <= c_start c -> c_start c < c_end c -> beyond (c_end c) cs ->
  beyond q (c :: cs).
Proof.
  intros H1 H2 H3. constructor; [split; assumption|].
  eapply Forall_impl; [|exact H3]. simpl. intros a [Ha1 Ha2]. lia.
Qed.

(** Overwriting inside a chunk no edit touched. *)
Lemma overwriteChunks_hit s e text p q tail :
  p <= s -> s < e -> e <= q -> q <= len -> beyond q tail ->
  Spec.overwriteChunks s e text (pristine p q :: tail)
  = Some ((if Nat.ltb p s then [pristine p s] else [])
          ++ rewritten s e text
          :: (if Nat.ltb e q then [pristine e q] else []) ++ tail)%list.
Proof.
  intros Hp Hs He Hq Ht. unfold Spec.overwriteChunks.
  assert (Htail : forall i, i <= q -> splitAt i tail = Some tail).
  { intros i Hi. eapply splitAt_beyond; eauto. }
  assert (Hedit : editRange s e text tail = tail).
  { eapply editRange_beyond; eauto. }
  assert (Hpe : forall a b, c_start (pristine a b) = a
                            /\ c_end (pristine a b) = b)
    by (intros; split; reflexivity).
  destruct (Nat.eq_dec p s) as [->|Hps];
    destruct (Nat.eq_dec e q) as [->|Heq]; decide_tests; cbn [app].
  - rewrite splitAt_outside by (left; simpl; lia).
    rewrite Htail by lia. cbn [option_map].
    rewrite splitAt_outside by (right; simpl; lia).
    rewrite Htail by lia. cbn [option_map].
    now rewrite editRange_at, Hedit.
  - rewrite splitAt_outside by (left; simpl; lia).
    rewrite Htail by lia. cbn [option_map].
    rewrite splitAt_inside by lia.
    rewrite editRange_at by lia.
    rewrite (editRange_beyond s e text e); auto.
    apply beyond_cons; simpl; auto; lia.
  - rewrite splitAt_inside by lia.
    rewrite splitAt_outside by (right; simpl; lia).
    rewrite splitAt_outside by (right; simpl; lia).
    rewrite Htail by lia. cbn [option_map].
    rewrite editRange_before by (simpl; lia).
    now rewrite editRange_at, Hedit.
  - rewrite splitAt_inside by lia.
    rewrite splitAt_outside by (right; simpl; lia).
    rewrite splitAt_inside by lia. cbn [option_map].
    rewrite editRange_before by (simpl; lia).
    rewrite editRange_at by lia.
    rewrite (editRange_beyond s e text e); auto.
    apply beyond_cons; simpl; auto; lia.
Qed.

Lemma chunksOf_beyond edits : forall q,
  laidOut q edits -> beyond q (chunksOf q edits).
Proof.
  unfold laidOut in *.
  induction edits as [|[[s e] text] rest IH]; intros q H;
    cbn [chunksOf Spec.chunksOf].
  - destruct (Nat.ltb q (String.length source)) eqn:E; [|constructor].
    apply Nat.ltb_lt in E.
    constructor; [split; simpl | constructor]; clear - E; lia.
  - destruct H as (H1 & H2 & H3 & H4). specialize (IH _ H4).
    assert (Hr : forall q', q' <= s ->
                 beyond q' (rewritten s e text :: chunksOf e rest)).
    { intros q' Hq'. apply beyond_cons; simpl; auto. }
    destruct (Nat.ltb q s) eqn:E; [|now apply Hr].
    apply Nat.ltb_lt in E. cbn [app].
    apply beyond_cons; simpl; auto.
Qed.

(** An edit inserted among edits laid out from [q] starts at [q] or
    after. *)
Lemma laidOut_insert_start x edits : forall q,
  laidOut q (Spec.insertEdit x edits) -> q <= fst (fst x).
Proof.
  unfold laidOut. destruct x as [[s e] text].
  induction edits as [|[[s1 e1] t1] rest IH]; intros q H;
    cbn [Spec.insertEdit fst snd] in *.
  - simpl in H. tauto.
  - destruct (Nat.leb e s1).
    + simpl in H. tauto.
    + destruct H as (H1 & H2 & H3 & H4). specialize (IH _ H4). lia.
Qed.

(** [overwrite] on the chunks of laid-out edits inserts its edit. *)
Lemma overwriteChunks_chunksOf s e text edits : forall p,
  laidOut p (Spec.insertEdit (s, e, text) edits) ->
  Spec.overwriteChunks s e text (chunksOf p edits)
  = Some (chunksOf p (Spec.insertEdit (s, e, text) edits)).
Proof.
  unfold laidOut in *.
  induction edits as [|[[s1 e1] t1] rest IH]; intros p H;
    cbn [Spec.insertEdit fst snd] in *.
  - destruct H as (H1 & H2 & H3 & H4).
    cbn [chunksOf Spec.chunksOf]. fold len. decide_tests.
    fold pristine rewritten.
    rewrite overwriteChunks_hit by (auto; try lia; constructor).
    now rewrite app_nil_r.
  - destruct (Nat.leb e s1) eqn:E.
    + apply Nat.leb_le in E.
      destruct H as (H1 & H2 & H3 & H4 & H5 & H6 & H7).
      cbn [chunksOf Spec.chunksOf]. fold chunksOf pristine rewritten.
      decide_tests. cbn [app].
      rewrite overwriteChunks_hit; auto; try lia.
      apply beyond_cons; simpl; auto.
      apply chunksOf_beyond. exact H7.
    + apply Nat.leb_gt in E.
      destruct H as (H1 & H2 & H3 & H4).
      pose proof (laidOut_insert_start _ _ _ H4) as Hs. simpl in Hs.
      assert (Hlt : s < e).
      { clear - H4. revert H4. generalize e1.
        induction rest as [|[[s2 e2] t2] rest IH]; intros q H;
          cbn [Spec.insertEdit fst snd] in H.
        - simpl in H. tauto.
        - destruct (Nat.leb e s2); simpl in H; [tauto|].
          destruct H as (_ & _ & _ & H). eauto. }
      cbn [chunksOf Spec.chunksOf]. fold chunksOf pristine rewritten.
      destruct (Nat.ltb p s1) eqn:Ep; cbn [app].
      * apply Nat.ltb_lt in Ep.
        rewrite overwriteChunks_skip by (simpl; lia).
        rewrite overwriteChunks_skip by (simpl; lia).
        rewrite IH by assumption. reflexivity.
      * rewrite overwriteChunks_skip by (simpl; lia).
        rewrite IH by assumption. reflexivity.
Qed.

Lemma chunksToString_cons c cs :
  chunksToString (c :: cs) = chunkToString c ++ chunksToString cs.
Proof. reflexivity. Qed.

Lemma chunkToString_pristine a b :
  chunkToString (pristine a b) = slice a b source.
Proof. unfold chunkToString. cbn. apply append_nil_r. Qed.

Lemma chunkToString_rewritten a b text :
  chunkToString (rewritten a b text) = text.
Proof. unfold chunkToString. cbn. apply append_nil_r. Qed.

(** The text of the chunks of laid-out edits. *)
Lemma chunksOf_toString edits : forall p,
  laidOut p edits ->
  chunksToString (chunksOf p edits) = Spec.splice source p edits.
Proof.
  unfold laidOut in *.
  induction edits as [|[[s e] text] rest IH]; intros p H;
    cbn [chunksOf Spec.chunksOf Spec.splice];
    fold chunksOf pristine rewritten.
  - simpl in H. fold len.
    destruct (Nat.ltb p len) eqn:E.
    + rewrite chunksToString_cons, chunkToString_pristine. cbn.
      rewrite append_nil_r.
      unfold slice. apply take_all. rewrite length_drop. fold len. lia.
    + apply Nat.ltb_ge in E. cbn. symmetry. apply drop_all. fold len. lia.
  - destruct H as (H1 & H2 & H3 & H4).
    destruct (Nat.ltb p s) eqn:E; cbn [app].
    + rewrite !chunksToString_cons, chunkToString_pristine,
        chunkToString_rewritten, IH by assumption. reflexivity.
    + apply Nat.ltb_ge in E. replace s with p by lia.
      rewrite !chunksToString_cons, chunkToString_rewritten, IH
        by assumption.
      unfold slice. now rewrite Nat.sub_diag.
Qed.
End Splice.

(** ** What the transform returns in the replacing cells *)

Section Replacing.
Import JsString Plugin.
Variable context : Context.
Variable source id : string.

Let len := String.length source.

Lemma laidOut_insert_span x edits : forall q,
  Spec.laidOut len q (Spec.insertEdit x edits) ->
  fst (fst x) < snd (fst x) /\ snd (fst x) <= len.
Proof.
  destruct x as [[s e] text].
  induction edits as [|[[s1 e1] t1] rest IH]; intros q H;
    cbn [Spec.insertEdit fst snd] in *.
  - simpl in H. tauto.
  - destruct (Nat.leb e s1); simpl in H; [tauto|].
    destruct H as (_ & _ & _ & H). eauto.
Qed.

Lemma laidOut_insert_remove x edits : forall q,
  Spec.laidOut len q (Spec.insertEdit x edits) -> Spec.laidOut len q edits.
Proof.
  destruct x as [[s e] text].
  induction edits as [|[[s1 e1] t1] rest IH]; intros q H;
    cbn [Spec.insertEdit fst snd] in *.
  - simpl in *. lia.
  - destruct (Nat.leb e s1) eqn:E.
    + apply Nat.leb_le in E. simpl in *. repeat split; try tauto; lia.
    + simpl in *. destruct H as (H1 & H2 & H3 & H4).
      repeat split; auto.
Qed.

Lemma laidOut_prefix a : forall q x b,
  Spec.laidOut len q (a ++ x :: b)%list ->
  Spec.laidOut len q (a ++ [x])%list.
Proof.
  induction a as [|[[s e] text] a IH]; intros q [[s1 e1] t1] b H;
    simpl in *.
  - tauto.
  - destruct H as (H1 & H2 & H3 & H4). repeat split; auto. eauto.
Qed.

(** An edit that comes last in span order is inserted last. *)
Lemma insertEdit_last a : forall q x,
  Spec.laidOut len q (a ++ [x])%list ->
  Spec.insertEdit x a = (a ++ [x])%list.
Proof.
  induction a as [|[[s e] text] a IH]; intros q [[s1 e1] t1] H;
    [reflexivity|].
  cbn [app Spec.insertEdit fst snd].
  simpl in H. destruct H as (H1 & H2 & H3 & H4).
  assert (Hs : e <= s1).
  { clear - H4. revert H4. generalize e.
    induction a as [|[[s2 e2] t2] a IH]; intros q H; simpl in H.
    - tauto.
    - destruct H as (H1 & H2 & H3 & H4). specialize (IH _ H4). lia. }
  assert (Hlt : s1 < e1).
  { clear - H4. revert H4. generalize e.
    induction a as [|[[s2 e2] t2] a IH]; intros q H; simpl in H.
    - tauto.
    - destruct H as (H1 & H2 & H3 & H4). eauto. }
  decide_tests. f_equal. eapply IH. exact H4.
Qed.

(** [overwrite] on a string whose chunks stand for laid-out edits. *)
Lemma overwrite_chunksOf s e text edits ms :
  MagicString.original ms = source ->
  MagicString.chunks ms = Spec.chunksOf source 0 edits ->
  Spec.laidOut len 0 (Spec.insertEdit (s, e, text) edits) ->
  MagicString.overwrite s e text ms
  = Some (MagicString.mk
            source (MagicString.intro ms) (MagicString.outro ms)
            (Spec.chunksOf source 0
                           (Spec.insertEdit (s, e, text) edits))).
Proof.
  intros Ho Hc Hl.
  destruct (laidOut_insert_span _ _ _ Hl) as [Hse He]. simpl in Hse, He.
  pose proof (overwriteChunks_chunksOf source s e text edits 0 Hl) as H.
  unfold Spec.overwriteChunks in H.
  unfold MagicString.overwrite. rewrite Ho, Hc. fold len.
  decide_tests.
  destruct (MagicString.splitAt s _) as [cs1|]; [|discriminate].
  destruct (MagicString.splitAt e cs1) as [cs2|]; [|discriminate].
  now inversion H.
Qed.

Hypothesis replacing : Spec.registersLocally context id = false.

Lemma transformFunctions_replace fns : forall edits ms needed,
  MagicString.original ms = source ->
  MagicString.chunks ms = Spec.chunksOf source 0 edits ->
  Spec.laidOut len 0 (edits ++ map (Spec.stubEdit context id) fns)%list ->
  transformFunctions context id (ms, needed) fns
  = Some (MagicString.mk
            source (MagicString.intro ms) (MagicString.outro ms)
            (Spec.chunksOf
               source 0
               (edits ++ map (Spec.stubEdit context id) fns)%list),
          fold_left (fun set _ => setAdd (Spec.symbolOf context id) set)
                    fns needed).
Proof.
  induction fns as [|fn fns IH]; intros edits ms needed Ho Hc Hl;
    cbn [transformFunctions map fold_left].
  - rewrite app_nil_r, <- Hc, <- Ho. now destruct ms.
  - rewrite transformFunction_replaces by assumption.
    pose proof (laidOut_prefix _ _ _ _ Hl) as Hl1.
    pose proof (insertEdit_last _ _ _ Hl1) as Hins.
    unfold Spec.stubEdit at 1 in Hins.
    rewrite (overwrite_chunksOf _ _ _ edits) by
      (auto; rewrite Hins; exact Hl1).
    cbn [option_map]. rewrite Hins.
    rewrite (IH (edits ++ [Spec.stubEdit context id fn])%list);
      cbn [MagicString.original MagicString.chunks
           MagicString.intro MagicString.outro]; auto.
    + now rewrite <- app_assoc.
    + now rewrite <- app_assoc.
Qed.

Variable sourceFile : Ts.SourceFile.

Let stubs := map (Spec.stubEdit context id) (extract source sourceFile).

(** In a replacing cell, when the spans are laid out in order, the code
    returned is the original text with every span replaced by its
    stub, after a new import when the file has none from electron, or
    with the first such import rewritten in its place. *)
Lemma replacing_output :
  extract source sourceFile <> [] ->
  match importNodes sourceFile with
  | [] =>
      Spec.laidOut len 0 stubs ->
      transform context source id sourceFile
      = Code ("import { " ++ Spec.symbolOf context id
                          ++ " } from 'electron';" ++ nl
              ++ Spec.splice source 0 stubs)
  | (a, b) :: _ =>
      forall text,
        mergeImportText [Spec.symbolOf context id] (slice a b source)
        = Rewrite text ->
        Spec.laidOut len 0 (Spec.insertEdit (a, b, text) stubs) ->
        transform context source id sourceFile
        = Code (Spec.splice source 0 (Spec.insertEdit (a, b, text) stubs))
  end.
Proof.
  intros Hne. unfold transform, stubs.
  destruct (extract source sourceFile) as [|fn fns] eqn:E;
    [congruence|].
  assert (Hrun : Spec.laidOut len 0
                   (map (Spec.stubEdit context id) (fn :: fns)) ->
                 transformFunctions context id
                   (MagicString.create source, []) (fn :: fns)
                 = Some (MagicString.mk
                           source "" ""
                           (Spec.chunksOf
                              source 0
                              (map (Spec.stubEdit context id) (fn :: fns))),
                         [Spec.symbolOf context id])).
  { intros Hl.
    assert (Hpos : 0 < len).
    { simpl in Hl. lia. }
    rewrite (transformFunctions_replace _ []); auto.
    - now rewrite needed_after by discriminate.
    - unfold MagicString.create, len in *.
      cbn [MagicString.chunks Spec.chunksOf].
      decide_tests. unfold Spec.pristine.
      now rewrite slice_full. }
  destruct (importNodes sourceFile) as [|[a b] rest] eqn:Ei.
  - intros Hl. rewrite (Hrun Hl). unfold mergeImports. rewrite Ei.
    assert (Ht : truthy (join ", " [Spec.symbolOf context id]) = true).
    { unfold Spec.symbolOf.
      destruct context; [destruct (isMainIpcFile id)|]; reflexivity. }
    rewrite Ht. unfold MagicString.prepend, MagicString.toString.
    cbn [MagicString.intro MagicString.outro MagicString.chunks join].
    rewrite (chunksOf_toString source) by exact Hl.
    now rewrite !append_nil_r, !append_assoc.
  - intros text Hm Hl.
    rewrite (Hrun (laidOut_insert_remove _ _ _ Hl)).
    unfold mergeImports. rewrite Ei, Hm.
    rewrite (overwrite_chunksOf a b text
               (map (Spec.stubEdit context id) (fn :: fns))); auto.
    unfold MagicString.toString.
    cbn [MagicString.intro MagicString.outro MagicString.chunks].
    rewrite (chunksOf_toString source) by exact Hl.
    now rewrite append_nil_r.
Qed.
End Replacing.


(** ** The import merge *)

Section ImportMerge.
Import JsString Plugin.

Lemma quotedElectron_suffix (s rest : string) :
  Regex.quotedElectron s = Some rest -> Spec.suffixOf rest s.
Proof.
  unfold Regex.quotedElectron. destruct s as [|q s]; [discriminate|].
  destruct (Regex.isQuote q && startsWith "electron" s); [|discriminate].
  destruct (drop 8 s) as [|q' r] eqn:E; [discriminate|].
  destruct (Regex.isQuote q'); [|discriminate]. intros [= <-].
  eapply suffixOf_trans; [|apply suffixOf_cons].
  eapply suffixOf_trans; [apply suffixOf_cons|].
  rewrite <- E. apply suffixOf_drop.
Qed.

(** What the named-import pattern leaves is a suffix of the text, and
    the group it captures holds no closing brace. *)
Lemma namedImportAt_suffix (s group rest : string) :
  Regex.namedImportAt s = Some (group, rest) ->
  Spec.suffixOf rest s /\ allChars Spec.notBrace group = true.
Proof.
  unfold Regex.namedImportAt.
  destruct (startsWith "import" s); [|discriminate].
  destruct (trimStart (drop 6 s)) as [|b s2] eqn:E1; [discriminate|].
  destruct (Ascii.eqb_spec b "{"%char) as [->|Hb].
  2:{ destruct b as [[] [] [] [] [] [] [] []]; try discriminate.
      now elim Hb. }
  destruct (Regex.spanWhile _ (trimStart s2)) as [g s3] eqn:E2.
  destruct s3 as [|c s4]; [discriminate|].
  destruct (startsWith "from" (trimStart s4)); [|discriminate].
  destruct (Regex.quotedElectron _) as [r|] eqn:E3; [|discriminate].
  simpl. intros [= <- <-]. split.
  - apply quotedElectron_suffix in E3.
    eapply suffixOf_trans; [exact E3|].
    eapply suffixOf_trans; [apply trimStart_suffix|].
    eapply suffixOf_trans; [apply suffixOf_drop|].
    eapply suffixOf_trans; [apply trimStart_suffix|].
    eapply suffixOf_trans; [apply suffixOf_cons|].
    apply spanWhile_split in E2.
    eapply suffixOf_trans; [exists g; exact E2|].
    eapply suffixOf_trans; [apply trimStart_suffix|].
    eapply suffixOf_trans; [apply suffixOf_cons|].
    rewrite <- E1.
    eapply suffixOf_trans; [apply trimStart_suffix|].
    apply suffixOf_drop.
  - eapply spanWhile_all. exact E2.
Qed.

Lemma search_at_start at_ (s group rest : string) :
  at_ s = Some (group, rest) ->
  Regex.search at_ s
  = Some (Regex.mkMatch
            0 (take (String.length s - String.length rest) s) group).
Proof. intros H. destruct s; simpl; now rewrite H. Qed.

(** A replacement without a dollar sign stands for itself. *)
Lemma expand_plain matched before after groups template :
  allChars Spec.notDollar template = true ->
  Regex.expand matched before after groups template = template.
Proof.
  induction template as [|c t IH]; simpl; [reflexivity|].
  intros H. apply andb_true_iff in H as [Hc H].
  unfold Spec.notDollar in Hc. apply negb_true_iff in Hc. rewrite Hc.
  now rewrite IH.
Qed.

Lemma replaceString_prefix (pattern replacement rest : string) :
  allChars Spec.notDollar replacement = true ->
  Regex.replaceString pattern replacement (pattern ++ rest)
  = replacement ++ rest.
Proof.
  intros H. unfold Regex.replaceString.
  rewrite indexOf_prefix. simpl.
  now rewrite expand_plain, drop_append.
Qed.

Lemma allChars_join (p : ascii -> bool) (sep : string) (ns : list string) :
  allChars p sep = true ->
  Forall (fun n => allChars p n = true) ns ->
  allChars p (join sep ns) = true.
Proof.
  intros Hsep. induction 1 as [|n ns Hn Hns IH]; simpl; [reflexivity|].
  destruct ns as [|n' ns']; [exact Hn|].
  now rewrite !allChars_append, Hn, Hsep, IH.
Qed.

(** The names of a group are clean when the group holds no dollar. *)
Lemma namesOf_clean (group : string) :
  allChars Spec.notBrace group = true ->
  allChars Spec.notDollar group = true ->
  Forall Spec.cleanName (Spec.namesOf group).
Proof.
  intros Hb Hd. unfold Spec.namesOf.
  apply Forall_forall. intros n Hn.
  apply filter_In in Hn as [Hn Ht].
  apply in_map_iff in Hn as (part & <- & Hpart).
  pose proof (split_parts_plain _ _ Hb) as H1.
  pose proof (split_parts_plain _ _ Hd) as H2.
  pose proof (split_parts_notComma group) as H3.
  rewrite Forall_forall in H1, H2, H3.
  specialize (H1 _ Hpart). specialize (H2 _ Hpart).
  specialize (H3 _ Hpart).
  repeat split.
  - intros E. now rewrite E in Ht.
  - apply trim_trimStart.
  - apply trim_trimEnd.
  - apply allChars_trim. unfold Spec.plainChar.
    apply allChars_and; [apply allChars_and|]; assumption.
Qed.

Lemma length_trimStart (s : string) :
  String.length (trimStart s) <= String.length s.
Proof.
  destruct (trimStart_suffix s) as [p H].
  rewrite H at 2. rewrite length_append. lia.
Qed.

Lemma clean_head (n : string) :
  Spec.cleanName n ->
  exists c n', n = String c n' /\ isSpace c = false.
Proof.
  intros (Hne & Hs & _ & _). destruct n as [|c n']; [congruence|].
  exists c, n'. split; [reflexivity|].
  simpl in Hs. destruct (isSpace c); [|reflexivity].
  pose proof (length_trimStart n') as Hl. rewrite Hs in Hl.
  simpl in Hl. lia.
Qed.

Lemma clean_trim (n : string) : Spec.cleanName n -> trim n = n.
Proof. intros (_ & Hs & He & _). unfold trim. now rewrite Hs. Qed.

Lemma clean_chars (p : ascii -> bool) (n : string) :
  (forall c, Spec.plainChar c = true -> p c = true) ->
  Spec.cleanName n -> allChars p n = true.
Proof.
  intros Hp (_ & _ & _ & H). eapply allChars_impl; eauto.
Qed.

Lemma plain_notComma c : Spec.plainChar c = true -> Spec.notComma c = true.
Proof.
  unfold Spec.plainChar, Spec.notComma.
  now destruct (Ascii.eqb c ","%char).
Qed.

Lemma plain_notBrace c : Spec.plainChar c = true -> Spec.notBrace c = true.
Proof.
  unfold Spec.plainChar, Spec.notBrace.
  destruct (Ascii.eqb c "}"%char); [|reflexivity].
  now rewrite andb_false_r.
Qed.

Lemma plain_notDollar c :
  Spec.plainChar c = true -> Spec.notDollar c = true.
Proof.
  unfold Spec.plainChar, Spec.notDollar.
  destruct (Ascii.eqb c "$"%char); [|reflexivity].
  now rewrite andb_false_r.
Qed.

Lemma trim_clean_space (n : string) :
  Spec.cleanName n -> trim (n ++ " ") = n.
Proof.
  intros Hn. destruct (clean_head _ Hn) as (c & n' & -> & Hc).
  destruct Hn as (_ & _ & He & _).
  unfold trim. cbn [append]. rewrite trimStart_fixed by assumption.
  change (String c (n' ++ " ")) with (String c n' ++ " ").
  now rewrite trimEnd_space.
Qed.

(** Reading back the names of a rebuilt list gives the list. *)
Lemma names_roundtrip (ns : list string) :
  ns <> [] -> Forall Spec.cleanName ns ->
  Spec.namesOf (join ", " ns ++ " ") = ns.
Proof.
  induction ns as [|x ns IH]; [congruence|]. intros _ HF.
  inversion HF as [|? ? Hx Hns]; subst.
  pose proof (clean_chars _ _ plain_notComma Hx) as Hcomma.
  destruct ns as [|y r].
  - unfold Spec.namesOf. simpl join.
    rewrite split_plain
      by (rewrite allChars_append; now rewrite Hcomma).
    simpl. rewrite trim_clean_space by assumption.
    destruct x; [now destruct Hx | reflexivity].
  - specialize (IH ltac:(discriminate) Hns).
    change (join ", " (x :: y :: r))
      with (x ++ ", " ++ join ", " (y :: r)).
    rewrite !append_assoc. cbn [append].
    unfold Spec.namesOf in *. rewrite split_append by assumption.
    cbn [split]. change (Ascii.eqb " " ",") with false. cbv iota.
    destruct (split "," (join ", " (y :: r) ++ " ")) as [|w ws] eqn:E;
      [now apply split_nonempty in E|].
    cbn [map filter] in *.
    rewrite (clean_trim _ Hx).
    replace (truthy x) with true
      by (destruct x; [now destruct Hx | reflexivity]).
    f_equal. exact IH.
Qed.

(** The rebuilt import is again of the named form, and its group is the
    rebuilt list. *)
Lemma namedImportAt_merged (ns : list string) (rest : string) :
  ns <> [] -> Forall Spec.cleanName ns ->
  Regex.namedImportAt
    ("import { " ++ join ", " ns ++ " } from 'electron'" ++ rest)
  = Some (join ", " ns ++ " ", rest).
Proof.
  intros Hne HF.
  assert (Hb : allChars Spec.notBrace (join ", " ns ++ " ") = true).
  { rewrite allChars_append. rewrite allChars_join; auto.
    eapply Forall_impl; [|exact HF].
    intros n Hn. exact (clean_chars _ _ plain_notBrace Hn). }
  assert (Hhead : exists c t, join ", " ns = String c t
                              /\ isSpace c = false).
  { destruct ns as [|x ns]; [congruence|].
    inversion HF as [|? ? Hx _]; subst.
    destruct (clean_head _ Hx) as (c & x' & -> & Hc).
    destruct ns; simpl; eauto. }
  destruct Hhead as (c & t & Ej & Hc).
  rewrite Ej in *.
  assert (Hspan :
           forall R,
             Regex.spanWhile Spec.notBrace
                             (String c (t ++ String " " (String "}" R)))
             = (String c t ++ " ", String "}" R)).
  { intros R. rewrite <- (spanWhile_append _ _ _ R Hb) by reflexivity.
    simpl. now rewrite append_assoc. }
  unfold Regex.namedImportAt. simpl. rewrite Hc.
  change (fun c0 : ascii => negb (Ascii.eqb c0 "}"%char))
    with Spec.notBrace.
  rewrite Hspan. reflexivity.
Qed.

Lemma symbol_clean context id : Spec.cleanName (Spec.symbolOf context id).
Proof.
  unfold Spec.symbolOf.
  destruct context; [destruct (isMainIpcFile id)|];
    repeat split; discriminate.
Qed.

Lemma includes_In x xs : includes x xs = true <-> In x xs.
Proof.
  unfold includes. rewrite existsb_exists. split.
  - intros (y & Hy & E). apply String.eqb_eq in E. now subst.
  - intros H. exists x. split; [exact H | apply String.eqb_refl].
Qed.

(** The replacement of line 398 on a match whose group is [g]. *)
Lemma expand_default context id matched before after g :
  Regex.expand matched before after [g]
               ("import $1, { " ++ join ", " [Spec.symbolOf context id]
                                ++ " } from 'electron'")
  = "import " ++ g ++ ", { " ++ Spec.symbolOf context id
              ++ " } from 'electron'".
Proof.
  unfold Spec.symbolOf.
  destruct context; [destruct (isMainIpcFile id)|]; reflexivity.
Qed.

(** The named form.  With the symbol the generated code of the cell
    refers to: when the text of the first electron import starts with
    the named form and its group holds no dollar sign, the merge
    rewrites the form to list the names it had, in their order,
    followed by the symbol when it was not among them, and keeps what
    follows the form; the symbol is then listed, no name is listed
    twice when none was, and merging the rewritten text again changes
    nothing.  When the text is of no named form, the merged text holds
    a named import of the symbol.  When the file has no electron
    import, one named import of the symbol is put in front, and the
    merge of that statement changes nothing. *)
Theorem import_merge_named_is_idempotent :
  forall context id,
    let symbol := Spec.symbolOf context id in
    (forall importText group rest,
        Regex.namedImportAt importText = Some (group, rest) ->
        allChars Spec.notDollar group = true ->
        let existing := Spec.namesOf group in
        let names := if includes symbol existing then existing
                     else (existing ++ [symbol])%list in
        let merged :=
          "import { " ++ join ", " names ++ " } from 'electron'" ++ rest in
        mergeImportText [symbol] importText = Rewrite merged
        /\ In symbol names
        /\ (NoDup existing -> NoDup names)
        /\ mergeImportText [symbol] merged = Rewrite merged)
    /\ (forall importText,
           Regex.search Regex.namedImportAt importText = None ->
           Spec.occursIn ("{ " ++ symbol ++ " } from 'electron'")
                         (Spec.mergedImport [symbol] importText))
    /\ (forall source sourceFile magicStr,
           importNodes sourceFile = [] ->
           mergeImports source sourceFile [symbol] magicStr
           = Some (MagicString.prepend
                     ("import { " ++ symbol ++ " } from 'electron';" ++ nl)
                     magicStr))
    /\ mergeImportText [symbol]
                       ("import { " ++ symbol ++ " } from 'electron';")
       = Rewrite ("import { " ++ symbol ++ " } from 'electron';").
Proof.
  intros context id symbol.
  pose proof (symbol_clean context id) as Hsym. fold symbol in Hsym.
  assert (Hmerge :
           forall names rest text,
             names <> [] -> Forall Spec.cleanName names ->
             includes symbol names = true ->
             Regex.namedImportAt text
             = Some (join ", " names ++ " ", rest) ->
             mergeImportText [symbol] text
             = Rewrite ("import { " ++ join ", " names
                                    ++ " } from 'electron'" ++ rest)).
  { intros names rest text Hne Hclean Hinc Hat.
    unfold mergeImportText.
    rewrite (search_at_start _ _ _ _ Hat).
    cbn [Regex.m_group Regex.m_text].
    change (filter truthy (map trim (split "," ?g)))
      with (Spec.namesOf g).
    rewrite names_roundtrip by assumption.
    unfold addMissing. cbn [fold_left]. rewrite Hinc.
    destruct (namedImportAt_suffix _ _ _ Hat) as [Hsuf _].
    pose proof (suffixOf_take _ _ Hsuf) as Etext.
    set (matched := take _ text) in *. clearbody matched.
    rewrite Etext. rewrite replaceString_prefix.
    - now rewrite !append_assoc.
    - rewrite !allChars_append. rewrite allChars_join; auto.
      eapply Forall_impl; [|exact Hclean].
      intros n Hn. exact (clean_chars _ _ plain_notDollar Hn). }
  split; [|split; [|split]].
  - intros importText group rest Hat Hd existing names merged.
    destruct (namedImportAt_suffix _ _ _ Hat) as [Hsuf Hb].
    pose proof (namesOf_clean _ Hb Hd) as Hex. fold existing in Hex.
    assert (Hnames : Forall Spec.cleanName names).
    { unfold names. destruct (includes symbol existing); auto.
      apply Forall_app. split; auto. }
    assert (Hin : In symbol names).
    { unfold names. destruct (includes symbol existing) eqn:E.
      - now apply includes_In.
      - apply in_or_app. right. now left. }
    assert (Hne : names <> []) by (intros E; rewrite E in Hin; destruct Hin).
    split; [|split; [exact Hin|split]].
    + unfold mergeImportText.
      rewrite (search_at_start _ _ _ _ Hat).
      cbn [Regex.m_group Regex.m_text].
      change (filter truthy (map trim (split "," group))) with existing.
      unfold addMissing. cbn [fold_left]. fold names.
      pose proof (suffixOf_take _ _ Hsuf) as Etext.
      set (matched := take _ importText) in *. clearbody matched.
      rewrite Etext. rewrite replaceString_prefix.
      * unfold merged. now rewrite !append_assoc.
      * rewrite !allChars_append. rewrite allChars_join; auto.
        eapply Forall_impl; [|exact Hnames].
        intros n Hn. exact (clean_chars _ _ plain_notDollar Hn).
    + unfold names. destruct (includes symbol existing) eqn:E; auto.
      intros Hnd. apply NoDup_app; repeat split; auto.
      * repeat constructor. intros [].
      * intros a Ha [<-|[]].
        apply includes_In in Ha. congruence.
    + apply Hmerge; auto.
      * now apply includes_In.
      * unfold merged. now apply namedImportAt_merged.
  - intros importText Hnone. unfold Spec.mergedImport, mergeImportText.
    rewrite Hnone.
    destruct (Regex.test Regex.defaultImportAt importText) eqn:Et.
    + unfold Regex.replaceRegex. unfold Regex.test in Et.
      destruct (Regex.search Regex.defaultImportAt importText) as [m|];
        [|discriminate].
      unfold symbol. rewrite expand_default.
      exists (take (Regex.m_index m) importText
              ++ "import " ++ Regex.m_group m ++ ", "),
        (drop (Regex.m_index m + String.length (Regex.m_text m))
              importText).
      now rewrite !append_assoc.
    + exists (importText ++ nl ++ "import "), ";".
      now rewrite !append_assoc.
  - intros source sourceFile magicStr Himp. unfold mergeImports.
    rewrite Himp. unfold symbol, Spec.symbolOf.
    destruct context; [destruct (isMainIpcFile id)|]; reflexivity.
  - unfold symbol, Spec.symbolOf.
    destruct context; [destruct (isMainIpcFile id)|]; reflexivity.
Qed.

(** The import line of the example project, compiled for the main
    context. *)
Lemma import_merge_named_is_idempotent_witness :
  mergeImportText ["ipcMain"]
                  ("import {app, BrowserWindow} from " ++ dq ++ "electron"
                                                       ++ dq)
  = Rewrite "import { app, BrowserWindow, ipcMain } from 'electron'"
  /\ mergeImportText
       ["ipcMain"] "import { app, BrowserWindow, ipcMain } from 'electron'"
     = Rewrite "import { app, BrowserWindow, ipcMain } from 'electron'"
  /\ Spec.occursIn "{ ipcMain } from 'electron'"
                   (Spec.mergedImport ["ipcMain"]
                                      "import * as e from 'electron'")
  /\ mergeImports "" (Ts.mkSourceFile []) ["ipcMain"]
                  (MagicString.create "")
     = Some (MagicString.prepend
               ("import { ipcMain } from 'electron';" ++ nl)
               (MagicString.create "")).
Proof.
  destruct (import_merge_named_is_idempotent Main "app.main.ipc.ts")
    as (Hnamed & Hother & Hnone & _).
  destruct (Hnamed ("import {app, BrowserWindow} from " ++ dq
                                                        ++ "electron" ++ dq)
                   "app, BrowserWindow" "" eq_refl eq_refl)
    as (H1 & _ & _ & H2).
  split; [exact H1 | split; [exact H2 | split]].
  - apply (Hother "import * as e from 'electron'"). reflexivity.
  - apply (Hnone "" (Ts.mkSourceFile []) (MagicString.create "")).
    reflexivity.
Defined.

(** An import of the default form: the first merge rewrites it to the
    default-plus-named form, which the second merge does not
    recognise, so that it injects a second import of the same
    symbol. *)
Lemma default_import_merge_is_not_idempotent :
  mergeImportText ["ipcMain"] "import electron from 'electron'"
  = Rewrite "import electron, { ipcMain } from 'electron'"
  /\ mergeImportText ["ipcMain"]
                     "import electron, { ipcMain } from 'electron'"
     = Inject (nl ++ "import { ipcMain } from 'electron';")
  /\ Spec.mergedImport ["ipcMain"]
                       "import electron, { ipcMain } from 'electron'"
     <> "import electron, { ipcMain } from 'electron'".
Proof. repeat split; try reflexivity. vm_compute. discriminate. Qed.
End ImportMerge.


(** ** The matrix, cell by cell and on the whole output *)

Section MatrixTheorem.
Import JsString Plugin.
Variable context : Context.
Variable id : string.
Variable source : string.
Variable sourceFile : Ts.SourceFile.

Let stubs := map (Spec.stubEdit context id) (extract source sourceFile).

(** C1.  A file the plugin includes has exactly one of the two roles,
    and for an extracted function the step of the transform follows the
    cell of its context and file role.  Main context, main-role
    file: the registration is appended and nothing else changes; it
    registers the function on its channel with [ipcMain.handle] when the
    function is async and [ipcMain.on] otherwise.  Renderer context,
    main-role file: the span is overwritten by a stub of the same name
    that calls [ipcRenderer.invoke], or [ipcRenderer.sendSync], on the
    channel.  Main context, renderer-role file: the span is overwritten
    by a stub that sends the channel message to every webContents.
    Renderer context, renderer-role file: the registration is appended;
    it listens with [ipcRenderer.on] and sends the result on the reply
    channel.  In the two registering cells the code returned is the
    original text, kept but for the merged electron import, followed by
    the registrations.  In the two replacing cells, when the spans come
    in order without overlap, the code returned is the original text
    with each span replaced by its stub and the electron import merged
    or put in front. *)
Theorem transform_matrix :
  forall fn magicStr needed,
    let channel := channelOf id fn in
    let step := transformFunction context id (magicStr, needed) fn in
    (transformInclude context id = true ->
     (isMainIpcFile id = true /\ isRendererIpcFile id = false)
     \/ (isMainIpcFile id = false /\ isRendererIpcFile id = true))
    /\ (context = Main -> isMainIpcFile id = true ->
     step = Some (MagicString.append (Spec.registrationOf Main id fn)
                                     magicStr,
                  setAdd "ipcMain" needed)
     /\ Spec.occursIn
          (Spec.callOn (if isAsync fn then "ipcMain.handle"
                        else "ipcMain.on") channel)
          (Spec.registrationOf Main id fn)
     /\ Spec.occursIn (name fn ++ "(...args)")
                      (Spec.registrationOf Main id fn))
    /\ (context = Renderer -> isMainIpcFile id = true ->
        step = option_map (fun m => (m, setAdd "ipcRenderer" needed))
                 (MagicString.overwrite (start fn) (end_ fn)
                    (Spec.stubOf Renderer id fn) magicStr)
        /\ Spec.occursIn
             ("function " ++ name fn ++ "(...args)")
             (Spec.stubOf Renderer id fn)
        /\ Spec.occursIn
             (Spec.callOn (if isAsync fn then "ipcRenderer.invoke"
                           else "ipcRenderer.sendSync") channel)
             (Spec.stubOf Renderer id fn))
    /\ (context = Main -> isRendererIpcFile id = true ->
        step = option_map (fun m => (m, setAdd "webContents" needed))
                 (MagicString.overwrite (start fn) (end_ fn)
                    (Spec.stubOf Main id fn) magicStr)
        /\ Spec.occursIn
             ("function " ++ name fn ++ "(...args)")
             (Spec.stubOf Main id fn)
        /\ Spec.occursIn "const all = webContents.getAllWebContents();"
                         (Spec.stubOf Main id fn)
        /\ Spec.occursIn (Spec.callOn "wc.send" channel)
                         (Spec.stubOf Main id fn))
    /\ (context = Renderer -> isRendererIpcFile id = true ->
        step = Some (MagicString.append
                       (Spec.registrationOf Renderer id fn) magicStr,
                     setAdd "ipcRenderer" needed)
        /\ Spec.occursIn (Spec.callOn "ipcRenderer.on" channel)
                         (Spec.registrationOf Renderer id fn)
        /\ Spec.occursIn (name fn ++ "(...args)")
                         (Spec.registrationOf Renderer id fn)
        /\ Spec.occursIn
             (Spec.callOn "event.sender.send" (channel ++ "-reply")
                          ++ ", result)")
             (Spec.registrationOf Renderer id fn))
    /\ (Spec.registersLocally context id = true ->
        In fn (extract source sourceFile) ->
        importNodes sourceFile = [] ->
        transform context source id sourceFile
        = Code ("import { " ++ Spec.symbolOf context id
                            ++ " } from 'electron';" ++ nl
                ++ source
                ++ Spec.registrationsOf context id
                                        (extract source sourceFile)))
    /\ (Spec.registersLocally context id = true ->
        In fn (extract source sourceFile) ->
        forall a b rest,
          importNodes sourceFile = (a, b) :: rest ->
          a < b -> b <= String.length source ->
          transform context source id sourceFile
          = Code (take a source
                  ++ Spec.mergedImport [Spec.symbolOf context id]
                                       (slice a b source)
                  ++ drop b source
                  ++ Spec.registrationsOf context id
                                          (extract source sourceFile)))
    /\ (Spec.registersLocally context id = false ->
        In fn (extract source sourceFile) ->
        importNodes sourceFile = [] ->
        Spec.laidOut (String.length source) 0 stubs ->
        transform context source id sourceFile
        = Code ("import { " ++ Spec.symbolOf context id
                            ++ " } from 'electron';" ++ nl
                ++ Spec.splice source 0 stubs))
    /\ (Spec.registersLocally context id = false ->
        In fn (extract source sourceFile) ->
        forall a b rest text,
          importNodes sourceFile = (a, b) :: rest ->
          mergeImportText [Spec.symbolOf context id] (slice a b source)
          = Rewrite text ->
          Spec.laidOut (String.length source) 0
                       (Spec.insertEdit (a, b, text) stubs) ->
          transform context source id sourceFile
          = Code (Spec.splice source 0
                              (Spec.insertEdit (a, b, text) stubs))).
Proof.
  intros fn magicStr needed channel step.
  split; [apply included_role|].
  split; [|split; [|split; [|split; [|split; [|split; [|split]]]]]].
  - intros Hc Hm. subst step channel.
    rewrite (transformFunction_registers context id)
      by (unfold Spec.registersLocally; now rewrite Hc).
    rewrite Hc. unfold Spec.symbolOf, Spec.registrationOf. rewrite Hm.
    split; [reflexivity|].
    destruct (isAsync fn);
      unfold mainAsyncHandler, mainSyncHandler, dq; cbn;
      split; find_occurrence.
  - intros Hc Hm. subst step channel.
    rewrite transformFunction_replaces.
    + rewrite Hc. unfold Spec.symbolOf, Spec.stubOf.
      split; [reflexivity|].
      destruct (isAsync fn);
        unfold asyncInvokerStub, syncInvokerStub, dq; cbn;
        split; find_occurrence.
    + rewrite Hc. simpl. now apply main_role_not_renderer.
  - intros Hc Hr. subst step channel.
    pose proof (renderer_role_not_main _ Hr) as Hm.
    rewrite transformFunction_replaces.
    + rewrite Hc. unfold Spec.symbolOf, Spec.stubOf. rewrite Hm.
      split; [reflexivity|].
      destruct (isAsync fn);
        unfold asyncBroadcasterStub, syncBroadcasterStub, dq; cbn;
        (split; [|split]); find_occurrence.
    + rewrite Hc. exact Hm.
  - intros Hc Hr. subst step channel.
    rewrite (transformFunction_registers context id)
      by (unfold Spec.registersLocally; now rewrite Hc).
    rewrite Hc. unfold Spec.symbolOf, Spec.registrationOf.
    split; [reflexivity|].
    destruct (isAsync fn);
      unfold rendererAsyncListener, rendererSyncListener, dq; cbn;
      (split; [|split]); find_occurrence.
  - intros Hcell Hin Himp.
    assert (Hne : extract source sourceFile <> [])
      by (intros E; rewrite E in Hin; destruct Hin).
    pose proof (registering_output context id source sourceFile
                                   Hcell Hne) as H.
    now rewrite Himp in H.
  - intros Hcell Hin a b rest Himp Hab Hb.
    assert (Hne : extract source sourceFile <> [])
      by (intros E; rewrite E in Hin; destruct Hin).
    pose proof (registering_output context id source sourceFile
                                   Hcell Hne) as H.
    rewrite Himp in H. now apply H.
  - intros Hcell Hin Himp Hl.
    assert (Hne : extract source sourceFile <> [])
      by (intros E; rewrite E in Hin; destruct Hin).
    pose proof (replacing_output context source id Hcell sourceFile Hne)
      as H.
    rewrite Himp in H. now apply H.
  - intros Hcell Hin a b rest text Himp Hm Hl.
    assert (Hne : extract source sourceFile <> [])
      by (intros E; rewrite E in Hin; destruct Hin).
    pose proof (replacing_output context source id Hcell sourceFile Hne)
      as H.
    rewrite Himp in H. now apply H.
Qed.
End MatrixTheorem.


(** ** The matrix and the exported names on sample files *)

Section OnSamples.
Import JsString Plugin.

Let pingFn : ExportedFunction :=
  mkExportedFunction "ping" 32 67 false (slice 32 67 Samples.panelSource)
                     false.

Lemma startsWith_same (a p s : string) :
  startsWith (a ++ p) (a ++ s) = startsWith p s.
Proof.
  induction a as [|c a IH]; simpl; [reflexivity|].
  now rewrite Ascii.eqb_refl.
Qed.

(** The scenario file in both contexts, and the renderer-role sample in
    both contexts. *)
Lemma transform_matrix_witness :
  transformFunction Main "foo.main.ipc.ts"
                    (MagicString.create Samples.barSource, [])
                    Samples.barFn
  = Some (MagicString.append
            (mainAsyncHandler "bar" "foo.main.ipc.ts:bar:7cebadae8464")
            (MagicString.create Samples.barSource),
          ["ipcMain"])
  /\ transformFunction Renderer "foo.main.ipc.ts"
                       (MagicString.create Samples.barSource, [])
                       Samples.barFn
     = option_map (fun m => (m, ["ipcRenderer"]))
         (MagicString.overwrite
            0 40
            (asyncInvokerStub "bar" "foo.main.ipc.ts:bar:7cebadae8464")
            (MagicString.create Samples.barSource))
  /\ transformFunction Main "panel.renderer.ipc.ts"
                       (MagicString.create Samples.panelSource, [])
                       pingFn
     = option_map (fun m => (m, ["webContents"]))
         (MagicString.overwrite
            32 67
            (syncBroadcasterStub
               "ping" "panel.renderer.ipc.ts:ping:f38a87a5c51e")
            (MagicString.create Samples.panelSource))
  /\ transformFunction Renderer "panel.renderer.ipc.ts"
                       (MagicString.create Samples.panelSource, [])
                       pingFn
     = Some (MagicString.append
               (rendererSyncListener
                  "ping" "panel.renderer.ipc.ts:ping:f38a87a5c51e")
               (MagicString.create Samples.panelSource),
             ["ipcRenderer"])
  /\ transform Main Samples.barSource "foo.main.ipc.ts" Samples.barFile
     = Code ("import { ipcMain } from 'electron';" ++ nl
             ++ Samples.barSource
             ++ mainAsyncHandler "bar" "foo.main.ipc.ts:bar:7cebadae8464")
  /\ transform Renderer Samples.panelSource "panel.renderer.ipc.ts"
               Samples.panelFile
     = Code ("import { shell, ipcRenderer } from 'electron'"
             ++ drop 32 Samples.panelSource
             ++ Spec.registrationsOf
                  Renderer "panel.renderer.ipc.ts"
                  (extract Samples.panelSource Samples.panelFile))
  /\ transform Renderer Samples.barSource "foo.main.ipc.ts"
               Samples.barFile
     = Code ("import { ipcRenderer } from 'electron';" ++ nl
             ++ asyncInvokerStub "bar" "foo.main.ipc.ts:bar:7cebadae8464")
  /\ transform Main Samples.panelSource "panel.renderer.ipc.ts"
               Samples.panelFile
     = Code ("import { shell, webContents } from 'electron'"
             ++ syncBroadcasterStub
                  "ping" "panel.renderer.ipc.ts:ping:f38a87a5c51e"
             ++ slice 67 87 Samples.panelSource
             ++ asyncBroadcasterStub
                  "pong" "panel.renderer.ipc.ts:pong:8c5718840bc5").
Proof.
  destruct (transform_matrix Main "foo.main.ipc.ts" Samples.barSource
              Samples.barFile Samples.barFn
              (MagicString.create Samples.barSource) [])
    as (_ & H1 & _ & _ & _ & H5 & _).
  destruct (transform_matrix Renderer "foo.main.ipc.ts" Samples.barSource
              Samples.barFile Samples.barFn
              (MagicString.create Samples.barSource) [])
    as (_ & _ & H2 & _ & _ & _ & _ & H7 & _).
  destruct (transform_matrix Main "panel.renderer.ipc.ts"
              Samples.panelSource Samples.panelFile pingFn
              (MagicString.create Samples.panelSource) [])
    as (_ & _ & _ & H3 & _ & _ & _ & _ & H8).
  destruct (transform_matrix Renderer "panel.renderer.ipc.ts"
              Samples.panelSource Samples.panelFile pingFn
              (MagicString.create Samples.panelSource) [])
    as (_ & _ & _ & _ & H4 & _ & H6 & _).
  split; [|split; [|split; [|split; [|split; [|split; [|split]]]]]].
  - exact (proj1 (H1 eq_refl eq_refl)).
  - exact (proj1 (H2 eq_refl eq_refl)).
  - exact (proj1 (H3 eq_refl eq_refl)).
  - exact (proj1 (H4 eq_refl eq_refl)).
  - apply H5; [reflexivity | left; reflexivity | reflexivity].
  - apply (H6 eq_refl (or_introl eq_refl) 0 32 []);
      [reflexivity | simpl; lia | simpl; lia].
  - rewrite (H7 eq_refl (or_introl eq_refl) eq_refl).
    + vm_compute. reflexivity.
    + simpl. lia.
  - rewrite (H8 eq_refl (or_introl eq_refl) 0 32 []
                "import { shell, webContents } from 'electron'"
                eq_refl eq_refl).
    + vm_compute. reflexivity.
    + simpl. lia.
Defined.

(** C8, on the code: where the function is replaced, the stub is a named
    function declaration whatever the form of the export.  A default
    export comes out as a named export, an anonymous one under the
    synthetic name, and a function bound by [export const] comes out as
    a declaration put after the equals sign of the binding; in the
    registering cells the declaration is kept as written. *)
Theorem stub_loses_default_and_binding :
  transform Renderer Samples.defaultSource "foo.main.ipc.ts"
            Samples.defaultFile
  = Code ("import { ipcRenderer } from 'electron';" ++ nl
          ++ asyncInvokerStub "bar" "foo.main.ipc.ts:default:0be10e5ca1c2")
  /\ transform Renderer Samples.anonymousSource "foo.main.ipc.ts"
               Samples.anonymousFile
     = Code ("import { ipcRenderer } from 'electron';" ++ nl
             ++ syncInvokerStub "_defaultExport"
                                "foo.main.ipc.ts:default:15f29894a08e")
  /\ transform Renderer Samples.pongSource "foo.main.ipc.ts"
               Samples.pongFile
     = Code ("import { ipcRenderer } from 'electron';" ++ nl
             ++ "export const pong ="
             ++ asyncInvokerStub "pong" "foo.main.ipc.ts:pong:8c5718840bc5")
  /\ (forall name channel,
         startsWith (nl ++ "    export async function " ++ name
                        ++ "(...args) {")
                    (asyncInvokerStub name channel) = true
         /\ startsWith (nl ++ "    export function " ++ name
                           ++ "(...args) {")
                       (syncInvokerStub name channel) = true)
  /\ transform Main Samples.defaultSource "foo.main.ipc.ts"
               Samples.defaultFile
     = Code ("import { ipcMain } from 'electron';" ++ nl
             ++ Samples.defaultSource
             ++ mainAsyncHandler "bar"
                                 "foo.main.ipc.ts:default:0be10e5ca1c2").
Proof.
  split; [|split; [|split; [|split]]]; try (vm_compute; reflexivity).
  intros name channel. unfold asyncInvokerStub, syncInvokerStub, nl.
  split; cbn; rewrite startsWith_same; reflexivity.
Qed.

(** The merge reads the first import from electron only: a symbol the
    second one brings is added to the first all the same, although the
    set of existing names, which nothing reads, holds it. *)
Example second_import_is_not_consulted :
  existingElectronImports Samples.twoImportsFile = ["app"; "ipcMain"]
  /\ exists rest,
      transform Main Samples.twoImportsSource "foo.main.ipc.ts"
                Samples.twoImportsFile
      = Code ("import { app, ipcMain } from 'electron'" ++ nl
              ++ "import {ipcMain} from 'electron'" ++ rest).
Proof. split; [reflexivity|]. eexists. vm_compute. reflexivity. Qed.

(** A dollar sign in the list is read as a replacement pattern. *)
Example dollar_names_are_rewritten :
  mergeImportText ["ipcMain"] "import { shell as $$ } from 'electron'"
  = Rewrite "import { shell as $, ipcMain } from 'electron'".
Proof. reflexivity. Qed.
End OnSamples.

(** ** The include predicate *)

Section IncludeRoles.
Import JsString Plugin.

Lemma role_suffix_is_ipc (role ext id : string) :
  endsWith (role ++ ext) id = true -> endsWith ext id = true.
Proof.
  intros H. apply endsWith_split in H as [before ->].
  rewrite <- append_assoc.
  rewrite endsWith_append by lia.
  unfold endsWith. rewrite Nat.sub_diag. simpl.
  rewrite String.eqb_refl. simpl. apply Nat.leb_refl.
Qed.

Lemma role_is_ipc (id : string) :
  isMainIpcFile id || isRendererIpcFile id = true -> isIpcFile id = true.
Proof.
  unfold isMainIpcFile, isRendererIpcFile, isIpcFile. intros H.
  apply orb_true_iff.
  repeat (apply orb_true_iff in H as [H|H]).
  - left. exact (role_suffix_is_ipc ".main" ".ipc.ts" id H).
  - right. exact (role_suffix_is_ipc ".main" ".ipc.js" id H).
  - left. exact (role_suffix_is_ipc ".renderer" ".ipc.ts" id H).
  - right. exact (role_suffix_is_ipc ".renderer" ".ipc.js" id H).
Qed.

(** X1.  The include predicate is the test for one of the two role
    suffixes and nothing more: the first test, for the suffix
    [.ipc.ts] or [.ipc.js], never decides, and the context plays no
    part, so both contexts include the same files. *)
Theorem include_is_the_role_test :
  forall id,
    (forall context,
        transformInclude context id
        = isMainIpcFile id || isRendererIpcFile id)
    /\ transformInclude Main id = transformInclude Renderer id.
Proof.
  intros id.
  assert (H : forall context,
             transformInclude context id
             = isMainIpcFile id || isRendererIpcFile id).
  { intros context. rewrite transformInclude_spec.
    destruct (isMainIpcFile id || isRendererIpcFile id) eqn:E.
    - now rewrite (role_is_ipc id E).
    - apply andb_false_r. }
  split; [exact H | now rewrite !H].
Qed.

End IncludeRoles.

(** ** What the traversal collects *)

Section Traversal.
Import JsString Plugin.
Variable source : string.

Lemma visitDeclaration_pushed pos end_ modifiers declarations children
      decl fn :
  Ts.hasModifier Ts.ExportKeyword modifiers = true ->
  In decl declarations ->
  In fn (visitDeclaration source modifiers decl) ->
  Spec.pushed source
              (Ts.VariableStatement pos end_ modifiers declarations
                                    children) fn.
Proof.
  intros Hexp Hin Hfn. unfold visitDeclaration in Hfn.
  destruct (Ts.decl_name decl) as [varName|] eqn:En; [|contradiction].
  destruct (Ts.decl_initializer decl) as [init|] eqn:Ei;
    [|contradiction].
  destruct (Ts.init_kind init) eqn:Ek; simpl in Hfn;
    try contradiction; destruct Hfn as [<-|[]];
    eapply Spec.pushed_variable; eauto; congruence.
Qed.

Lemma pushed_visit node fn :
  Spec.pushed source node fn -> In fn (visit source node).
Proof.
  intros H. destruct H as [pos end_ modifiers text children Hexp
                          |pos end_ modifiers children Hexp
                          |pos end_ modifiers declarations children
                             decl varName init Hexp Hin Hn Hi Hk];
    cbn [visit]; rewrite Hexp; apply in_or_app; left.
  - now left.
  - now left.
  - apply in_flat_map. exists decl. split; [exact Hin|].
    unfold visitDeclaration. rewrite Hn, Hi.
    destruct (Ts.init_kind init); [now left | now left | congruence].
Qed.

Lemma own_pushed node fn :
  In fn (visit source node) ->
  Spec.pushed source node fn
  \/ In fn (flat_map (visit source)
              match node with
              | Ts.FunctionDeclaration _ _ _ _ children
              | Ts.VariableStatement _ _ _ _ children
              | Ts.OtherNode _ _ _ children => children
              | Ts.ImportDeclaration _ _ _ _ => []
              end).
Proof.
  destruct node as [pos end_ modifiers name children
                   |pos end_ modifiers declarations children
                   |pos start end_ info
                   |pos end_ modifiers children]; cbn [visit]; intros H.
  - apply in_app_or in H as [H|H]; [left | now right].
    destruct (Ts.hasModifier Ts.ExportKeyword modifiers) eqn:Hexp;
      [|contradiction].
    destruct name as [text|]; destruct H as [<-|[]].
    + now apply Spec.pushed_named.
    + now apply Spec.pushed_anonymous.
  - apply in_app_or in H as [H|H]; [left | now right].
    destruct (Ts.hasModifier Ts.ExportKeyword modifiers) eqn:Hexp;
      [|contradiction].
    apply in_flat_map in H as (decl & Hin & Hfn).
    eapply visitDeclaration_pushed; eauto.
  - contradiction.
  - now right.
Qed.

(** The entries of a node are those pushed for the node itself or for
    a node below it. *)
Lemma visit_subnodes node : forall fn,
  In fn (visit source node)
  <-> exists n, In n (Spec.subnodes node) /\ Spec.pushed source n fn.
Proof.
  assert (Hchildren :
            forall children,
              Forall (fun node =>
                        forall fn,
                          In fn (visit source node)
                          <-> exists n, In n (Spec.subnodes node)
                                        /\ Spec.pushed source n fn)
                     children ->
              forall fn,
                In fn (flat_map (visit source) children)
                <-> exists n, In n (flat_map Spec.subnodes children)
                              /\ Spec.pushed source n fn).
  { intros children Hall fn. rewrite Forall_forall in Hall. split.
    - intros H. apply in_flat_map in H as (child & Hc & Hfn).
      apply (Hall child Hc) in Hfn as (n & Hn & Hp).
      exists n. split; [|exact Hp]. apply in_flat_map. eauto.
    - intros (n & Hn & Hp). apply in_flat_map in Hn as (child & Hc & Hn).
      apply in_flat_map. exists child. split; [exact Hc|].
      apply (Hall child Hc). eauto. }
  induction node as [pos end_ modifiers name children IH
                    |pos end_ modifiers declarations children IH
                    |pos start end_ info
                    |pos end_ modifiers children IH]
    using Ts.Node_children_ind; intros fn.
  all: split.
  all: try (intros H; apply own_pushed in H as [H|H];
            [ eexists; split; [left; reflexivity | exact H]
            | first [ contradiction
                    | apply (Hchildren _ IH) in H as (n & Hn & Hp);
                      exists n; split; [right; exact Hn | exact Hp] ] ]).
  all: intros (n & Hn & Hp); destruct Hn as [<-|Hn];
    [ now apply pushed_visit | ].
  all: try contradiction.
  all: cbn [visit]; try (apply in_or_app; right);
    apply (Hchildren _ IH); eauto.
Qed.

(** X2.  The traversal collects an entry for exactly the nodes of the
    three shapes it tests for, wherever they stand in the tree: an
    exported function declaration with a name, an exported function
    declaration without one (named [_defaultExport] and marked
    default), and every declaration of an exported variable statement
    that binds an identifier to an arrow function or a function
    expression, with the span of that initializer.  Nothing else gives
    an entry. *)
Theorem extraction_characterised :
  forall sourceFile fn,
    In fn (extract source sourceFile)
    <-> exists node,
          In node (Spec.nodesOf sourceFile)
          /\ Spec.pushed source node fn.
Proof.
  intros sourceFile fn. unfold extract, Spec.nodesOf. split.
  - intros H. apply in_flat_map in H as (stmt & Hs & Hfn).
    apply visit_subnodes in Hfn as (n & Hn & Hp).
    exists n. split; [|exact Hp]. apply in_flat_map. eauto.
  - intros (n & Hn & Hp). apply in_flat_map in Hn as (stmt & Hs & Hn).
    apply in_flat_map. exists stmt. split; [exact Hs|].
    apply visit_subnodes. eauto.
Qed.

Lemma qualifies_pushed node :
  Spec.qualifies node = true <-> exists fn, Spec.pushed source node fn.
Proof.
  split.
  - destruct node as [pos end_ modifiers name children
                     |pos end_ modifiers declarations children
                     |pos start end_ info
                     |pos end_ modifiers children]; cbn [Spec.qualifies];
      intros H; try discriminate.
    + destruct name as [text|]; eexists;
        [now apply Spec.pushed_named | now apply Spec.pushed_anonymous].
    + apply andb_true_iff in H as [Hexp H].
      apply existsb_exists in H as (decl & Hin & Hf).
      unfold Spec.functionLike in Hf.
      destruct (Ts.decl_name decl) as [varName|] eqn:En;
        [|discriminate].
      destruct (Ts.decl_initializer decl) as [init|] eqn:Ei;
        [|discriminate].
      eexists. eapply Spec.pushed_variable; eauto.
      intros Hk. rewrite Hk in Hf. discriminate.
  - intros (fn & H).
    destruct H as [pos end_ modifiers text children Hexp
                  |pos end_ modifiers children Hexp
                  |pos end_ modifiers declarations children
                     decl varName init Hexp Hin Hn Hi Hk];
      cbn [Spec.qualifies]; try exact Hexp.
    rewrite Hexp. simpl. apply existsb_exists. exists decl.
    split; [exact Hin|]. unfold Spec.functionLike. rewrite Hn, Hi.
    destruct (Ts.init_kind init); congruence.
Qed.

(** X3.  The transform returns [null] exactly when no node of the
    tree, at any depth, is an exported function declaration or an
    exported variable statement that binds an identifier to an arrow
    function or a function expression; whatever else the file exports
    (classes, constants, re-exports) does not count. *)
Theorem null_iff_nothing_qualifies :
  forall context id sourceFile,
    transform context source id sourceFile = Null
    <-> existsb Spec.qualifies (Spec.nodesOf sourceFile) = false.
Proof.
  intros context id sourceFile.
  assert (Hempty : extract source sourceFile = []
                   <-> existsb Spec.qualifies (Spec.nodesOf sourceFile)
                       = false).
  { split.
    - intros He. destruct (existsb _ _) eqn:E; [|reflexivity].
      apply existsb_exists in E as (n & Hn & Hq).
      apply qualifies_pushed in Hq as (fn & Hp).
      unfold Spec.nodesOf in Hn.
      apply in_flat_map in Hn as (stmt & Hs & Hn).
      assert (Hin : In fn (extract source sourceFile)).
      { apply in_flat_map. exists stmt. split; [exact Hs|].
        apply visit_subnodes. eauto. }
      rewrite He in Hin. contradiction.
    - intros Hq. destruct (extract source sourceFile) as [|fn fns] eqn:E;
        [reflexivity|].
      assert (Hin : In fn (extract source sourceFile))
        by (rewrite E; now left).
      apply in_flat_map in Hin as (stmt & Hs & Hfn).
      apply visit_subnodes in Hfn as (n & Hn & Hp).
      assert (Ht : existsb Spec.qualifies (Spec.nodesOf sourceFile)
                   = true).
      { apply existsb_exists. exists n. split.
        - apply in_flat_map. eauto.
        - apply qualifies_pushed. eauto. }
      congruence. }
  rewrite <- Hempty. unfold transform.
  destruct (extract source sourceFile) as [|fn fns]; [tauto|].
  split; [|discriminate].
  destruct (transformFunctions _ _ _ _) as [[ms needed]|];
    [|discriminate].
  destruct (mergeImports _ _ _ _); discriminate.
Qed.

End Traversal.

(** ** Channels apart *)

Section ChannelsApart.
Import JsString Plugin.

Lemma append_same_length (a a' h h' : string) :
  String.length h = String.length h' ->
  a ++ h = a' ++ h' -> a = a' /\ h = h'.
Proof.
  intros Hlen. revert a'.
  induction a as [|c a IH]; intros [|c' a'] H; simpl in H.
  - now split.
  - apply (f_equal String.length) in H. simpl in H.
    rewrite length_append in H. lia.
  - apply (f_equal String.length) in H. simpl in H.
    rewrite length_append in H. lia.
  - injection H as -> H. destruct (IH _ H) as [-> ->]. now split.
Qed.

Lemma allChars_middle (p : ascii -> bool) (a b : string) (c : ascii) :
  p c = false -> allChars p (a ++ String c b) = false.
Proof.
  intros Hc. rewrite allChars_append. simpl. rewrite Hc.
  now rewrite andb_false_r.
Qed.

(** A text is cut at its last colon in one way only. *)
Lemma last_colon (a a' n n' : string) :
  allChars Spec.notColon n = true ->
  allChars Spec.notColon n' = true ->
  a ++ ":" ++ n = a' ++ ":" ++ n' -> a = a' /\ n = n'.
Proof.
  intros Hn Hn'. revert a'.
  induction a as [|c a IH]; intros [|c' a'] H; simpl in H.
  - injection H as H. now split.
  - injection H as <- H. subst n.
    rewrite (allChars_middle Spec.notColon a' n' ":") in Hn
      by reflexivity.
    discriminate.
  - injection H as -> H. subst n'.
    rewrite (allChars_middle Spec.notColon a n ":") in Hn'
      by reflexivity.
    discriminate.
  - injection H as -> H. destruct (IH _ H) as [-> ->]. now split.
Qed.

(** X4.  Channels keep functions apart.  Two functions of files with
    the same base name that get the same channel have the same name
    segment and the same body hash; and when neither name segment
    holds a colon, as no identifier does, equal channels force equal
    base names as well.  So within a file two exports with different
    names never share a channel, whatever their bodies. *)
Theorem channels_keep_functions_apart :
  forall id1 id2 fn1 fn2,
    channelOf id1 fn1 = channelOf id2 fn2 ->
    (Path.basename id1 = Path.basename id2
     \/ (allChars Spec.notColon (Spec.nameSegment fn1) = true
         /\ allChars Spec.notColon (Spec.nameSegment fn2) = true)) ->
    Path.basename id1 = Path.basename id2
    /\ Spec.nameSegment fn1 = Spec.nameSegment fn2
    /\ createHashForText (originalBodyCode fn1)
       = createHashForText (originalBodyCode fn2).
Proof.
  intros id1 id2 fn1 fn2 H Hcase.
  unfold channelOf in H. fold (Spec.nameSegment fn1) in H.
  fold (Spec.nameSegment fn2) in H.
  set (b1 := Path.basename id1) in *. set (b2 := Path.basename id2) in *.
  set (n1 := Spec.nameSegment fn1) in *.
  set (n2 := Spec.nameSegment fn2) in *.
  set (h1 := createHashForText (originalBodyCode fn1)) in *.
  set (h2 := createHashForText (originalBodyCode fn2)) in *.
  assert (Hlen : String.length h1 = String.length h2).
  { unfold h1, h2. now rewrite !length_createHashForText. }
  assert (E : (b1 ++ ":" ++ n1 ++ ":") ++ h1
              = (b2 ++ ":" ++ n2 ++ ":") ++ h2).
  { now rewrite !append_assoc. }
  apply (append_same_length _ _ _ _ Hlen) in E as [E Hh].
  assert (E' : (b1 ++ ":" ++ n1) ++ ":" = (b2 ++ ":" ++ n2) ++ ":").
  { now rewrite !append_assoc. }
  apply (append_same_length _ _ ":" ":" eq_refl) in E' as [E' _].
  destruct Hcase as [Hb | [Hn1 Hn2]].
  - split; [exact Hb|]. split; [|exact Hh].
    rewrite Hb in E'. clear - E'.
    induction b2 as [|c b IH]; simpl in E'.
    + now injection E'.
    + injection E' as E'. auto.
  - destruct (last_colon b1 b2 n1 n2 Hn1 Hn2 E') as [Hb Hn].
    now repeat split.
Qed.

Lemma channels_keep_functions_apart_witness :
  Path.basename "/app/src/foo.main.ipc.ts"
  = Path.basename "/other/dir/foo.main.ipc.ts"
  /\ Spec.nameSegment Samples.barFn = Spec.nameSegment Samples.barFn2
  /\ createHashForText (originalBodyCode Samples.barFn)
     = createHashForText (originalBodyCode Samples.barFn2).
Proof.
  apply (channels_keep_functions_apart
           "/app/src/foo.main.ipc.ts" "/other/dir/foo.main.ipc.ts"
           Samples.barFn Samples.barFn2).
  - vm_compute. reflexivity.
  - right. split; reflexivity.
Defined.

Lemma split_at_separator (sep : ascii) (a b : string) :
  split sep (a ++ String sep b) = (split sep a ++ split sep b)%list.
Proof.
  induction a as [|c a IH]; simpl.
  - now rewrite Ascii.eqb_refl.
  - destruct (Ascii.eqb c sep); [now rewrite IH|].
    rewrite IH. pose proof (split_nonempty sep a) as Hne.
    destruct (split sep a) as [|w ws]; [congruence | reflexivity].
Qed.

Lemma split_without (sep : ascii) (s : string) :
  allChars (fun c => negb (Ascii.eqb c sep)) s = true ->
  split sep s = [s].
Proof.
  induction s as [|c s IH]; simpl; [reflexivity|].
  intros H. apply andb_true_iff in H as [Hc H].
  apply negb_true_iff in Hc. rewrite Hc. now rewrite IH.
Qed.

(** The base name of a path that ends with a plain file name. *)
Lemma basename_of_file (dir file : string) :
  file <> "" -> allChars Spec.notSlash file = true ->
  Path.basename (dir ++ "/" ++ file) = file
  /\ Path.basename file = file.
Proof.
  intros Hne Hplain. unfold Path.basename.
  change ("/" ++ file) with (String "/" file).
  rewrite split_at_separator, fold_left_app.
  rewrite (split_without "/" file) by exact Hplain.
  destruct file as [|c file]; [congruence|]. now split.
Qed.

(** X5.  Only the last component of the path of a file enters its
    channels: for a file name without a slash, the channel of a
    function is the same under every directory, so that two files of
    the same name in different directories that export functions of
    the same name and text get the same channel. *)
Theorem channel_ignores_the_directory :
  forall dir dir' file fn,
    file <> "" -> allChars Spec.notSlash file = true ->
    channelOf (dir ++ "/" ++ file) fn
    = file ++ ":" ++ Spec.nameSegment fn
           ++ ":" ++ createHashForText (originalBodyCode fn)
    /\ channelOf (dir ++ "/" ++ file) fn
       = channelOf (dir' ++ "/" ++ file) fn.
Proof.
  intros dir dir' file fn Hne Hplain. unfold channelOf.
  destruct (basename_of_file dir file Hne Hplain) as [-> _].
  destruct (basename_of_file dir' file Hne Hplain) as [-> _].
  now split.
Qed.

Lemma channel_ignores_the_directory_witness :
  channelOf ("/app/windows" ++ "/" ++ "foo.main.ipc.ts") Samples.barFn
  = "foo.main.ipc.ts" ++ ":" ++ Spec.nameSegment Samples.barFn
      ++ ":" ++ createHashForText (originalBodyCode Samples.barFn)
  /\ channelOf ("/app/windows" ++ "/" ++ "foo.main.ipc.ts") Samples.barFn
     = channelOf ("/app/tray" ++ "/" ++ "foo.main.ipc.ts") Samples.barFn.
Proof.
  apply (channel_ignores_the_directory
           "/app/windows" "/app/tray" "foo.main.ipc.ts" Samples.barFn).
  - discriminate.
  - reflexivity.
Defined.

End ChannelsApart.

(** ** A call from the main process to a renderer and back *)

Section RoundTrips.
Import JsString Runtime.
Variable numberToString : nat -> string.

Local Abbreviation toText := (Runtime.toText numberToString).
Local Abbreviation deliverAll := (Runtime.deliverAll numberToString).


End RoundTrips.

Section RoundTripExamples.
Import JsString Runtime.


End RoundTripExamples.

(** ** An import that has no named clause *)

Section OtherImports.
Import JsString Plugin.

Lemma spaces1_suffix {A} (s : string) (k : string -> option A) (r : A) :
  Regex.spaces1 s k = Some r ->
  exists s', Spec.suffixOf s' s /\ k s' = Some r.
Proof.
  unfold Regex.spaces1. destruct s as [|c s]; [discriminate|].
  destruct (isSpace c); [|discriminate]. intros H.
  exists (trimStart s). split; [|exact H].
  eapply suffixOf_trans; [apply trimStart_suffix | apply suffixOf_cons].
Qed.

Lemma defaultImportAt_suffix (s group rest : string) :
  Regex.defaultImportAt s = Some (group, rest) -> Spec.suffixOf rest s.
Proof.
  unfold Regex.defaultImportAt.
  destruct (startsWith "import" s); [|discriminate]. intros H.
  apply spaces1_suffix in H as (s1 & Hs1 & H).
  destruct (Regex.spanWhile isWord s1) as [g s2] eqn:E.
  destruct (truthy g); [|discriminate].
  apply spaces1_suffix in H as (s3 & Hs3 & H).
  destruct (startsWith "from" s3); [|discriminate].
  apply spaces1_suffix in H as (s4 & Hs4 & H).
  destruct (Regex.quotedElectron s4) as [r|] eqn:Eq; [|discriminate].
  simpl in H. injection H as <- <-.
  apply quotedElectron_suffix in Eq.
  eapply suffixOf_trans; [exact Eq|].
  eapply suffixOf_trans; [exact Hs4|].
  eapply suffixOf_trans; [apply suffixOf_drop|].
  eapply suffixOf_trans; [exact Hs3|].
  apply spanWhile_split in E.
  eapply suffixOf_trans; [exists g; exact E|].
  eapply suffixOf_trans; [exact Hs1|].
  apply suffixOf_drop.
Qed.

(** X9.  The merge on a first electron import that has no named
    clause anywhere.  When the text starts with the default form,
    [import], a name, [from] and the quoted module, the statement is
    rewritten to import that name and, in braces, the symbol the
    generated code refers to, and what followed the form is kept.
    When the text holds neither form, the statement is left as it is
    and one named import of the symbol is injected on a new line. *)
Theorem import_without_named_clause :
  forall context id importText,
    let symbol := Spec.symbolOf context id in
    Regex.search Regex.namedImportAt importText = None ->
    (forall group rest,
        Regex.defaultImportAt importText = Some (group, rest) ->
        mergeImportText [symbol] importText
        = Rewrite ("import " ++ group ++ ", { " ++ symbol
                             ++ " } from 'electron'" ++ rest))
    /\ (Regex.search Regex.defaultImportAt importText = None ->
        mergeImportText [symbol] importText
        = Inject (nl ++ "import { " ++ symbol ++ " } from 'electron';")).
Proof.
  intros context id importText symbol Hnone. split.
  - intros group rest Hat. unfold mergeImportText. rewrite Hnone.
    unfold Regex.test, Regex.replaceRegex.
    rewrite (search_at_start _ _ _ _ Hat).
    cbn [Regex.m_index Regex.m_text Regex.m_group].
    unfold symbol. rewrite expand_default.
    pose proof (suffixOf_take _ _ (defaultImportAt_suffix _ _ _ Hat))
      as Etext.
    set (matched := take _ importText) in *.
    assert (Hafter : drop (0 + String.length matched) importText = rest).
    { clearbody matched. rewrite Etext. simpl. apply drop_append. }
    rewrite Hafter. change (take 0 importText) with EmptyString.
    repeat (progress (cbn [append]; rewrite ?append_assoc)).
    reflexivity.
  - intros Hd. unfold mergeImportText, Regex.test.
    rewrite Hnone, Hd. reflexivity.
Qed.

Lemma import_without_named_clause_witness :
  mergeImportText [Spec.symbolOf Main "app.main.ipc.ts"]
                  "import electron from 'electron';"
  = Rewrite ("import " ++ "electron" ++ ", { "
               ++ Spec.symbolOf Main "app.main.ipc.ts"
               ++ " } from 'electron'" ++ ";")
  /\ mergeImportText [Spec.symbolOf Main "app.main.ipc.ts"]
                     "import * as electron from 'electron';"
     = Inject (nl ++ "import { "
                  ++ Spec.symbolOf Main "app.main.ipc.ts"
                  ++ " } from 'electron';").
Proof.
  split.
  - apply (import_without_named_clause
             Main "app.main.ipc.ts" "import electron from 'electron';");
      reflexivity.
  - apply (import_without_named_clause
             Main "app.main.ipc.ts"
             "import * as electron from 'electron';");
      reflexivity.
Defined.

End OtherImports.

(** ** A statement injected after the import, in a replacing cell *)

Section Injection.
Import JsString MagicString.
Variable source : string.

Let len := String.length source.

(** [appendLeft] at an offset inside a run of text no edit touched, or
    at its end. *)
Lemma inject_hit content p a b q tail :
  p <= a -> a < b -> b <= q -> q <= len -> Spec.beyond q tail ->
  exists cs0 cs',
    splitAt b (Spec.pristine source p q :: tail) = Some cs0
    /\ appendLeftChunk b content cs0 = Some cs'
    /\ chunksToString cs'
       = slice p a source ++ (slice a b source ++ content)
                         ++ slice b q source ++ chunksToString tail.
Proof.
  intros Hp Ha Hb Hq Ht.
  assert (Hjoin : slice p a source ++ slice a b source
                  = slice p b source).
  { apply slice_slice; lia. }
  destruct (Nat.eq_dec b q) as [->|Hne].
  - exists (Spec.pristine source p q :: tail).
    eexists. split; [|split].
    + rewrite (splitAt_outside source)
        by (right; unfold Spec.pristine; simpl; lia).
      now rewrite (splitAt_beyond source q q tail) by auto.
    + cbn [appendLeftChunk Spec.pristine c_end]. rewrite Nat.eqb_refl.
      reflexivity.
    + rewrite chunksToString_cons. unfold chunkToString. cbn.
      rewrite <- Hjoin. unfold slice at 5. rewrite Nat.sub_diag.
      cbn. now rewrite !append_assoc.
  - exists (Spec.pristine source p b :: Spec.pristine source b q :: tail).
    eexists. split; [|split].
    + apply splitAt_inside; lia.
    + cbn [appendLeftChunk Spec.pristine c_end]. rewrite Nat.eqb_refl.
      reflexivity.
    + rewrite !chunksToString_cons. unfold chunkToString. cbn.
      rewrite <- Hjoin. now rewrite ?append_nil_r, !append_assoc.
Qed.

Lemma inject_skip content b c cs :
  c_end c < b ->
  splitAt b (c :: cs) = option_map (cons c) (splitAt b cs)
  /\ forall cs0,
      appendLeftChunk b content (c :: cs0)
      = option_map (cons c) (appendLeftChunk b content cs0).
Proof.
  intros H. split.
  - apply (splitAt_outside source). right. lia.
  - intros cs0. cbn [appendLeftChunk]. decide_tests. reflexivity.
Qed.

(** [appendLeft] on the chunks of laid-out edits, at the end of a span
    the edits leave alone: the text is that of the edits with the span
    rewritten to itself followed by the content. *)
Lemma inject_chunksOf content a b edits : forall p,
  Spec.laidOut len p
               (Spec.insertEdit (a, b, slice a b source ++ content) edits) ->
  exists cs0 cs',
    splitAt b (Spec.chunksOf source p edits) = Some cs0
    /\ appendLeftChunk b content cs0 = Some cs'
    /\ chunksToString cs'
       = Spec.splice source p
           (Spec.insertEdit (a, b, slice a b source ++ content) edits).
Proof.
  induction edits as [|[[s1 e1] t1] rest IH]; intros p H;
    cbn [Spec.insertEdit fst snd] in *.
  - destruct H as (H1 & H2 & H3 & H4).
    cbn [Spec.chunksOf]. fold len. decide_tests.
    destruct (inject_hit content p a b len [] H1 H2 H3 (Nat.le_refl _))
      as (cs0 & cs' & E0 & E1 & E2); [constructor|].
    exists cs0, cs'. split; [exact E0|]. split; [exact E1|].
    rewrite E2. cbn [Spec.splice chunksToString fold_right].
    rewrite append_nil_r. do 2 f_equal.
    unfold slice. apply take_all. rewrite length_drop. fold len. lia.
  - destruct (Nat.leb b s1) eqn:E.
    + apply Nat.leb_le in E.
      destruct H as (H1 & H2 & H3 & H4 & H5 & H6 & H7).
      cbn [Spec.chunksOf]. decide_tests. cbn [app].
      destruct (inject_hit content p a b s1
                  (Spec.rewritten source s1 e1 t1
                     :: Spec.chunksOf source e1 rest) H1 H2 E)
        as (cs0 & cs' & E0 & E1 & E2); [lia| |].
      { apply (beyond_cons source); unfold Spec.rewritten; simpl; auto.
        apply chunksOf_beyond. exact H7. }
      exists cs0, cs'. split; [exact E0|]. split; [exact E1|].
      rewrite E2. cbn [Spec.splice].
      rewrite chunksToString_cons, chunkToString_rewritten.
      rewrite (chunksOf_toString source) by exact H7.
      now rewrite !append_assoc.
    + apply Nat.leb_gt in E.
      destruct H as (H1 & H2 & H3 & H4).
      pose proof (laidOut_insert_start _ _ _ _ H4) as Hs. simpl in Hs.
      pose proof (laidOut_insert_span source _ _ _ H4) as [Hab _].
      simpl in Hab.
      destruct (IH _ H4) as (cs0 & cs' & E0 & E1 & E2).
      cbn [Spec.chunksOf Spec.splice].
      destruct (Nat.ltb p s1) eqn:Ep; cbn [app].
      * exists (Spec.pristine source p s1
                  :: Spec.rewritten source s1 e1 t1 :: cs0),
          (Spec.pristine source p s1
             :: Spec.rewritten source s1 e1 t1 :: cs').
        destruct (inject_skip content b (Spec.pristine source p s1)
                    (Spec.rewritten source s1 e1 t1
                       :: Spec.chunksOf source e1 rest))
          as [S1 A1]; [unfold Spec.pristine, Spec.rewritten; simpl; lia|].
        destruct (inject_skip content b (Spec.rewritten source s1 e1 t1)
                    (Spec.chunksOf source e1 rest))
          as [S2 A2]; [unfold Spec.pristine, Spec.rewritten; simpl; lia|].
        split; [|split].
        -- rewrite S1, S2, E0. reflexivity.
        -- rewrite A1, A2, E1. reflexivity.
        -- rewrite !chunksToString_cons, chunkToString_pristine,
             chunkToString_rewritten, E2. reflexivity.
      * apply Nat.ltb_ge in Ep.
        exists (Spec.rewritten source s1 e1 t1 :: cs0),
          (Spec.rewritten source s1 e1 t1 :: cs').
        destruct (inject_skip content b (Spec.rewritten source s1 e1 t1)
                    (Spec.chunksOf source e1 rest))
          as [S2 A2]; [unfold Spec.pristine, Spec.rewritten; simpl; lia|].
        split; [|split].
        -- rewrite S2, E0. reflexivity.
        -- rewrite A2, E1. reflexivity.
        -- rewrite !chunksToString_cons, chunkToString_rewritten, E2.
           replace s1 with p by lia. unfold slice.
           now rewrite Nat.sub_diag.
Qed.

End Injection.

Section ReplacingWithImport.
Import JsString Plugin.
Variable context : Context.
Variable source id : string.
Variable sourceFile : Ts.SourceFile.

Let stubs := map (Spec.stubEdit context id) (extract source sourceFile).

(** A replacing cell on an import of neither form: the named import
    is injected at the end of the statement. *)
Lemma replacing_inject :
  forall a b rest injection,
    Spec.registersLocally context id = false ->
    extract source sourceFile <> [] ->
    importNodes sourceFile = (a, b) :: rest ->
    mergeImportText [Spec.symbolOf context id] (slice a b source)
    = Inject injection ->
    Spec.laidOut (String.length source) 0
                 (Spec.insertEdit (a, b, slice a b source ++ injection)
                                  stubs) ->
    transform context source id sourceFile
    = Code (Spec.splice
              source 0
              (Spec.insertEdit (a, b, slice a b source ++ injection)
                               stubs)).
Proof.
  intros a b rest injection Hcell Hne Himp Em Hl.
  unfold transform, stubs in *.
  destruct (extract source sourceFile) as [|fn fns] eqn:E;
    [congruence|].
  pose proof (laidOut_insert_remove source _ _ _ Hl) as Hl0.
  assert (Hpos : 0 < String.length source).
  { simpl in Hl0. lia. }
  rewrite (transformFunctions_replace context source id Hcell
             (fn :: fns) []); auto.
  - rewrite needed_after by discriminate.
    unfold mergeImports. rewrite Himp, Em.
    unfold MagicString.appendLeft.
    cbn [MagicString.chunks MagicString.original MagicString.intro
         MagicString.outro app].
    destruct (inject_chunksOf source injection a b _ 0 Hl)
      as (cs0 & cs' & E0 & E1 & E2).
    rewrite E0, E1. unfold MagicString.toString.
    cbn [MagicString.chunks MagicString.intro MagicString.outro].
    rewrite E2. cbn [append]. now rewrite append_nil_r.
  - unfold MagicString.create.
    cbn [MagicString.chunks Spec.chunksOf].
    decide_tests. unfold Spec.pristine. now rewrite slice_full.
Qed.

(** X10.  A replacing cell on a file that has an electron import, in
    all three cases of the merge.  When the spans of the functions and
    of the first electron import come in order without overlap, the
    code returned is the original text with every function span
    replaced by its stub and the import replaced by its merged text;
    for an import of neither form the merged text is the statement as
    it was, followed by the injected named import, so the new
    statement lands right after the old one and before the stubs that
    follow. *)
Theorem replacing_output_with_import :
  forall a b rest,
    Spec.registersLocally context id = false ->
    extract source sourceFile <> [] ->
    importNodes sourceFile = (a, b) :: rest ->
    let merged :=
      Spec.mergedImport [Spec.symbolOf context id] (slice a b source) in
    Spec.laidOut (String.length source) 0
                 (Spec.insertEdit (a, b, merged) stubs) ->
    transform context source id sourceFile
    = Code (Spec.splice source 0 (Spec.insertEdit (a, b, merged) stubs)).
Proof.
  intros a b rest Hcell Hne Himp merged Hl.
  unfold merged, Spec.mergedImport in *.
  destruct (mergeImportText [Spec.symbolOf context id]
                            (slice a b source))
    as [text|injection] eqn:Em.
  - pose proof (replacing_output context source id Hcell sourceFile Hne)
      as H.
    rewrite Himp in H. exact (H text Em Hl).
  - exact (replacing_inject a b rest injection Hcell Hne Himp Em Hl).
Qed.

End ReplacingWithImport.

Section OnTheTray.
Import JsString Plugin.

(** The renderer build of a main-role file that imports electron as a
    namespace: the import stays, the named import follows it, and the
    stub comes after. *)
Lemma replacing_output_with_import_witness :
  transform Renderer Samples.traySource "tray.main.ipc.ts"
            Samples.trayFile
  = Code (Spec.splice
            Samples.traySource 0
            (Spec.insertEdit
               (0, 36,
                Spec.mergedImport
                  [Spec.symbolOf Renderer "tray.main.ipc.ts"]
                  (slice 0 36 Samples.traySource))
               (map (Spec.stubEdit Renderer "tray.main.ipc.ts")
                    (extract Samples.traySource Samples.trayFile)))).
Proof.
  apply (replacing_output_with_import
           Renderer Samples.traySource "tray.main.ipc.ts"
           Samples.trayFile 0 36 []).
  - reflexivity.
  - discriminate.
  - reflexivity.
  - vm_compute. repeat split; lia.
Defined.

(** The text that build returns. *)
Example tray_renderer_build :
  transform Renderer Samples.traySource "tray.main.ipc.ts"
            Samples.trayFile
  = Code ("import * as electron from 'electron'
import { ipcRenderer } from 'electron';"
            ++ syncInvokerStub "quit"
                 (channelOf "tray.main.ipc.ts"
                    (mkExportedFunction
                       "quit" 36 71 false
                       (slice 36 71 Samples.traySource) false))).
Proof. vm_compute. reflexivity. Qed.

End OnTheTray.

(** ** Trees of the shape the parser returns *)

Section NeverThrows.
Import JsString Plugin.
Variable context : Context.
Variable source id : string.

Let len := String.length source.
Let stubsOf (fns : list ExportedFunction) : list Spec.Edit :=
  map (Spec.stubEdit context id) fns.

Lemma laidOut_limit edits : forall limit p,
  Spec.laidOut limit p edits -> p <= limit.
Proof.
  induction edits as [|[[s e] t] rest IH]; intros limit p H; simpl in H.
  - exact H.
  - destruct H as (H1 & H2 & H3 & H4). lia.
Qed.

Lemma laidOut_from edits limit p q :
  Spec.laidOut limit q edits -> p <= q -> Spec.laidOut limit p edits.
Proof.
  destruct edits as [|[[s e] t] rest]; simpl; intros H Hp.
  - lia.
  - destruct H as (H1 & H2 & H3 & H4). repeat split; auto. lia.
Qed.

Lemma laidOut_app xs : forall limit bound p ys,
  Spec.laidOut limit p xs -> Spec.laidOut bound limit ys ->
  Spec.laidOut bound p (xs ++ ys)%list.
Proof.
  induction xs as [|[[s e] t] xs IH]; intros limit bound p ys Hx Hy;
    cbn [app].
  - simpl in Hx. eapply laidOut_from; eauto.
  - simpl in Hx. destruct Hx as (H1 & H2 & H3 & H4).
    pose proof (laidOut_limit _ _ _ Hy) as Hb.
    simpl. repeat split; auto; [lia|]. eapply IH; eauto.
Qed.

Lemma insertEdit_first a b t ys bound :
  Spec.laidOut bound b ys -> Spec.insertEdit (a, b, t) ys = (a, b, t) :: ys.
Proof.
  destruct ys as [|[[s e] t'] ys]; [reflexivity|].
  simpl. intros (H1 & _). cbn [Spec.insertEdit fst snd].
  decide_tests. reflexivity.
Qed.

Lemma insertEdit_app a b t xs : forall limit p ys,
  Spec.laidOut limit p xs -> limit < b ->
  Spec.insertEdit (a, b, t) (xs ++ ys)%list
  = (xs ++ Spec.insertEdit (a, b, t) ys)%list.
Proof.
  induction xs as [|[[s e] t'] xs IH]; intros limit p ys Hx Hb;
    [reflexivity|].
  simpl in Hx. destruct Hx as (H1 & H2 & H3 & H4).
  cbn [app Spec.insertEdit fst snd]. decide_tests.
  f_equal. eapply IH; eauto.
Qed.

(** Below a flat statement the traversal finds nothing. *)
Lemma flat_visit stmt :
  Spec.flat stmt = true ->
  flat_map (visit source) (Spec.childrenOf stmt) = [].
Proof.
  unfold Spec.flat. intros H. apply negb_true_iff in H.
  destruct (flat_map (visit source) (Spec.childrenOf stmt))
    as [|fn fns] eqn:E; [reflexivity|].
  assert (Hin : In fn (flat_map (visit source) (Spec.childrenOf stmt)))
    by (rewrite E; now left).
  apply in_flat_map in Hin as (child & Hc & Hfn).
  apply visit_subnodes in Hfn as (n & Hn & Hp).
  assert (Ht : existsb Spec.qualifies
                       (flat_map Spec.subnodes (Spec.childrenOf stmt))
               = true).
  { apply existsb_exists. exists n. split.
    - apply in_flat_map. eauto.
    - apply (qualifies_pushed source). eauto. }
  congruence.
Qed.

Lemma declarations_laidOut modifiers declarations : forall limit p,
  Spec.initializersFrom limit p declarations ->
  Spec.laidOut limit p
    (stubsOf (flat_map (visitDeclaration source modifiers) declarations)).
Proof.
  unfold stubsOf.
  induction declarations as [|decl rest IH]; intros limit p H;
    cbn [Spec.initializersFrom flat_map] in *.
  - exact H.
  - unfold visitDeclaration at 1.
    destruct (Ts.decl_initializer decl) as [init|].
    + destruct H as (H1 & H2 & H3). specialize (IH _ _ H3).
      pose proof (laidOut_limit _ _ _ IH) as Hb.
      assert (Hskip : Spec.laidOut
                        limit p
                        (map (Spec.stubEdit context id)
                             (flat_map (visitDeclaration source modifiers)
                                       rest))).
      { eapply laidOut_from; eauto. lia. }
      destruct (Ts.decl_name decl); [|exact Hskip].
      destruct (Ts.init_kind init); cbn [app map]; try exact Hskip.
      all: unfold Spec.stubEdit at 1; cbn [start end_];
        simpl; repeat split; auto.
    + destruct (Ts.decl_name decl); apply IH; exact H.
Qed.

(** The spans a flat statement gives rise to lie within it. *)
Lemma statement_laidOut stmt p :
  Spec.placed len p stmt -> Spec.flat stmt = true ->
  Spec.laidOut (Spec.endOf stmt) p (stubsOf (visit source stmt))
  /\ Spec.endOf stmt <= len.
Proof.
  intros Hp Hf. apply flat_visit in Hf.
  destruct stmt as [pos end_ modifiers name children
                   |pos end_ modifiers declarations children
                   |pos start end_ info
                   |pos end_ modifiers children];
    cbn [Spec.placed Spec.endOf Spec.childrenOf visit] in *;
    try rewrite Hf; rewrite ?app_nil_r.
  - destruct Hp as (H1 & H2 & H3). split; [|exact H3].
    destruct (Ts.hasModifier Ts.ExportKeyword modifiers);
      [|simpl; lia].
    destruct name; simpl; repeat split; auto; lia.
  - destruct Hp as (H1 & H2 & H3). split; [|exact H2].
    pose proof (declarations_laidOut modifiers _ _ _ H3) as Hd.
    destruct (Ts.hasModifier Ts.ExportKeyword modifiers).
    + eapply laidOut_from; eauto.
    + simpl. apply laidOut_limit in Hd. lia.
  - destruct Hp as (H1 & H2 & H3 & H4). split; [simpl; lia | exact H4].
  - destruct Hp as (H1 & H2 & H3). split; [simpl; lia | exact H3].
Qed.

Lemma sequence_laidOut stmts : forall p,
  Spec.inSequence len p stmts ->
  Forall (fun stmt => Spec.flat stmt = true) stmts ->
  Spec.laidOut len p (stubsOf (flat_map (visit source) stmts)).
Proof.
  unfold stubsOf.
  induction stmts as [|stmt rest IH]; intros p Hs Hf;
    cbn [Spec.inSequence flat_map] in *.
  - exact Hs.
  - destruct Hs as [Hp Hs]. apply Forall_cons_iff in Hf as [Hf1 Hf].
    destruct (statement_laidOut stmt p Hp Hf1) as [Hx _].
    rewrite map_app. eapply laidOut_app; [exact Hx|]. now apply IH.
Qed.

Lemma electronImport_span stmt a b :
  electronImport stmt = Some (a, b) ->
  exists pos info, stmt = Ts.ImportDeclaration pos a b info.
Proof.
  destruct stmt as [| |pos start end_ info|]; try discriminate.
  simpl. destruct (String.eqb _ _); [|discriminate].
  intros [= <- <-]. eauto.
Qed.

(** The span of the first electron import finds its place among the
    spans of the functions. *)
Lemma sequence_with_import text stmts : forall p a b rest,
  Spec.inSequence len p stmts ->
  Forall (fun stmt => Spec.flat stmt = true) stmts ->
  importNodes (Ts.mkSourceFile stmts) = (a, b) :: rest ->
  Spec.laidOut len p
    (Spec.insertEdit (a, b, text)
                     (stubsOf (flat_map (visit source) stmts))).
Proof.
  unfold importNodes, stubsOf. cbn [Ts.statements].
  induction stmts as [|stmt stmts IH]; intros p a b rest Hs Hf Hi;
    cbn [Spec.inSequence flat_map] in *; [discriminate|].
  destruct Hs as [Hp Hs]. apply Forall_cons_iff in Hf as [Hf1 Hf].
  destruct (electronImport stmt) as [[a' b']|] eqn:E.
  - cbn [app] in Hi. injection Hi as -> -> _.
    apply electronImport_span in E as (pos & info & ->).
    cbn [visit app Spec.placed Spec.endOf] in *.
    destruct Hp as (H1 & H2 & H3 & H4).
    pose proof (sequence_laidOut stmts b Hs Hf) as Hrest.
    unfold stubsOf in Hrest.
    rewrite (insertEdit_first a b text _ len Hrest).
    simpl. repeat split; auto. lia.
  - cbn [app] in Hi.
    destruct (statement_laidOut stmt p Hp Hf1) as [Hx Hend].
    unfold stubsOf in Hx.
    specialize (IH _ _ _ _ Hs Hf Hi).
    pose proof (laidOut_insert_start source _ _ _ IH) as Ha.
    pose proof (laidOut_insert_span source _ _ _ IH) as [Hab _].
    cbn [fst snd] in Ha, Hab.
    rewrite map_app.
    rewrite (insertEdit_app a b text _ (Spec.endOf stmt) p)
      by (auto; lia).
    eapply laidOut_app; eauto.
Qed.

Variable sourceFile : Ts.SourceFile.

(** X11.  On a tree of the shape the parser returns for a module, with
    the statements one after the other within the text, every
    function declaration and import not empty, the initializers of a
    variable statement inside it in their order, and no exported
    function below the top level, the transform never throws, in
    either context and whatever the role of the file: the edits it
    makes never meet. *)
Theorem transform_never_throws :
  Forall (fun stmt => Spec.flat stmt = true) (Ts.statements sourceFile) ->
  Spec.inSequence (String.length source) 0 (Ts.statements sourceFile) ->
  transform context source id sourceFile <> Throws.
Proof.
  intros Hf Hs. fold len in Hs.
  destruct (extract source sourceFile) as [|fn fns] eqn:E.
  { unfold transform. rewrite E. discriminate. }
  assert (Hne : extract source sourceFile <> []) by (rewrite E; discriminate).
  pose proof (sequence_laidOut _ 0 Hs Hf) as Hl.
  unfold stubsOf in Hl. fold (extract source sourceFile) in Hl.
  destruct (importNodes sourceFile) as [|[a b] rest] eqn:Ei.
  - destruct (Spec.registersLocally context id) eqn:Ec.
    + pose proof (registering_output context id source sourceFile Ec Hne)
        as H.
      rewrite Ei in H. rewrite H. discriminate.
    + pose proof (replacing_output context source id Ec sourceFile Hne)
        as H.
      rewrite Ei in H. rewrite (H Hl). discriminate.
  - assert (Hm : forall text,
               Spec.laidOut len 0
                 (Spec.insertEdit
                    (a, b, text)
                    (map (Spec.stubEdit context id)
                         (extract source sourceFile)))).
    { intros text.
      apply (sequence_with_import text (Ts.statements sourceFile)
               0 a b rest Hs Hf).
      destruct sourceFile. exact Ei. }
    destruct (Spec.registersLocally context id) eqn:Ec.
    + pose proof (registering_output context id source sourceFile Ec Hne)
        as H.
      rewrite Ei in H.
      destruct (laidOut_insert_span source _ _ _ (Hm "")) as [Hab Hb].
      cbn [fst snd] in Hab, Hb.
      rewrite (H Hab Hb). discriminate.
    + destruct (mergeImportText [Spec.symbolOf context id]
                                (slice a b source))
        as [text|injection] eqn:Em.
      * pose proof (replacing_output context source id Ec sourceFile
                                     Hne) as H.
        rewrite Ei in H. rewrite (H text Em (Hm _)). discriminate.
      * rewrite (replacing_inject context source id sourceFile
                   a b rest injection Ec Hne Ei Em (Hm _)).
        discriminate.
Qed.

End NeverThrows.

Section OnThePanel.
Import JsString Plugin.

(** The renderer-role sample, compiled for the main context, where
    both functions are replaced and the import is rewritten. *)
Lemma transform_never_throws_witness :
  transform Main Samples.panelSource "panel.renderer.ipc.ts"
            Samples.panelFile <> Throws.
Proof.
  apply (transform_never_throws
           Main Samples.panelSource "panel.renderer.ipc.ts"
           Samples.panelFile).
  - repeat constructor.
  - vm_compute. repeat split; lia.
Defined.

End OnThePanel.

(** ** The two builds of a file *)

Section TwoBuilds.
Import JsString Plugin.
Variable source id : string.
Variable sourceFile : Ts.SourceFile.

Hypothesis flat :
  Forall (fun stmt => Spec.flat stmt = true) (Ts.statements sourceFile).
Hypothesis inSequence :
  Spec.inSequence (String.length source) 0 (Ts.statements sourceFile).

Lemma occursIn_trans (a b c : string) :
  Spec.occursIn a b -> Spec.occursIn b c -> Spec.occursIn a c.
Proof.
  intros (x & y & ->) (u & v & ->).
  exists (u ++ x), (y ++ v). now rewrite !append_assoc.
Qed.

Lemma occursIn_front (p s y : string) :
  Spec.occursIn p s -> Spec.occursIn p (s ++ y).
Proof.
  intros (b & a & ->). exists b, (a ++ y). now rewrite !append_assoc.
Qed.

Lemma occursIn_self (s : string) : Spec.occursIn s s.
Proof. exists "", "". simpl. now rewrite append_nil_r. Qed.

Lemma occursIn_registrations context fn fns :
  In fn fns ->
  Spec.occursIn (Spec.registrationOf context id fn)
                (Spec.registrationsOf context id fns).
Proof.
  induction fns as [|fn' fns IH]; [intros []|intros [<-|Hin]]; cbn.
  - apply occursIn_front, occursIn_self.
  - apply occursIn_append. now apply IH.
Qed.

Lemma occursIn_splice s e text edits : forall p,
  In (s, e, text) edits ->
  Spec.occursIn text (Spec.splice source p edits).
Proof.
  induction edits as [|[[s1 e1] t1] rest IH]; intros p;
    [intros []|intros [E|Hin]]; cbn [Spec.splice].
  - injection E as -> -> ->.
    apply occursIn_append, occursIn_front, occursIn_self.
  - apply occursIn_append, occursIn_append. now apply IH.
Qed.

Lemma In_insertEdit (x y : Spec.Edit) edits :
  In y edits -> In y (Spec.insertEdit x edits).
Proof.
  induction edits as [|z rest IH]; [intros []|].
  cbn [Spec.insertEdit]. destruct (Nat.leb _ _).
  - intros H. now right.
  - intros [<-|H]; [now left | right; auto].
Qed.

(** In the context that keeps the functions, the code returned ends
    with the registrations. *)
Lemma registering_code context :
  Spec.registersLocally context id = true ->
  extract source sourceFile <> [] ->
  exists front,
    transform context source id sourceFile
    = Code (front ++ Spec.registrationsOf
                       context id (extract source sourceFile)).
Proof.
  intros Hcell Hne.
  pose proof (registering_output context id source sourceFile Hcell Hne)
    as H.
  destruct (importNodes sourceFile) as [|[a b] rest] eqn:Ei.
  - rewrite H.
    exists ("import { " ++ Spec.symbolOf context id
                        ++ " } from 'electron';" ++ nl ++ source).
    now rewrite !append_assoc.
  - pose proof (sequence_with_import
                  context source id "" (Ts.statements sourceFile)
                  0 a b rest inSequence flat) as Hl.
    destruct sourceFile as [stmts]. specialize (Hl Ei).
    destruct (laidOut_insert_span source _ _ _ Hl) as [Hab Hb].
    cbn [fst snd] in Hab, Hb. rewrite (H Hab Hb).
    exists (take a source
              ++ Spec.mergedImport [Spec.symbolOf context id]
                                   (slice a b source)
              ++ drop b source).
    now rewrite !append_assoc.
Qed.

(** In the other context it holds the stub of every function. *)
Lemma replacing_code context fn :
  Spec.registersLocally context id = false ->
  In fn (extract source sourceFile) ->
  exists code,
    transform context source id sourceFile = Code code
    /\ Spec.occursIn (Spec.stubOf context id fn) code.
Proof.
  intros Hcell Hin.
  assert (Hne : extract source sourceFile <> [])
    by (intros E; rewrite E in Hin; destruct Hin).
  assert (Hstub : In (Spec.stubEdit context id fn)
                     (map (Spec.stubEdit context id)
                          (extract source sourceFile)))
    by now apply in_map.
  pose proof (sequence_laidOut context source id _ 0 inSequence flat)
    as Hl.
  fold (extract source sourceFile) in Hl.
  destruct (importNodes sourceFile) as [|[a b] rest] eqn:Ei.
  - pose proof (replacing_output context source id Hcell sourceFile Hne)
      as H.
    rewrite Ei in H. rewrite (H Hl). eexists. split; [reflexivity|].
    apply occursIn_append, occursIn_append, occursIn_append,
      occursIn_append.
    eapply occursIn_splice. exact Hstub.
  - assert (Hm : forall text,
               Spec.laidOut (String.length source) 0
                 (Spec.insertEdit
                    (a, b, text)
                    (map (Spec.stubEdit context id)
                         (extract source sourceFile)))).
    { intros text.
      apply (sequence_with_import
               context source id text (Ts.statements sourceFile)
               0 a b rest inSequence flat).
      destruct sourceFile. exact Ei. }
    destruct (mergeImportText [Spec.symbolOf context id]
                              (slice a b source))
      as [text|injection] eqn:Em.
    + pose proof (replacing_output context source id Hcell sourceFile
                                   Hne) as H.
      rewrite Ei in H. rewrite (H text Em (Hm _)).
      eexists. split; [reflexivity|].
      eapply occursIn_splice. apply In_insertEdit. exact Hstub.
    + rewrite (replacing_inject context source id sourceFile
                 a b rest injection Hcell Hne Ei Em (Hm _)).
      eexists. split; [reflexivity|].
      eapply occursIn_splice. apply In_insertEdit. exact Hstub.
Qed.

(** X12.  The two builds of a file meet on the channel of each
    function, in the code they return.  For a tree of the shape the
    parser returns and a function the traversal collects: of a
    main-role file, the main build registers the function on its
    channel with [ipcMain.handle] when it is async and [ipcMain.on]
    otherwise, and the renderer build calls [ipcRenderer.invoke],
    respectively [ipcRenderer.sendSync], on that same channel; of a
    renderer-role file, the main build sends on the channel to the
    webContents and, for an async function, listens once on the reply
    channel, and the renderer build listens on the channel and sends
    on the reply channel. *)
Theorem builds_meet_on_the_channel :
  forall fn,
    In fn (extract source sourceFile) ->
    let channel := channelOf id fn in
    (isMainIpcFile id = true ->
     exists main renderer,
       transform Main source id sourceFile = Code main
       /\ transform Renderer source id sourceFile = Code renderer
       /\ Spec.occursIn
            (Spec.callOn (if isAsync fn then "ipcMain.handle"
                          else "ipcMain.on") channel) main
       /\ Spec.occursIn
            (Spec.callOn (if isAsync fn then "ipcRenderer.invoke"
                          else "ipcRenderer.sendSync") channel)
            renderer)
    /\ (isRendererIpcFile id = true ->
        exists main renderer,
          transform Main source id sourceFile = Code main
          /\ transform Renderer source id sourceFile = Code renderer
          /\ Spec.occursIn (Spec.callOn "wc.send" channel) main
          /\ (isAsync fn = true ->
              Spec.occursIn
                (Spec.callOn "wc.once" (channel ++ "-reply")) main)
          /\ Spec.occursIn (Spec.callOn "ipcRenderer.on" channel)
                           renderer
          /\ Spec.occursIn
               (Spec.callOn "event.sender.send" (channel ++ "-reply"))
               renderer).
Proof.
  intros fn Hin channel. subst channel.
  assert (Hne : extract source sourceFile <> [])
    by (intros E; rewrite E in Hin; destruct Hin).
  split; intros Hrole.
  - destruct (registering_code Main Hrole Hne) as [front Hm].
    destruct (replacing_code Renderer fn
                (main_role_not_renderer id Hrole) Hin)
      as (renderer & Hr & Hstub).
    eexists. exists renderer.
    split; [exact Hm|]. split; [exact Hr|]. split.
    + apply occursIn_append.
      eapply occursIn_trans;
        [|apply (occursIn_registrations Main fn _ Hin)].
      unfold Spec.registrationOf.
      destruct (isAsync fn);
        unfold mainAsyncHandler, mainSyncHandler, dq; cbn;
        find_occurrence.
    + eapply occursIn_trans; [|exact Hstub].
      unfold Spec.stubOf.
      destruct (isAsync fn);
        unfold asyncInvokerStub, syncInvokerStub, dq; cbn;
        find_occurrence.
  - destruct (replacing_code Main fn
                (renderer_role_not_main id Hrole) Hin)
      as (main & Hm & Hstub).
    destruct (registering_code Renderer Hrole Hne) as [front Hr].
    exists main. eexists.
    split; [exact Hm|]. split; [exact Hr|].
    split; [|split; [|split]].
    + eapply occursIn_trans; [|exact Hstub].
      unfold Spec.stubOf.
      destruct (isAsync fn);
        unfold asyncBroadcasterStub, syncBroadcasterStub, dq; cbn;
        find_occurrence.
    + intros Ha. eapply occursIn_trans; [|exact Hstub].
      unfold Spec.stubOf. rewrite Ha.
      unfold asyncBroadcasterStub, dq; cbn; find_occurrence.
    + apply occursIn_append.
      eapply occursIn_trans;
        [|apply (occursIn_registrations Renderer fn _ Hin)].
      unfold Spec.registrationOf.
      destruct (isAsync fn);
        unfold rendererAsyncListener, rendererSyncListener, dq; cbn;
        find_occurrence.
    + apply occursIn_append.
      eapply occursIn_trans;
        [|apply (occursIn_registrations Renderer fn _ Hin)].
      unfold Spec.registrationOf.
      destruct (isAsync fn);
        unfold rendererAsyncListener, rendererSyncListener, dq; cbn;
        find_occurrence.
Qed.

End TwoBuilds.

Section OnBothBuilds.
Import JsString Plugin.

(** The scenario file and the renderer-role sample, each in its two
    builds. *)
Lemma builds_meet_on_the_channel_witness :
  (exists main renderer,
      transform Main Samples.barSource "foo.main.ipc.ts" Samples.barFile
      = Code main
      /\ transform Renderer Samples.barSource "foo.main.ipc.ts"
                   Samples.barFile
         = Code renderer
      /\ Spec.occursIn
           (Spec.callOn "ipcMain.handle"
                        (channelOf "foo.main.ipc.ts" Samples.barFn))
           main
      /\ Spec.occursIn
           (Spec.callOn "ipcRenderer.invoke"
                        (channelOf "foo.main.ipc.ts" Samples.barFn))
           renderer)
  /\ (exists main renderer,
         transform Main Samples.panelSource "panel.renderer.ipc.ts"
                   Samples.panelFile
         = Code main
         /\ transform Renderer Samples.panelSource
                      "panel.renderer.ipc.ts" Samples.panelFile
            = Code renderer
         /\ Spec.occursIn
              (Spec.callOn
                 "wc.send"
                 (channelOf "panel.renderer.ipc.ts"
                    (mkExportedFunction
                       "ping" 32 67 false
                       (slice 32 67 Samples.panelSource) false)))
              main
         /\ Spec.occursIn
              (Spec.callOn
                 "ipcRenderer.on"
                 (channelOf "panel.renderer.ipc.ts"
                    (mkExportedFunction
                       "ping" 32 67 false
                       (slice 32 67 Samples.panelSource) false)))
              renderer).
Proof.
  split.
  - assert (Hf : Forall (fun stmt => Spec.flat stmt = true)
                        (Ts.statements Samples.barFile))
      by repeat constructor.
    assert (Hs : Spec.inSequence (String.length Samples.barSource) 0
                                 (Ts.statements Samples.barFile))
      by (vm_compute; repeat split; lia).
    assert (Hin : In Samples.barFn
                     (extract Samples.barSource Samples.barFile))
      by (left; reflexivity).
    destruct (builds_meet_on_the_channel
                Samples.barSource "foo.main.ipc.ts" Samples.barFile
                Hf Hs Samples.barFn Hin) as [H _].
    exact (H eq_refl).
  - assert (Hf : Forall (fun stmt => Spec.flat stmt = true)
                        (Ts.statements Samples.panelFile))
      by repeat constructor.
    assert (Hs : Spec.inSequence (String.length Samples.panelSource) 0
                                 (Ts.statements Samples.panelFile))
      by (vm_compute; repeat split; lia).
    assert (Hin : In (mkExportedFunction
                        "ping" 32 67 false
                        (slice 32 67 Samples.panelSource) false)
                     (extract Samples.panelSource Samples.panelFile))
      by (left; reflexivity).
    destruct (builds_meet_on_the_channel
                Samples.panelSource "panel.renderer.ipc.ts"
                Samples.panelFile Hf Hs _ Hin) as [_ H].
    destruct (H eq_refl) as (main & renderer & H1 & H2 & H3 & _ & H5 & _).
    exists main, renderer. auto.
Defined.

End OnBothBuilds.

(** ** The fire-and-forget stub in the code returned *)

Section FireAndForget.
Import JsString Plugin Runtime.
Variable source id : string.
Variable sourceFile : Ts.SourceFile.



End FireAndForget.

Section FireAndForgetOnThePanel.
Import JsString Plugin.


(** The text that build returns: the import merged, the stub in the
    place of [ping], and the stub of [pong], which is async, behind
    its binding. *)
Example panel_main_build :
  transform Main Samples.panelSource "panel.renderer.ipc.ts"
            Samples.panelFile
  = Code ("import { shell, webContents } from 'electron'"
            ++ syncBroadcasterStub
                 "ping" "panel.renderer.ipc.ts:ping:f38a87a5c51e"
            ++ "
export const pong ="
            ++ asyncBroadcasterStub
                 "pong" "panel.renderer.ipc.ts:pong:8c5718840bc5").
Proof. vm_compute. reflexivity. Qed.

End FireAndForgetOnThePanel.

(** ** A symbol the file imports already *)

Section DuplicateImport.
Import JsString Plugin.

(** C7.  The merge does not keep to what the code sets out to do: the
    names the file imports from electron are collected into
    [existingElectronImports], lines 351-361, and never read, and the
    merge looks at the text of the first import alone.  A file whose
    second import brings [ipcMain] gets it added to the first, and a
    file that imports it next to the default export gets a second
    statement importing it: in both the code returned imports
    [ipcMain] twice.  The statement the merge writes for the default
    form is of that second kind, so that merging it again injects
    another import. *)
Theorem import_merge_duplicates_an_imported_symbol :
  existingElectronImports Samples.twoImportsFile = ["app"; "ipcMain"]
  /\ transform Main Samples.twoImportsSource "app.main.ipc.ts"
               Samples.twoImportsFile
     = Code ("import { app, ipcMain } from 'electron'
import {ipcMain} from 'electron'
export function f(){}"
               ++ mainSyncHandler
                    "f"
                    (channelOf "app.main.ipc.ts"
                       (mkExportedFunction
                          "f" 61 83 false
                          (slice 61 83 Samples.twoImportsSource) false)))
  /\ existingElectronImports Samples.bothFormsFile = ["ipcMain"]
  /\ transform Main Samples.bothFormsSource "app.main.ipc.ts"
               Samples.bothFormsFile
     = Code ("import electron, { ipcMain } from 'electron'
import { ipcMain } from 'electron';
export function f(){}"
               ++ mainSyncHandler
                    "f"
                    (channelOf "app.main.ipc.ts"
                       (mkExportedFunction
                          "f" 44 66 false
                          (slice 44 66 Samples.bothFormsSource) false)))
  /\ mergeImportText ["ipcMain"] "import electron from 'electron'"
     = Rewrite "import electron, { ipcMain } from 'electron'"
  /\ mergeImportText ["ipcMain"]
                     "import electron, { ipcMain } from 'electron'"
     = Inject (nl ++ "import { ipcMain } from 'electron';").
Proof.
  split; [reflexivity|].
  split; [vm_compute; reflexivity|].
  split; [reflexivity|].
  split; [vm_compute; reflexivity|].
  split; reflexivity.
Qed.

End DuplicateImport.
